(** * CTDopts: parameter trees, CTD documents and command lines

    A shallow embedding of [CTDopts.py] (Python 2).  Python objects become
    records and inductive types, mutation becomes explicit state passing,
    exceptions become the [Raise] branch of [result], and [warnings.warn]
    becomes a list of emitted messages returned next to the value.

    The XML text written by [write_ctd] and read back by [parse] is
    identified with the element tree it denotes; the conversion between the
    two belongs to the markup library, not to this program. *)

From Stdlib Require Import String Ascii List ZArith Bool DecimalString.
Import ListNotations.
Open Scope string_scope.
Open Scope Z_scope.
Set Warnings "-register-all".

(** ** Exceptions *)

Inductive exn : Type :=
| AssertionError (msg : string)
| TypeError
| ValueError
| KeyError (key : string)
| AttributeError (attr : string)
| OverflowError
| IOError (file : string)
| ArgumentError (msg : string)
| SystemExit
| NotModelled (what : string).

Inductive result (A : Type) : Type :=
| Ok (a : A)
| Raise (e : exn).

Arguments Ok {A} a.
Arguments Raise {A} e.

Definition bind {A B : Type} (m : result A) (k : A -> result B) : result B :=
  match m with
  | Ok a => k a
  | Raise e => Raise e
  end.

Notation "x <- m ;; k" := (bind m (fun x => k))
  (at level 61, m at next level, right associativity).
Notation "' p <- m ;; k" := (bind m (fun x => match x with p => k end))
  (at level 61, p pattern, m at next level, right associativity).

Definition py_assert (b : bool) (msg : string) : result unit :=
  if b then Ok tt else Raise (AssertionError msg).

Definition of_option {A : Type} (e : exn) (o : option A) : result A :=
  match o with
  | Some a => Ok a
  | None => Raise e
  end.

Definition raises {A : Type} (m : result A) : bool :=
  match m with
  | Ok _ => false
  | Raise _ => true
  end.

Fixpoint mapM {A B : Type} (f : A -> result B) (l : list A) : result (list B) :=
  match l with
  | [] => Ok []
  | a :: l' => b <- f a ;; bs <- mapM f l' ;; Ok (b :: bs)
  end.

(** ** Python strings *)

(** [sep.join(l)]. *)
Definition join (sep : string) (l : list string) : string := String.concat sep l.

(** [s.endswith(suffix)]. *)
Fixpoint endswith (s suffix : string) : bool :=
  (s =? suffix)%string ||
  match s with
  | EmptyString => false
  | String _ s' => endswith s' suffix
  end.

(** Iterating over a [str] yields its characters as one-character strings. *)
Fixpoint chars (s : string) : list string :=
  match s with
  | EmptyString => []
  | String c s' => String c EmptyString :: chars s'
  end.

Definition is_space (c : ascii) : bool :=
  let n := N_of_ascii c in
  ((9 <=? n) && (n <=? 13) || (n =? 32))%N.

Fixpoint lstrip (s : string) : string :=
  match s with
  | EmptyString => EmptyString
  | String c s' => if is_space c then lstrip s' else s
  end.

Fixpoint rstrip (s : string) : string :=
  match s with
  | EmptyString => EmptyString
  | String c s' =>
      let r := rstrip s' in
      if is_space c && (r =? EmptyString)%string then EmptyString else String c r
  end.

Definition strip (s : string) : string := rstrip (lstrip s).

(** [str(n)] for an integer. *)
Definition str_of_int (z : Z) : string := NilZero.string_of_int (Z.to_int z).

(** [int(s)] for a string: surrounding white space, an optional sign, then
    one or more decimal digits.  Anything else is a [ValueError]. *)
Definition int_of_str (s : string) : option Z :=
  match strip s with
  | String "+" d => option_map Z.of_uint (NilZero.uint_of_string d)
  | String "-" d => option_map (fun u => - Z.of_uint u) (NilZero.uint_of_string d)
  | d => option_map Z.of_uint (NilZero.uint_of_string d)
  end.

(** ** The builtins this program does not define

    Floating-point numbers and [repr] of strings come from the interpreter.
    They are taken as an interface; nothing below depends on how an
    implementation rounds or prints. *)

Class PyBuiltins : Type := {
  float : Type;
  float_of_int : Z -> option float;        (* float(n), OverflowError *)
  float_of_str : string -> option float;   (* float(s), ValueError *)
  int_of_float : float -> option Z;        (* int(x), fails on inf and nan *)
  str_of_float : float -> string;          (* str(x) *)
  repr_of_float : float -> string;         (* repr(x) *)
  repr_of_str : string -> string;          (* repr(s) *)
  float_nonzero : float -> bool;           (* bool(x) *)
  float_eq : float -> float -> bool;       (* x == y *)
  float_eq_int : float -> Z -> bool;       (* x == n *)
  float_lt : float -> float -> bool;       (* x < y *)
  float_lt_int : float -> Z -> bool;       (* x < n *)
  int_lt_float : Z -> float -> bool        (* n < x *)
}.

(** A stand-in interpreter whose floats are the integers, printed with a
    trailing [.0].  It only serves to run the definitions on concrete
    inputs. *)
Definition integral_floats : PyBuiltins := {|
  float := Z;
  float_of_int := fun n => Some n;
  float_of_str := int_of_str;
  int_of_float := fun x => Some x;
  str_of_float := fun x => str_of_int x ++ ".0";
  repr_of_float := fun x => str_of_int x ++ ".0";
  repr_of_str := fun s => "'" ++ s ++ "'";
  float_nonzero := fun x => negb (x =? 0);
  float_eq := Z.eqb;
  float_eq_int := Z.eqb;
  float_lt := Z.ltb;
  float_lt_int := Z.ltb;
  int_lt_float := Z.ltb
|}.

(** ** Values *)

Section Program.
Context {py : PyBuiltins}.

Inductive scalar : Type :=
| SInt (n : Z)
| SFloat (x : float)
| SStr (s : string)
| SBool (b : bool).

Inductive pyval : Type :=
| PNone
| PScalar (v : scalar)
| PList (l : list scalar).

(** The four parameter types: the builtins [int], [float], [str], [bool]. *)
Inductive ptype : Type := Tint | Tfloat | Tstr | Tbool.

Definition ptype_eqb (a b : ptype) : bool :=
  match a, b with
  | Tint, Tint | Tfloat, Tfloat | Tstr, Tstr | Tbool, Tbool => true
  | _, _ => false
  end.

Definition str_scalar (v : scalar) : string :=
  match v with
  | SInt n => str_of_int n
  | SFloat x => str_of_float x
  | SStr s => s
  | SBool b => if b then "True" else "False"
  end.

Definition repr_scalar (v : scalar) : string :=
  match v with
  | SInt n => str_of_int n
  | SFloat x => repr_of_float x
  | SStr s => repr_of_str s
  | SBool b => if b then "True" else "False"
  end.

(** [str(v)]. *)
Definition py_str (v : pyval) : string :=
  match v with
  | PNone => "None"
  | PScalar v => str_scalar v
  | PList l => "[" ++ join ", " (map repr_scalar l) ++ "]"
  end.

(** Truth value of an object, as [bool(v)] and [if v] compute it. *)
Definition truth (v : pyval) : bool :=
  match v with
  | PNone => false
  | PScalar (SInt n) => negb (n =? 0)
  | PScalar (SFloat x) => float_nonzero x
  | PScalar (SStr s) => negb (s =? EmptyString)%string
  | PScalar (SBool b) => b
  | PList l => match l with [] => false | _ => true end
  end.

(** Calling a parameter type on an object: [int(v)], [float(v)], [str(v)],
    [bool(v)]. *)
Definition call_type (t : ptype) (v : pyval) : result scalar :=
  match t with
  | Tint =>
      match v with
      | PScalar (SInt n) => Ok (SInt n)
      | PScalar (SBool b) => Ok (SInt (Z.b2z b))
      | PScalar (SFloat x) => n <- of_option OverflowError (int_of_float x) ;; Ok (SInt n)
      | PScalar (SStr s) => n <- of_option ValueError (int_of_str s) ;; Ok (SInt n)
      | _ => Raise TypeError
      end
  | Tfloat =>
      match v with
      | PScalar (SInt n) => x <- of_option OverflowError (float_of_int n) ;; Ok (SFloat x)
      | PScalar (SBool b) => x <- of_option OverflowError (float_of_int (Z.b2z b)) ;; Ok (SFloat x)
      | PScalar (SFloat x) => Ok (SFloat x)
      | PScalar (SStr s) => x <- of_option ValueError (float_of_str s) ;; Ok (SFloat x)
      | _ => Raise TypeError
      end
  | Tstr => Ok (SStr (py_str v))
  | Tbool => Ok (SBool (truth v))
  end.

(** [for d in v]: lists yield their elements, strings their characters. *)
Definition py_iter (v : pyval) : result (list scalar) :=
  match v with
  | PList l => Ok l
  | PScalar (SStr s) => Ok (map SStr (chars s))
  | _ => Raise TypeError
  end.

(** [map(t, v)]. *)
Definition map_type (t : ptype) (v : pyval) : result (list scalar) :=
  l <- py_iter v ;; mapM (fun d => call_type t (PScalar d)) l.

(** [a < b] on scalars, with Python 2's ordering across types: numbers
    (booleans count as 0 and 1) compare by value and sort before strings;
    strings compare lexicographically. *)
Definition py_lt (a b : scalar) : bool :=
  match a, b with
  | SStr x, SStr y => (x <? y)%string
  | SStr _, _ => false
  | _, SStr _ => true
  | SFloat x, SFloat y => float_lt x y
  | SFloat x, SInt n => float_lt_int x n
  | SFloat x, SBool c => float_lt_int x (Z.b2z c)
  | SInt n, SFloat y => int_lt_float n y
  | SBool c, SFloat y => int_lt_float (Z.b2z c) y
  | SInt n, SInt m => n <? m
  | SInt n, SBool c => n <? Z.b2z c
  | SBool c, SInt m => Z.b2z c <? m
  | SBool c, SBool d => Z.b2z c <? Z.b2z d
  end.

(** [a == b] on scalars: numbers compare by value across types. *)
Definition py_eq (a b : scalar) : bool :=
  match a, b with
  | SStr x, SStr y => (x =? y)%string
  | SStr _, _ | _, SStr _ => false
  | SFloat x, SFloat y => float_eq x y
  | SFloat x, SInt n | SInt n, SFloat x => float_eq_int x n
  | SFloat x, SBool c | SBool c, SFloat x => float_eq_int x (Z.b2z c)
  | SInt n, SInt m => n =? m
  | SInt n, SBool c | SBool c, SInt n => n =? Z.b2z c
  | SBool c, SBool d => Bool.eqb c d
  end.

(** [a > b]. *)
Definition py_gt (a b : scalar) : bool := py_lt b a.

(** ** Restrictions *)

Record _NumericRange : Type := {
  nr_param_name : string;
  n_type : ptype;
  n_min : option scalar;
  n_max : option scalar
}.

(** [_NumericRange.argparse_type] returns the closure [is_in_range]; the
    closure is the method partially applied to [self].  The second
    component of the result lists the warnings issued, oldest first. *)
Definition is_in_range (self : _NumericRange) (value : pyval)
  : result (scalar * list string) :=
  value <- call_type (n_type self) value ;;
  let below :=
    match n_min self with
    | Some lo =>
        if py_lt value lo
        then ["Parameter " ++ nr_param_name self ++ " value " ++ str_scalar value
              ++ " is below minimum " ++ str_scalar lo]
        else []
    | None => []
    end in
  let above :=
    match n_max self with
    | Some hi =>
        if py_gt value hi
        then ["Parameter " ++ nr_param_name self ++ " value " ++ str_scalar value
              ++ " is above maximum " ++ str_scalar hi]
        else []
    | None => []
    end in
  Ok (value, (below ++ above)%list).

Definition ctd_range_string (self : _NumericRange) : string :=
  let lo := match n_min self with Some v => str_scalar v | None => EmptyString end in
  let hi := match n_max self with Some v => str_scalar v | None => EmptyString end in
  lo ++ ":" ++ hi.

Record _FileFormat : Type := {
  ff_param_name : string;
  formats : list string
}.

(** The body of [legal_formats]: a [for ... else] over the formats still to
    be tried.  The [else] branch runs when the loop ends without having
    returned. *)
Fixpoint legal_formats_loop (self : _FileFormat) (filename : string)
    (todo : list string) : string * list string :=
  match todo with
  | format :: todo' =>
      if endswith filename ("." ++ format)
      then (filename, [])
      else legal_formats_loop self filename todo'
  | [] =>
      (filename,
       ["Parameter " ++ ff_param_name self
        ++ "'s file extension not in allowed list. Allowed: "
        ++ join "/" (formats self) ++ ". Actual: " ++ filename])
  end.

Definition legal_formats (self : _FileFormat) (filename : string)
  : string * list string :=
  legal_formats_loop self filename (formats self).

Definition ctd_format_string (self : _FileFormat) : string :=
  join "," (map (fun format => "*." ++ format) (formats self)).

Inductive restriction : Type :=
| NumericRange (r : _NumericRange)
| FileFormat (f : _FileFormat).

(** ** Dictionaries and element trees *)

(** A [dict] or [OrderedDict] with string keys, in insertion order. *)
Definition dict (V : Type) : Type := list (string * V).

Fixpoint dict_get {V : Type} (d : dict V) (k : string) : option V :=
  match d with
  | [] => None
  | (k', v) :: d' => if (k' =? k)%string then Some v else dict_get d' k
  end.

Definition dict_in {V : Type} (k : string) (d : dict V) : bool :=
  match dict_get d k with Some _ => true | None => false end.

(** [d[k] = v]: an existing key keeps its position, a new key goes last. *)
Fixpoint dict_set {V : Type} (d : dict V) (k : string) (v : V) : dict V :=
  match d with
  | [] => [(k, v)]
  | (k', v') :: d' =>
      if (k' =? k)%string then (k, v) :: d' else (k', v') :: dict_set d' k v
  end.

(** [d[k]] as an expression. *)
Definition dict_item {V : Type} (d : dict V) (k : string) : result V :=
  of_option (KeyError k) (dict_get d k).

Inductive Element : Type :=
| mkElement (tag : string) (attrib : dict string) (text : option string)
    (children : list Element).

Definition tag (e : Element) : string :=
  match e with mkElement t _ _ _ => t end.
Definition attrib (e : Element) : dict string :=
  match e with mkElement _ a _ _ => a end.
Definition text (e : Element) : option string :=
  match e with mkElement _ _ x _ => x end.
Definition children (e : Element) : list Element :=
  match e with mkElement _ _ _ c => c end.

(** [SubElement(parent, ...)] appends the new element to [parent]. *)
Definition append_child (parent child : Element) : Element :=
  match parent with
  | mkElement t a x c => mkElement t a x (c ++ [child])%list
  end.

(** [e.find(t)]: the first child with tag [t], or [None]. *)
Definition find (e : Element) (t : string) : option Element :=
  List.find (fun c => (tag c =? t)%string) (children e).

(** ** ArgumentItem *)

(** What a child sees of its parent group: the [name] and [parent]
    attributes, which are set once in [ArgumentGroup.__init__] and never
    assigned again. *)
Inductive group_ref : Type :=
| GroupRef (name : string) (parent : option group_ref).

Fixpoint get_group_lineage (self : group_ref) : list string :=
  match self with
  | GroupRef name parent =>
      match parent with
      | None => []
      | Some p => (get_group_lineage p ++ [name])%list
      end
  end.

(** The keyword arguments of [ArgumentItem.__init__]; [None] is an absent
    key. *)
Record kwargs : Type := {
  kw_type : option ptype;
  kw_tags : option (list string);
  kw_required : option bool;
  kw_description : option string;
  kw_is_list : option bool;
  kw_default : option pyval;
  kw_choices : option pyval;
  kw_num_range : option (list (option scalar));
  kw_file_formats : option (list string)
}.

Definition kwargs_get {A : Type} (o : option A) (d : A) : A :=
  match o with Some a => a | None => d end.

Record ArgumentItem : Type := {
  name : string;
  parent : group_ref;
  type : ptype;
  tags : list string;
  required : bool;
  description : string;
  is_list : bool;
  default : pyval;
  choices : option (list scalar);
  restrictions : option restriction;
  call_value : option pyval       (* [None] until the attribute is set *)
}.

(** [_NumericRange(name, n_type, *num_range)]: at most two bounds fit the
    signature. *)
Definition new_NumericRange (param_name : string) (t : ptype)
    (bounds : list (option scalar)) : result _NumericRange :=
  match bounds with
  | [] => Ok {| nr_param_name := param_name; n_type := t; n_min := None; n_max := None |}
  | [lo] => Ok {| nr_param_name := param_name; n_type := t; n_min := lo; n_max := None |}
  | [lo; hi] => Ok {| nr_param_name := param_name; n_type := t; n_min := lo; n_max := hi |}
  | _ => Raise TypeError
  end.

(** [ArgumentItem.__init__]. *)
Definition ArgumentItem_init (name : string) (parent : group_ref) (kw : kwargs)
  : result ArgumentItem :=
  let type := kwargs_get (kw_type kw) Tstr in
  let tags := kwargs_get (kw_tags kw) [] in
  let required := kwargs_get (kw_required kw) false in
  let description := kwargs_get (kw_description kw) EmptyString in
  let is_list := kwargs_get (kw_is_list kw) false in
  let default := kwargs_get (kw_default kw) PNone in
  default <-
    match default with
    | PNone => Ok PNone
    | _ =>
        if is_list
        then l <- map_type type default ;; Ok (PList l)
        else v <- call_type type default ;; Ok (PScalar v)
    end ;;
  let choices := kwargs_get (kw_choices kw) PNone in
  choices <-
    match choices with
    | PNone => Ok None
    | _ => l <- map_type type choices ;; Ok (Some l)
    end ;;
  '(required, default) <-
    (if ptype_eqb type Tbool
     then _ <- py_assert (Bool.eqb is_list false) "Boolean flag can't be a list type" ;;
          Ok (false, PScalar (SBool false))
     else Ok (required, default)) ;;
  _ <-
    (if required : bool
     then py_assert (match default with PNone => true | _ => false end)
            ("Required field `" ++ name ++ "` has default value")
     else py_assert (match default with PNone => false | _ => true end)
            ("Optional field `" ++ name ++ "` has no default value")) ;;
  restrictions <-
    match kw_num_range kw, kw_file_formats kw with
    | Some bounds, _ => r <- new_NumericRange name type bounds ;; Ok (Some (NumericRange r))
    | None, Some fs => Ok (Some (FileFormat {| ff_param_name := name; formats := fs |}))
    | None, None => Ok None
    end ;;
  Ok {| name := name; parent := parent; type := type; tags := tags;
        required := required; description := description; is_list := is_list;
        default := default; choices := choices; restrictions := restrictions;
        call_value := None |}.

(** What [argparse] is given for one argument: the keyword dictionary built
    by [argparse_call].  A [type] callable takes the raw value and returns
    the converted value with the warnings it issued. *)
Definition type_fn : Type := pyval -> result (scalar * list string).

Record argparse_kws : Type := {
  kws_nargs : option string;
  kws_help : string;
  kws_required : bool;
  kws_type : option type_fn;
  kws_choices : option (list scalar);
  kws_default : option pyval;
  kws_metavar : option string;
  kws_action : option string
}.

(** A parameter type used as a callable. *)
Definition plain_type (t : ptype) : type_fn :=
  fun v => x <- call_type t v ;; Ok (x, []).

(** [restrictions.argparse_type()]. *)
Definition argparse_type (r : restriction) : type_fn :=
  match r with
  | NumericRange nr => is_in_range nr
  | FileFormat ff =>
      fun v =>
        match v with
        | PScalar (SStr filename) =>
            let '(f, w) := legal_formats ff filename in Ok (SStr f, w)
        | _ => Raise (AttributeError "endswith")
        end
  end.

Definition upper_ascii (c : ascii) : ascii :=
  let n := N_of_ascii c in
  if ((97 <=? n) && (n <=? 122))%N then ascii_of_N (n - 32) else c.

(** [s.upper()]. *)
Fixpoint upper (s : string) : string :=
  match s with
  | EmptyString => EmptyString
  | String c s' => String (upper_ascii c) (upper s')
  end.

Definition argparse_call (self : ArgumentItem) : argparse_kws :=
  let is_flag := ptype_eqb (type self) Tbool in
  {| kws_nargs := if is_list self then Some "+" else None;
     kws_help := description self;
     kws_required := required self;
     kws_type :=
       if is_flag then None
       else Some (match restrictions self with
                  | None => plain_type (type self)
                  | Some r => argparse_type r
                  end);
     kws_choices := choices self;
     kws_default := match default self with PNone => None | d => Some d end;
     kws_metavar := if is_flag then None else Some (upper (name self));
     kws_action := if is_flag then Some "store_true" else None |}.

Definition type_string (t : ptype) : string :=
  match t with
  | Tint => "int"
  | Tfloat => "float"
  | Tstr => "string"
  | Tbool => "boolean"
  end.

(** [','.join(l)] on a list of objects: only strings can be joined. *)
Definition join_scalars (sep : string) (l : list scalar) : result string :=
  strs <- mapM (fun v => match v with SStr s => Ok s | _ => Raise TypeError end) l ;;
  Ok (join sep strs).

(** [ArgumentItem.xml_node]. *)
Definition item_xml_node (self : ArgumentItem) : result Element :=
  let value := match call_value self with Some v => v | None => default self end in
  let attribs := dict_set [] "name" (name self) in
  let attribs :=
    if is_list self then attribs
    else
      let attribs :=
        dict_set attribs "value" (match value with PNone => EmptyString | _ => py_str value end) in
      if ptype_eqb (type self) Tbool
      then dict_set attribs "value" (if truth value then "true" else "false")
      else attribs in
  let attribs := dict_set attribs "type" (type_string (type self)) in
  let attribs := dict_set attribs "description" (description self) in
  let attribs := dict_set attribs "tags" (join "," (tags self)) in
  attribs <-
    match choices self, restrictions self with
    | Some cs, _ => r <- join_scalars "," cs ;; Ok (dict_set attribs "restrictions" r)
    | None, Some (NumericRange nr) =>
        Ok (dict_set attribs "restrictions" (ctd_range_string nr))
    | None, Some (FileFormat ff) =>
        Ok (dict_set attribs "supported_formats" (ctd_format_string ff))
    | None, None => Ok attribs
    end ;;
  if is_list self
  then
    items <-
      match value with
      | PNone => Ok []
      | _ => py_iter value
      end ;;
    Ok (mkElement "ITEMLIST" attribs None
          (map (fun d => mkElement "LISTITEM" [("value", str_scalar d)] None []) items))
  else Ok (mkElement "ITEM" attribs None []).

Definition param_commandline_name (self : ArgumentItem) : string :=
  let parent_groups := get_group_lineage (parent self) in
  join ":" (parent_groups ++ [name self])%list.

Definition set_call_value (self : ArgumentItem) (v : pyval) : ArgumentItem :=
  {| name := name self; parent := parent self; type := type self; tags := tags self;
     required := required self; description := description self;
     is_list := is_list self; default := default self; choices := choices self;
     restrictions := restrictions self; call_value := Some v |}.

(** [ArgumentItem.store_call_value]. *)
Definition item_store_call_value (self : ArgumentItem) (call_dict : dict pyval)
  : ArgumentItem :=
  let cl_name := param_commandline_name self in
  match dict_get call_dict cl_name with
  | Some v => set_call_value self v
  | None => self
  end.

(** ** ArgumentGroup *)

(** A node of the parameter tree.  A group is its [name] and [parent] (the
    part its children refer to), its [description] and its ordered
    [arguments]. *)
Inductive node : Type :=
| Item (i : ArgumentItem)
| Group (self : group_ref) (description : string) (arguments : dict node).

(** The calls that declare a tree: [group.add(name, **kw)] and
    [sub = group.add_group(name, description)] followed by the calls made
    on [sub]. *)
Inductive decl : Type :=
| Add (name : string) (kw : kwargs)
| AddGroup (name : string) (description : string) (body : list decl).

Definition defined_twice : string :=
  "Name `%s` in subsection `%s` defined twice! Overriding first".

(** Runs a sequence of calls, one after the other, on the same group;
    [step] runs one call. *)
Definition declare_all (step : decl -> dict node -> result (dict node * list string))
  : list decl -> dict node -> result (dict node * list string) :=
  fix go (calls : list decl) (arguments : dict node) :=
    match calls with
    | [] => Ok (arguments, [])
    | c :: calls' =>
        '(arguments, w) <- step c arguments ;;
        '(arguments, w') <- go calls' arguments ;;
        Ok (arguments, (w ++ w')%list)
    end.

(** Runs one call on the group [self], whose [arguments] so far are
    [arguments]; returns the new [arguments] and the warnings.  [add] and
    [add_group] warn when the name is taken, construct the child with
    [self] as its parent and store it under its name. *)
Fixpoint declare1 (self : group_ref) (call : decl) (arguments : dict node)
  : result (dict node * list string) :=
  let warn name := if dict_in name arguments then [defined_twice] else [] in
  match call with
  | Add name kw =>
      i <- ArgumentItem_init name self kw ;;
      Ok (dict_set arguments name (Item i), warn name)
  | AddGroup name description body =>
      let sub := GroupRef name (Some self) in
      '(sub_arguments, w) <- declare_all (declare1 sub) body [] ;;
      Ok (dict_set arguments name (Group sub description sub_arguments),
          (warn name ++ w)%list)
  end.

Definition declare (self : group_ref) (calls : list decl) (arguments : dict node)
  : result (dict node * list string) :=
  declare_all (declare1 self) calls arguments.

(** [ArgumentGroup.xml_node] and, on a leaf, [ArgumentItem.xml_node]. *)
Fixpoint xml_node (n : node) : result Element :=
  match n with
  | Item i => item_xml_node i
  | Group (GroupRef name _) description arguments =>
      let top := mkElement "NODE" [("name", name); ("description", description)] None [] in
      (fix each (args : dict node) (top : Element) : result Element :=
         match args with
         | [] => Ok top
         | (_, arg) :: args' => e <- xml_node arg ;; each args' (append_child top e)
         end) arguments top
  end.

(** [store_call_value], on a group and on a leaf. *)
Fixpoint store_call_value (n : node) (call_dict : dict pyval) : node :=
  match n with
  | Item i => Item (item_store_call_value i call_dict)
  | Group self description arguments =>
      Group self description
        ((fix each (args : dict node) : dict node :=
            match args with
            | [] => []
            | (name, arg) :: args' => (name, store_call_value arg call_dict) :: each args'
            end) arguments)
  end.

(** ** Loading a parameter document *)

(** What [_register_parameter] records for a parameter: strings taken from
    [value] attributes, or the object [True] for a set flag. *)
Inductive ini_value : Type :=
| IStr (s : string)
| ITrue.

Definition ini_value_eqb (a b : ini_value) : bool :=
  match a, b with
  | IStr x, IStr y => (x =? y)%string
  | ITrue, ITrue => true
  | _, _ => false
  end.

(** [a == b] on lists of recorded values. *)
Fixpoint ini_values_eqb (a b : list ini_value) : bool :=
  match a, b with
  | [], [] => true
  | x :: a', y :: b' => ini_value_eqb x y && ini_values_eqb a' b'
  | _, _ => false
  end.

(** [CTDopts._register_parameter]; [ini_params] is threaded through. *)
Fixpoint _register_parameter (ini_params : dict (list ini_value))
    (element : Element) (base_name : string) (is_root : bool)
  : result (dict (list ini_value)) :=
  let colon := if is_root then EmptyString else ":" in
  name <- dict_item (attrib element) "name" ;;
  let full_name := base_name ++ colon ++ name in
  if (tag element =? "ITEM")%string then
    type <- dict_item (attrib element) "type" ;;
    if (type =? "boolean")%string then
      value <- dict_item (attrib element) "value" ;;
      if (value =? "true")%string
      then Ok (dict_set ini_params full_name [ITrue])
      else Ok ini_params
    else
      value <- dict_item (attrib element) "value" ;;
      Ok (dict_set ini_params full_name [IStr value])
  else if (tag element =? "ITEMLIST")%string then
    values <- mapM (fun listitem => v <- dict_item (attrib listitem) "value" ;; Ok (IStr v))
                (children element) ;;
    Ok (dict_set ini_params full_name values)
  else if (tag element =? "NODE")%string then
    match element with
    | mkElement _ _ _ kids =>
        (fix each (kids : list Element) (ini_params : dict (list ini_value)) :=
           match kids with
           | [] => Ok ini_params
           | child :: kids' =>
               ini_params <- _register_parameter ini_params child full_name false ;;
               each kids' ini_params
           end) kids ini_params
    end
  else Ok ini_params.

(** The first loop of [read_ini], over the children of the parameter
    node. *)
Fixpoint register_all (ini_params : dict (list ini_value)) (kids : list Element)
  : result (dict (list ini_value)) :=
  match kids with
  | [] => Ok ini_params
  | child :: kids' =>
      ini_params <- _register_parameter ini_params child "-" true ;;
      register_all ini_params kids'
  end.

(** The second loop of [read_ini]: the command line equivalent to the
    table.  A token is a recorded value or a flag name. *)
Fixpoint command_line_loop (command_line : list ini_value)
    (items : dict (list ini_value)) : list ini_value :=
  match items with
  | [] => command_line
  | (arg_name, values) :: items' =>
      let command_line :=
        if negb (length values =? 0)%nat then
          let command_line := (command_line ++ [IStr arg_name])%list in
          if negb (ini_values_eqb values [ITrue])
          then (command_line ++ values)%list
          else command_line
        else command_line in
      command_line_loop command_line items'
  end.

(** [CTDopts.read_ini] on the parsed document [root]: the table it leaves
    in [self.ini_params] and the command line it returns. *)
Definition read_ini (root : Element)
  : result (dict (list ini_value) * list ini_value) :=
  param_root <-
    (if (tag root =? "PARAMETERS")%string then Ok root
     else of_option (AttributeError "find") (find root "PARAMETERS")) ;;
  top <- of_option (AttributeError "find") (find param_root "NODE") ;;
  parameters <- of_option TypeError (find top "NODE") ;;
  ini_params <- register_all [] (children parameters) ;;
  Ok (ini_params, command_line_loop [] ini_params).

(** ** The CTDopts object *)

(** Attributes that are created on first assignment are [None] until
    then.  [log_node] is an element shared with the tree held in
    [tool_xml_node]: the tree keeps the place ([log_path]) and the log
    element is put back there when the tree is written.  A tree generated
    without logging has no such place, while [log_node] may survive from
    an earlier one. *)
Record CTDopts : Type := {
  tool_name : string;
  version : string;
  optional_attribs : dict string;
  main_node : node;
  tool_xml_node : option Element;
  log_node : option Element;
  log_path : option (list nat);
  out_ctd_file : option string;
  ini_params : option (dict (list ini_value));
  stdout_stream : option string;    (* contents of the StringIO *)
  stderr_stream : option string;
  already_finalized : bool          (* whether the attribute exists *)
}.

(** What the process touches outside the object: the files it wrote (a
    document is kept as its element tree), the lines it printed, whether
    the standard streams are duplicated into the object's buffers, and
    whether [finalize_log] is registered to run at exit. *)
Record world : Type := {
  files : dict Element;
  printed : list string;
  tee_stdout : bool;
  tee_stderr : bool;
  atexit_finalize : bool
}.

Definition dquote : string := String (ascii_of_N 34) EmptyString.
Definition newline : string := String (ascii_of_N 10) EmptyString.

Definition root_ref : group_ref := GroupRef "1" None.

(** [CTDopts.__init__]. *)
Definition CTDopts_init (name version : string) (kw : dict string) : CTDopts :=
  {| tool_name := name; version := version; optional_attribs := kw;
     main_node :=
       Group root_ref ("Instance " ++ dquote ++ "1" ++ dquote ++ " section for " ++ name) [];
     tool_xml_node := None; log_node := None; log_path := None;
     out_ctd_file := None; ini_params := None;
     stdout_stream := None; stderr_stream := None; already_finalized := false |}.

Definition get_root (self : CTDopts) : node := main_node self.

Definition with_main_node (self : CTDopts) (n : node) : CTDopts :=
  {| tool_name := tool_name self; version := version self;
     optional_attribs := optional_attribs self; main_node := n;
     tool_xml_node := tool_xml_node self; log_node := log_node self;
     log_path := log_path self; out_ctd_file := out_ctd_file self;
     ini_params := ini_params self; stdout_stream := stdout_stream self;
     stderr_stream := stderr_stream self; already_finalized := already_finalized self |}.

Definition with_tree (self : CTDopts) (tool : Element) (log : option Element)
    (path : option (list nat)) : CTDopts :=
  {| tool_name := tool_name self; version := version self;
     optional_attribs := optional_attribs self; main_node := main_node self;
     tool_xml_node := Some tool; log_node := log; log_path := path;
     out_ctd_file := out_ctd_file self; ini_params := ini_params self;
     stdout_stream := stdout_stream self; stderr_stream := stderr_stream self;
     already_finalized := already_finalized self |}.

Definition with_log_node (self : CTDopts) (log : Element) : CTDopts :=
  {| tool_name := tool_name self; version := version self;
     optional_attribs := optional_attribs self; main_node := main_node self;
     tool_xml_node := tool_xml_node self; log_node := Some log;
     log_path := log_path self; out_ctd_file := out_ctd_file self;
     ini_params := ini_params self; stdout_stream := stdout_stream self;
     stderr_stream := stderr_stream self; already_finalized := already_finalized self |}.

Definition with_out_ctd_file (self : CTDopts) (f : string) : CTDopts :=
  {| tool_name := tool_name self; version := version self;
     optional_attribs := optional_attribs self; main_node := main_node self;
     tool_xml_node := tool_xml_node self; log_node := log_node self;
     log_path := log_path self; out_ctd_file := Some f;
     ini_params := ini_params self; stdout_stream := stdout_stream self;
     stderr_stream := stderr_stream self; already_finalized := already_finalized self |}.

Definition with_ini_params (self : CTDopts) (t : dict (list ini_value)) : CTDopts :=
  {| tool_name := tool_name self; version := version self;
     optional_attribs := optional_attribs self; main_node := main_node self;
     tool_xml_node := tool_xml_node self; log_node := log_node self;
     log_path := log_path self; out_ctd_file := out_ctd_file self;
     ini_params := Some t; stdout_stream := stdout_stream self;
     stderr_stream := stderr_stream self; already_finalized := already_finalized self |}.

Definition with_streams (self : CTDopts) (out err : option string) : CTDopts :=
  {| tool_name := tool_name self; version := version self;
     optional_attribs := optional_attribs self; main_node := main_node self;
     tool_xml_node := tool_xml_node self; log_node := log_node self;
     log_path := log_path self; out_ctd_file := out_ctd_file self;
     ini_params := ini_params self; stdout_stream := out;
     stderr_stream := err; already_finalized := already_finalized self |}.

Definition set_already_finalized (self : CTDopts) : CTDopts :=
  {| tool_name := tool_name self; version := version self;
     optional_attribs := optional_attribs self; main_node := main_node self;
     tool_xml_node := tool_xml_node self; log_node := log_node self;
     log_path := log_path self; out_ctd_file := out_ctd_file self;
     ini_params := ini_params self; stdout_stream := stdout_stream self;
     stderr_stream := stderr_stream self; already_finalized := true |}.

Definition set_attrib (e : Element) (k v : string) : Element :=
  match e with
  | mkElement t a x c => mkElement t (dict_set a k v) x c
  end.

Definition set_text (e : Element) (v : string) : Element :=
  match e with
  | mkElement t a _ c => mkElement t a (Some v) c
  end.

(** Replaces the element found by following the child indices [path]. *)
Fixpoint plug (e : Element) (path : list nat) (sub : Element) : Element :=
  match path with
  | [] => sub
  | i :: path' =>
      match e with
      | mkElement t a x c =>
          mkElement t a x
            ((fix at_index (c : list Element) (i : nat) : list Element :=
                match c, i with
                | [], _ => []
                | k :: c', O => plug k path' sub :: c'
                | k :: c', S i' => k :: at_index c' i'
                end) c i)
      end
  end.

(** The tree as a reader of [tool_xml_node] sees it. *)
Definition current_tree (self : CTDopts) : option Element :=
  match tool_xml_node self with
  | None => None
  | Some tool =>
      match log_path self, log_node self with
      | Some path, Some log => Some (plug tool path log)
      | _, _ => Some tool
      end
  end.

(** The two loops of [generate_ctd_tree] over optional attribute names. *)
Fixpoint copy_attribs (names : list string) (optional : dict string)
    (tool_attribs : dict string) : dict string :=
  match names with
  | [] => tool_attribs
  | oo :: names' =>
      copy_attribs names' optional
        (match dict_get optional oo with
         | Some v => dict_set tool_attribs oo v
         | None => tool_attribs
         end)
  end.

Fixpoint add_text_elements (names : list string) (optional : dict string)
    (tool : Element) : Element :=
  match names with
  | [] => tool
  | oo :: names' =>
      add_text_elements names' optional
        (match dict_get optional oo with
         | Some v => append_child tool (mkElement oo [] (Some v) [])
         | None => tool
         end)
  end.

(** [CTDopts.generate_ctd_tree]; [now] is the clock reading. *)
Definition generate_ctd_tree (self : CTDopts) (with_logging : bool) (now : string)
  : result CTDopts :=
  let tool_attribs := dict_set [] "version" (version self) in
  let tool_attribs := dict_set tool_attribs "name" (tool_name self) in
  let tool_attribs :=
    dict_set tool_attribs "xmlns:xsi" "http://www.w3.org/2001/XMLSchema-instance" in
  let tool_attribs :=
    dict_set tool_attribs "xsi:schemaLocation"
      "https://github.com/genericworkflownodes/CTDopts/raw/master/schemas/CTD_0_3.xsd" in
  let tool_attribs :=
    copy_attribs ["docurl"; "category"] (optional_attribs self) tool_attribs in
  let tool := mkElement "tool" tool_attribs None [] in
  let tool :=
    add_text_elements ["manual"; "description"; "executableName"; "executablePath"]
      (optional_attribs self) tool in
  let '(tool, log, path) :=
    if with_logging : bool
    then
      let log := mkElement "log" [("executionTimeStart", now)] None [] in
      (append_child tool (mkElement "logs" [] None [log]),
       Some log, Some [length (children tool); O])
    else (tool, log_node self, None) in
  let params :=
    mkElement "PARAMETERS"
      [("version", "1.6.2");
       ("xmlns:xsi", "http://www.w3.org/2001/XMLSchema-instance");
       ("xsi:noNamespaceSchemaLocation",
        "https://github.com/genericworkflownodes/CTDopts/raw/master/schemas/Param_1_6_2.xsd")]
      None [] in
  let top_node :=
    mkElement "NODE"
      [("name", tool_name self);
       ("description", kwargs_get (dict_get (optional_attribs self) "description") EmptyString)]
      None [] in
  let top_node :=
    append_child top_node
      (mkElement "ITEM"
         [("name", "version"); ("value", version self); ("type", "string");
          ("description", "Version of the tool that generated this parameters file.");
          ("tags", "advanced")] None []) in
  args_top_node <- xml_node (main_node self) ;;
  let top_node := append_child top_node args_top_node in
  let tool := append_child tool (append_child params top_node) in
  Ok (with_tree self tool log path).

(** [CTDopts.write_ctd]. *)
Definition write_ctd (self : CTDopts) (w : world) (now : string)
  : result (CTDopts * world) :=
  self <-
    (match tool_xml_node self with
     | None => generate_ctd_tree self false now
     | Some _ => Ok self
     end) ;;
  f <- of_option (AttributeError "out_ctd_file") (out_ctd_file self) ;;
  xml_content <- of_option (AttributeError "tool_xml_node") (current_tree self) ;;
  Ok (self,
      {| files := dict_set (files w) f xml_content; printed := printed w;
         tee_stdout := tee_stdout w; tee_stderr := tee_stderr w;
         atexit_finalize := atexit_finalize w |}).

(** The [print] statement: the line goes to the terminal and, while the
    stream is duplicated, into the object's buffer. *)
Definition py_print (self : CTDopts) (w : world) (line : string) : CTDopts * world :=
  let self :=
    if tee_stdout w
    then with_streams self
           (match stdout_stream self with
            | Some buf => Some (buf ++ line ++ newline)
            | None => None
            end)
           (stderr_stream self)
    else self in
  (self,
   {| files := files w; printed := (printed w ++ [line])%list;
      tee_stdout := tee_stdout w; tee_stderr := tee_stderr w;
      atexit_finalize := atexit_finalize w |}).

(** A [stdout] or [stderr] argument of [finalize_log]: a string or a
    [StringIO] with the given contents. *)
Inductive stream_arg : Type :=
| AsString (s : string)
| AsStringIO (contents : string).

Definition stream_data (a : stream_arg) : string :=
  match a with
  | AsString s => s
  | AsStringIO contents => contents
  end.

(** [CTDopts.finalize_log]; an absent argument is [None] / [PNone]. *)
Definition finalize_log (self : CTDopts) (w : world) (now : string)
    (stdout stderr : option stream_arg) (exit_status : pyval)
  : result (CTDopts * world) :=
  if already_finalized self then Ok (self, w)
  else
    log <- of_option (AttributeError "log_node") (log_node self) ;;
    let log := set_attrib log "executionTimeStop" now in
    let log :=
      match exit_status with
      | PNone => log
      | _ => set_attrib log "executionStatus" (py_str exit_status)
      end in
    let stdout :=
      match stdout with
      | Some a => a
      | None =>
          match stdout_stream self with
          | Some buf => AsStringIO buf
          | None => AsString EmptyString
          end
      end in
    let stderr :=
      match stderr with
      | Some a => a
      | None =>
          match stderr_stream self with
          | Some buf => AsStringIO buf
          | None => AsString EmptyString
          end
      end in
    let stdout_data := stream_data stdout in
    let stderr_data := stream_data stderr in
    let log := append_child log (mkElement "executionErrors" [] (Some stderr_data) []) in
    let log := append_child log (mkElement "executionMessage" [] (Some stdout_data) []) in
    let self := with_log_node self log in
    '(self, w) <- write_ctd self w now ;;
    f <- of_option (AttributeError "out_ctd_file") (out_ctd_file self) ;;
    let '(self, w) :=
      py_print self w
        ("Parameter and log container " ++ f
         ++ " written to current directory successfully.") in
    Ok (set_already_finalized self, w).

(** ** The argument parser

    The parser is the standard library's [argparse], which this program
    configures and drives but does not define.  It is modelled after its
    documented behaviour, for the features the program uses: options
    registered under one option string; the destination derived from the
    option string by stripping the leading dashes and turning every
    remaining dash into an underscore; [nargs] absent, ['+'] or ['*'];
    [store_true] flags; [type] callables; [choices]; defaults; [required];
    the automatic [-h] and [--help]; tokens that read as negative numbers.
    Option strings given in abbreviated form or with an attached value are
    outside the model ([NotModelled]). *)

Inductive action_kind : Type :=
| Store (nargs : option string)
| StoreTrue
| Help.

Record action : Type := {
  option_string : string;
  dest : string;
  kind : action_kind;
  a_type : option type_fn;
  a_choices : option (list scalar);
  a_default : pyval;
  a_required : bool
}.

Record ArgumentParser : Type := {
  actions : list action;
  titles : list (string * string)     (* argument groups, for the help text *)
}.

Definition help_action (flag : string) : action :=
  {| option_string := flag; dest := "help"; kind := Help; a_type := None;
     a_choices := None; a_default := PNone; a_required := false |}.

(** [argparse.ArgumentParser()]. *)
Definition new_parser : ArgumentParser :=
  {| actions := [help_action "-h"; help_action "--help"]; titles := [] |}.

Definition add_argument_group (p : ArgumentParser) (title description : string)
  : ArgumentParser :=
  {| actions := actions p; titles := (titles p ++ [(title, description)])%list |}.

Fixpoint lstrip_dashes (s : string) : string :=
  match s with
  | String "-" s' => lstrip_dashes s'
  | _ => s
  end.

Fixpoint dashes_to_underscores (s : string) : string :=
  match s with
  | EmptyString => EmptyString
  | String c s' =>
      String (if (c =? "-")%char then "_"%char else c) (dashes_to_underscores s')
  end.

(** The destination an option string is stored under. *)
Definition dest_of (flag : string) : string :=
  dashes_to_underscores (lstrip_dashes flag).

Definition is_some {A : Type} (o : option A) : bool :=
  match o with Some _ => true | None => false end.

(** [container.add_argument(flag, **kws)]. *)
Definition add_argument (p : ArgumentParser) (flag : string) (kws : argparse_kws)
  : result ArgumentParser :=
  _ <- (if (lstrip_dashes flag =? EmptyString)%string then Raise ValueError else Ok tt) ;;
  k <-
    match kws_action kws with
    | None => Ok (Store (kws_nargs kws))
    | Some a =>
        if (a =? "store_true")%string
        then
          if is_some (kws_nargs kws) || is_some (kws_type kws)
             || is_some (kws_choices kws) || is_some (kws_metavar kws)
          then Raise TypeError
          else Ok StoreTrue
        else Raise ValueError
    end ;;
  if existsb (fun a => (option_string a =? flag)%string) (actions p)
  then Raise (ArgumentError ("conflicting option string: " ++ flag))
  else
    let a :=
      {| option_string := flag; dest := dest_of flag; kind := k;
         a_type := kws_type kws; a_choices := kws_choices kws;
         a_default :=
           match kws_default kws with
           | Some d => d
           | None => match k with StoreTrue => PScalar (SBool false) | _ => PNone end
           end;
         a_required := kws_required kws |} in
    Ok {| actions := (actions p ++ [a])%list; titles := titles p |}.

Definition is_digit (c : ascii) : bool :=
  let n := N_of_ascii c in ((48 <=? n) && (n <=? 57))%N.

Fixpoint all_digits (s : string) : bool :=
  match s with
  | EmptyString => true
  | String c s' => is_digit c && all_digits s'
  end.

(** Digits, or optional digits followed by a dot and digits. *)
Fixpoint number_tail (s : string) : bool :=
  match s with
  | EmptyString => false
  | String c s' =>
      if is_digit c then match s' with EmptyString => true | _ => number_tail s' end
      else if (c =? ".")%char
      then match s' with EmptyString => false | _ => all_digits s' end
      else false
  end.

(** A token that reads as a negative number: [-1], [-1.5], [-.5]. *)
Definition looks_negative (s : string) : bool :=
  match s with
  | String "-" s' => number_tail s'
  | _ => false
  end.

Fixpoint contains_char (c : ascii) (s : string) : bool :=
  match s with
  | EmptyString => false
  | String c' s' => (c' =? c)%char || contains_char c s'
  end.

Definition first_two (s : string) : string :=
  match s with
  | String a (String b _) => String a (String b EmptyString)
  | _ => s
  end.

Fixpoint before_equals (s : string) : string :=
  match s with
  | EmptyString => EmptyString
  | String c s' => if (c =? "=")%char then EmptyString else String c (before_equals s')
  end.

Inductive token_class : Type :=
| Argument                 (* a value *)
| Option_ (a : action)     (* a registered option string *)
| Unknown                  (* looks like an option, none registered *)
| Outside.                 (* abbreviated or attached-value form *)

Definition find_action (p : ArgumentParser) (flag : string) : option action :=
  List.find (fun a => (option_string a =? flag)%string) (actions p).

Definition classify (p : ArgumentParser) (tok : string) : token_class :=
  match tok with
  | String "-" rest =>
      match find_action p tok with
      | Some a => Option_ a
      | None =>
          match rest with
          | EmptyString => Argument
          | String c _ =>
              if (c =? "-")%char
              then
                if existsb (fun a => prefix (before_equals tok) (option_string a)) (actions p)
                then Outside
                else if contains_char " " tok then Argument else Unknown
              else
                match find_action p (first_two tok) with
                | Some a => match kind a with Help => Option_ a | _ => Outside end
                | None =>
                    if existsb (fun a => prefix tok (option_string a)) (actions p)
                    then Outside
                    else if looks_negative tok
                            && negb (existsb (fun a => looks_negative (option_string a))
                                       (actions p))
                    then Argument
                    else if contains_char " " tok then Argument
                    else Unknown
                end
          end
      end
  | _ => Argument
  end.

(** The parser reading tokens one at a time: which option, if any, is
    still collecting values. *)
Inductive pending : Type :=
| Idle
| One (a : action)
| Many (a : action) (values : list scalar).

Record parse_state : Type := {
  namespace : dict pyval;
  seen : list string;        (* option strings of the actions taken *)
  pend : pending;
  extras : list string;      (* tokens no action accounts for *)
  issued : list string       (* warnings from [type] callables *)
}.

Definition error {A : Type} : result A := Raise SystemExit.

(** Converts one value with the action's [type]; a [TypeError] or
    [ValueError] there is reported as a usage error. *)
Definition get_value (a : action) (tok : string) : result (scalar * list string) :=
  match a_type a with
  | None => Ok (SStr tok, [])
  | Some f =>
      match f (PScalar (SStr tok)) with
      | Ok r => Ok r
      | Raise TypeError | Raise ValueError => error
      | Raise e => Raise e
      end
  end.

Definition check_value (a : action) (v : scalar) : result unit :=
  match a_choices a with
  | None => Ok tt
  | Some cs => if existsb (py_eq v) cs then Ok tt else error
  end.

(** Running a store action: later values replace earlier ones. *)
Definition take (st : parse_state) (a : action) (v : pyval) (w : list string)
  : parse_state :=
  {| namespace := dict_set (namespace st) (dest a) v;
     seen := (seen st ++ [option_string a])%list;
     pend := Idle;
     extras := extras st;
     issued := (issued st ++ w)%list |}.

Definition with_pend (st : parse_state) (q : pending) (w : list string) : parse_state :=
  {| namespace := namespace st; seen := seen st; pend := q; extras := extras st;
     issued := (issued st ++ w)%list |}.

Definition with_extra (st : parse_state) (tok : string) : parse_state :=
  {| namespace := namespace st; seen := seen st; pend := pend st;
     extras := (extras st ++ [tok])%list; issued := issued st |}.

(** The option still collecting values gets no more of them. *)
Definition close (st : parse_state) : result parse_state :=
  match pend st with
  | Idle => Ok st
  | One _ => error
  | Many a values =>
      match values, kind a with
      | [], Store (Some "+") => error
      | _, _ => Ok (take st a (PList values) [])
      end
  end.

Definition step (p : ArgumentParser) (st : parse_state) (tok : string)
  : result parse_state :=
  match classify p tok with
  | Option_ a =>
      st <- close st ;;
      match kind a with
      | Help => error
      | StoreTrue => Ok (take st a (PScalar (SBool true)) [])
      | Store None => Ok (with_pend st (One a) [])
      | Store (Some _) => Ok (with_pend st (Many a []) [])
      end
  | Argument =>
      match pend st with
      | Idle => Ok (with_extra st tok)
      | One a =>
          '(v, w) <- get_value a tok ;;
          _ <- check_value a v ;;
          Ok (take st a (PScalar v) w)
      | Many a values =>
          '(v, w) <- get_value a tok ;;
          _ <- check_value a v ;;
          Ok (with_pend st (Many a (values ++ [v])%list) w)
      end
  | Unknown => st <- close st ;; Ok (with_extra st tok)
  | Outside => Raise (NotModelled tok)
  end.

Fixpoint scan (p : ArgumentParser) (st : parse_state) (tokens : list string)
  : result parse_state :=
  match tokens with
  | [] => Ok st
  | tok :: tokens' => st <- step p st tok ;; scan p st tokens'
  end.

(** Every destination starts at the default of the first action that
    names it. *)
Fixpoint defaults (acts : list action) (ns : dict pyval) : dict pyval :=
  match acts with
  | [] => ns
  | a :: acts' =>
      defaults acts'
        (match kind a with
         | Help => ns
         | _ => if dict_in (dest a) ns then ns else dict_set ns (dest a) (a_default a)
         end)
  end.

Definition pyval_is_str (v : pyval) (s : string) : bool :=
  match v with
  | PScalar (SStr s') => (s' =? s)%string
  | _ => false
  end.

(** After the last token: a required action that was not taken is an
    error, and a string default left in place is converted. *)
Fixpoint wrap_up (acts : list action) (st : parse_state) : result parse_state :=
  match acts with
  | [] => Ok st
  | a :: acts' =>
      if existsb (String.eqb (option_string a)) (seen st) then wrap_up acts' st
      else if a_required a then error
      else
        match a_default a with
        | PScalar (SStr s) =>
            if match dict_get (namespace st) (dest a) with
               | Some v => pyval_is_str v s
               | None => false
               end
            then
              '(v, w) <- get_value a s ;;
              wrap_up acts'
                {| namespace := dict_set (namespace st) (dest a) (PScalar v);
                   seen := seen st; pend := pend st; extras := extras st;
                   issued := (issued st ++ w)%list |}
            else wrap_up acts' st
        | _ => wrap_up acts' st
        end
  end.

(** [parser.parse_known_args(tokens)]: the attributes of the namespace,
    the tokens left over, and the warnings issued on the way. *)
Definition parse_known_args (p : ArgumentParser) (tokens : list string)
  : result (dict pyval * list string * list string) :=
  let st := {| namespace := defaults (actions p) []; seen := []; pend := Idle;
               extras := []; issued := [] |} in
  st <- scan p st tokens ;;
  st <- close st ;;
  st <- wrap_up (actions p) st ;;
  Ok (namespace st, extras st, issued st).

(** [parser.parse_args(tokens)]: left-over tokens are an error. *)
Definition parser_parse_args (p : ArgumentParser) (tokens : list string)
  : result (dict pyval * list string) :=
  '(ns, rest, w) <- parse_known_args p tokens ;;
  match rest with
  | [] => Ok (ns, w)
  | _ => error
  end.

(** ** Driving the parser *)

(** [ArgumentItem.append_argument]. *)
Definition item_append_argument (self : ArgumentItem) (argparse_instance : ArgumentParser)
  : result ArgumentParser :=
  add_argument argparse_instance ("-" ++ param_commandline_name self) (argparse_call self).

(** [ArgumentGroup.append_argument] and, on a leaf,
    [ArgumentItem.append_argument].  A group made from a parser or from
    another group registers its arguments with the same parser. *)
Fixpoint append_argument (n : node) (argparse_instance : ArgumentParser)
  : result ArgumentParser :=
  match n with
  | Item i => item_append_argument i argparse_instance
  | Group (GroupRef name _) description arguments =>
      let argparse_current := add_argument_group argparse_instance name description in
      (fix each (args : dict node) (argparse_current : ArgumentParser) :=
         match args with
         | [] => Ok argparse_current
         | (_, arg) :: args' =>
             argparse_current <- append_argument arg argparse_current ;;
             each args' argparse_current
         end) arguments argparse_current
  end.

Definition no_kws : argparse_kws :=
  {| kws_nargs := None; kws_help := EmptyString; kws_required := false;
     kws_type := None; kws_choices := None; kws_default := None;
     kws_metavar := None; kws_action := None |}.

Definition kws_with_nargs (n : string) : argparse_kws :=
  {| kws_nargs := Some n; kws_help := EmptyString; kws_required := false;
     kws_type := None; kws_choices := None; kws_default := None;
     kws_metavar := None; kws_action := None |}.

Definition kws_with_type (t : ptype) : argparse_kws :=
  {| kws_nargs := None; kws_help := EmptyString; kws_required := false;
     kws_type := Some (plain_type t); kws_choices := None; kws_default := None;
     kws_metavar := None; kws_action := None |}.

Definition kws_with_action (a : string) : argparse_kws :=
  {| kws_nargs := None; kws_help := EmptyString; kws_required := false;
     kws_type := None; kws_choices := None; kws_default := None;
     kws_metavar := None; kws_action := Some a |}.

(** The parser of the directives, built at the start of [parse_args]. *)
Definition preparser : result ArgumentParser :=
  p <- add_argument new_parser "--write_tool_ctd" (kws_with_nargs "*") ;;
  p <- add_argument p "--input_ctd" (kws_with_type Tstr) ;;
  p <- add_argument p "--write_param_ctd" (kws_with_type Tstr) ;;
  p <- add_argument p "--log_output" (kws_with_action "store_true") ;;
  add_argument p "--log_std_streams" (kws_with_action "store_true").

(** A token of the command line handed to the parser has to be a
    string. *)
Definition token_string (t : ini_value) : result string :=
  match t with
  | IStr s => Ok s
  | ITrue => Raise TypeError
  end.

(** How a call of [parse_args] ends when it does not raise: it returns the
    parsed arguments, or it leaves the process through [sys.exit()]. *)
Inductive outcome : Type :=
| Returned (self : CTDopts) (w : world) (parsed_args : dict pyval) (warned : list string)
| Exited (self : CTDopts) (w : world).

(** The token list given to the regular parser: the tokens synthesized
    from the loaded document, if any, then the remaining literal ones. *)
Definition final_args (from_ini : list ini_value) (rest : list string) : list ini_value :=
  (from_ini ++ map IStr rest)%list.

(** [CTDopts.parse_args] on the argument list [argv]. *)
Definition parse_args (self : CTDopts) (w : world) (now : string) (argv : list string)
  : result outcome :=
  preparser <- preparser ;;
  '(directives, rest, _) <- parse_known_args preparser argv ;;
  match kwargs_get (dict_get directives "write_tool_ctd") PNone with
  | PList write_tool_ctd =>
      let self :=
        with_out_ctd_file self
          (match write_tool_ctd with
           | [] => tool_name self ++ ".ctd"
           | f :: _ => str_scalar f
           end) in
      '(self, w) <- write_ctd self w now ;;
      f <- of_option (AttributeError "out_ctd_file") (out_ctd_file self) ;;
      let '(self, w) :=
        py_print self w
          ("Tool-describing " ++ f ++ " written to current directory successfully. Exiting.") in
      Ok (Exited self w)
  | _ =>
      '(self, from_ini) <-
        match kwargs_get (dict_get directives "input_ctd") PNone with
        | PNone => Ok (self, [])
        | input_ctd =>
            let ini_file := py_str input_ctd in
            root <- of_option (IOError ini_file) (dict_get (files w) ini_file) ;;
            '(ini_params, command_line) <- read_ini root ;;
            Ok (with_ini_params self ini_params, command_line)
        end ;;
      let final_args := final_args from_ini rest in
      regular_parser <- append_argument (main_node self) new_parser ;;
      tokens <- mapM token_string final_args ;;
      '(parsed_args, warned) <- parser_parse_args regular_parser tokens ;;
      let self := with_main_node self (store_call_value (main_node self) parsed_args) in
      let write_param_ctd := kwargs_get (dict_get directives "write_param_ctd") PNone in
      if truth write_param_ctd then
        let self := with_out_ctd_file self (py_str write_param_ctd) in
        if truth (kwargs_get (dict_get directives "log_output") PNone) then
          self <- generate_ctd_tree self true now ;;
          if truth (kwargs_get (dict_get directives "log_std_streams") PNone) then
            let self := with_streams self (Some EmptyString) (Some EmptyString) in
            Ok (Returned self
                  {| files := files w; printed := printed w; tee_stdout := true;
                     tee_stderr := true; atexit_finalize := true |}
                  parsed_args warned)
          else Ok (Returned self w parsed_args warned)
        else
          self <- generate_ctd_tree self false now ;;
          '(self, w) <- write_ctd self w now ;;
          f <- of_option (AttributeError "out_ctd_file") (out_ctd_file self) ;;
          let '(self, w) :=
            py_print self w
              ("Parameter container " ++ f ++ " written to current directory successfully.") in
          Ok (Returned self w parsed_args warned)
      else Ok (Returned self w parsed_args warned)
  end.

(** * Vocabulary of the statements *)

(** The range [(lo, hi)] declared for the integer parameter [name]. *)
Definition int_range (name : string) (lo hi : Z) : _NumericRange :=
  {| nr_param_name := name; n_type := Tint;
     n_min := Some (SInt lo); n_max := Some (SInt hi) |}.

(** The tokens one entry of the loaded table stands for: none when no
    value was recorded, the flag name alone for a set flag, otherwise the
    flag name followed by the values. *)
Definition tokens_of (entry : string * list ini_value) : list ini_value :=
  match entry with
  | (_, []) => []
  | (arg_name, [ITrue]) => [IStr arg_name]
  | (arg_name, values) => IStr arg_name :: values
  end.

(** [kw] without the [file_formats] keyword. *)
Definition without_file_formats (kw : kwargs) : kwargs :=
  {| kw_type := kw_type kw; kw_tags := kw_tags kw; kw_required := kw_required kw;
     kw_description := kw_description kw; kw_is_list := kw_is_list kw;
     kw_default := kw_default kw; kw_choices := kw_choices kw;
     kw_num_range := kw_num_range kw; kw_file_formats := None |}.

(** Whether the [default] keyword carries a value. *)
Definition default_given (kw : kwargs) : bool :=
  match kwargs_get (kw_default kw) PNone with PNone => false | _ => true end.

Definition declared_type (kw : kwargs) : ptype := kwargs_get (kw_type kw) Tstr.
Definition declared_required (kw : kwargs) : bool := kwargs_get (kw_required kw) false.
Definition declared_list (kw : kwargs) : bool := kwargs_get (kw_is_list kw) false.

(** Converting [default] and [choices] to the declared type fails. *)
Definition conversion_fails (kw : kwargs) : bool :=
  match kwargs_get (kw_default kw) PNone with
  | PNone => false
  | d => if declared_list kw then raises (map_type (declared_type kw) d)
         else raises (call_type (declared_type kw) d)
  end
  || match kwargs_get (kw_choices kw) PNone with
     | PNone => false
     | c => raises (map_type (declared_type kw) c)
     end.

(** More bounds than [(min, max)]. *)
Definition too_many_bounds (kw : kwargs) : bool :=
  match kw_num_range kw with
  | Some (_ :: _ :: _ :: _) => true
  | _ => false
  end.

(** The declaration is rejected for its shape: a flag declared as a list,
    or another parameter that is required with a default or optional
    without one. *)
Definition shape_rejected (kw : kwargs) : bool :=
  if ptype_eqb (declared_type kw) Tbool then declared_list kw
  else Bool.eqb (declared_required kw) (default_given kw).

(** The leaves found below [n], each with the names of the groups passed
    on the way down to it, starting from [path]. *)
Fixpoint leaves_below (path : list string) (n : node)
  : list (list string * ArgumentItem) :=
  match n with
  | Item i => [(path, i)]
  | Group (GroupRef g _) _ arguments =>
      (fix each (args : dict node) : list (list string * ArgumentItem) :=
         match args with
         | [] => []
         | (_, arg) :: args' => (leaves_below (path ++ [g]) arg ++ each args')%list
         end) arguments
  end.

(** The items of the tree whose top group is [root], each with its
    ancestor groups from the top group (excluded) down to its parent. *)
Definition leaves (root : node) : list (list string * ArgumentItem) :=
  match root with
  | Item i => [([], i)]
  | Group _ _ arguments => flat_map (fun kn => leaves_below [] (snd kn)) arguments
  end.

(** [n] was constructed with the group [self] as its parent, and so were,
    in turn, the nodes below it. *)
Inductive child_of (self : group_ref) : node -> Prop :=
| child_item (i : ArgumentItem) :
    parent i = self -> child_of self (Item i)
| child_group (g d : string) (arguments : dict node) :
    (forall k n, In (k, n) arguments -> child_of (GroupRef g (Some self)) n) ->
    child_of self (Group (GroupRef g (Some self)) d arguments).

(** An attribute of a document node, empty when absent. *)
Definition attr (e : Element) (k : string) : string :=
  kwargs_get (dict_get (attrib e) k) EmptyString.

(** The flat name of a parameter found under the groups [lineage]: a
    dash, then the colon-joined names of the groups and of the leaf. *)
Definition flat_name (lineage : list string) (leaf : string) : string :=
  "-" ++ join ":" (lineage ++ [leaf])%list.

(** What a node of a parameter document contributes to the flat table, in
    document order: a flag only when its value is [true], a list all the
    values of its elements, any other item its one value, a group what its
    children contribute. *)
Fixpoint entries (lineage : list string) (e : Element)
  : list (string * list ini_value) :=
  match e with
  | mkElement t _ _ kids =>
      if (t =? "ITEM")%string then
        if (attr e "type" =? "boolean")%string
        then if (attr e "value" =? "true")%string
             then [(flat_name lineage (attr e "name"), [ITrue])]
             else []
        else [(flat_name lineage (attr e "name"), [IStr (attr e "value")])]
      else if (t =? "ITEMLIST")%string then
        [(flat_name lineage (attr e "name"), map (fun k => IStr (attr k "value")) kids)]
      else if (t =? "NODE")%string then
        (fix each (kids : list Element) : list (string * list ini_value) :=
           match kids with
           | [] => []
           | k :: kids' => (entries (lineage ++ [attr e "name"]) k ++ each kids')%list
           end) kids
      else []
  end.

(** The table obtained by recording entries one after the other. *)
Definition record_all (t : dict (list ini_value))
    (l : list (string * list ini_value)) : dict (list ini_value) :=
  fold_left (fun t kv => dict_set t (fst kv) (snd kv)) l t.

(** How [_register_parameter] is called on a node found under [lineage]:
    at the top with the base name [-], below with the flat name of the
    enclosing group. *)
Definition called_under (lineage : list string) (base_name : string) (is_root : bool)
  : Prop :=
  (lineage = [] /\ base_name = "-" /\ is_root = true) \/
  (lineage <> [] /\ base_name = "-" ++ join ":" lineage /\ is_root = false).

(** The value tree of a parameter document: the node holding the
    parameters, two levels below the [PARAMETERS] element, which is the
    root itself or a child of the root. *)
Definition value_tree (root : Element) : option Element :=
  match (if (tag root =? "PARAMETERS")%string then Some root else find root "PARAMETERS") with
  | Some param_root =>
      match find param_root "NODE" with
      | Some top => find top "NODE"
      | None => None
      end
  | None => None
  end.

(** The value an item is serialised with: the stored call value if there
    is one, else the default. *)
Definition value_of (i : ArgumentItem) : pyval :=
  match call_value i with Some v => v | None => default i end.


(** The items of a tree, in the order of their declaration. *)
Fixpoint items (n : node) : list ArgumentItem :=
  match n with
  | Item i => [i]
  | Group _ _ arguments =>
      (fix each (args : dict node) : list ArgumentItem :=
         match args with
         | [] => []
         | (_, arg) :: args' => (items arg ++ each args')%list
         end) arguments
  end.

(** The loop of [ArgumentGroup.xml_node], named. *)
Fixpoint xml_children (args : dict node) (top : Element) : result Element :=
  match args with
  | [] => Ok top
  | (_, arg) :: args' => e <- xml_node arg ;; xml_children args' (append_child top e)
  end.


(** The keywords of an optional integer parameter with the given default
    and, possibly, enumerated choices. *)
Definition int_param (default : Z) (choices : option (list Z)) : kwargs :=
  {| kw_type := Some Tint; kw_tags := None; kw_required := None;
     kw_description := None; kw_is_list := None;
     kw_default := Some (PScalar (SInt default));
     kw_choices := option_map (fun l => PList (map SInt l)) choices;
     kw_num_range := None; kw_file_formats := None |}.

(** A tool whose parameters are declared by [calls] on its root group;
    [None] when a declaration is rejected. *)
Definition declared_tool (name version : string) (calls : list decl) : option CTDopts :=
  let self := CTDopts_init name version [] in
  match main_node self, declare root_ref calls [] with
  | Group root d _, Ok (arguments, _) => Some (with_main_node self (Group root d arguments))
  | _, _ => None
  end.

(** [self] after [self.main_node.store_call_value(call_dict)]. *)
Definition with_call_values (self : CTDopts) (call_dict : dict pyval) : CTDopts :=
  with_main_node self (store_call_value (main_node self) call_dict).

Definition empty_world : world :=
  {| files := []; printed := []; tee_stdout := false; tee_stderr := false;
     atexit_finalize := false |}.

(** A world in which the document [doc] was written to the file
    [file]. *)
Definition world_with_file (file : string) (doc : Element) : world :=
  {| files := [(file, doc)]; printed := []; tee_stdout := false;
     tee_stderr := false; atexit_finalize := false |}.

(** Induction over trees whose children sit in lists. *)
Fixpoint node_induction (P : node -> Prop)
    (HItem : forall i, P (Item i))
    (HGroup : forall self d arguments,
        (forall k n, In (k, n) arguments -> P n) -> P (Group self d arguments))
    (n : node) {struct n} : P n :=
  match n with
  | Item i => HItem i
  | Group self d arguments =>
      HGroup self d arguments
        ((fix each (args : dict node) : forall k n, In (k, n) args -> P n :=
            match args with
            | [] => fun _ _ H => match H with end
            | (k0, n0) :: args' =>
                fun k n H =>
                  match H with
                  | or_introl E =>
                      match E in _ = kn return P (snd kn) with
                      | eq_refl => node_induction P HItem HGroup n0
                      end
                  | or_intror H' => each args' k n H'
                  end
            end) arguments)
  end.

Fixpoint decl_induction (P : decl -> Prop)
    (HAdd : forall name kw, P (Add name kw))
    (HAddGroup : forall name d body,
        (forall c, In c body -> P c) -> P (AddGroup name d body))
    (c : decl) {struct c} : P c :=
  match c with
  | Add name kw => HAdd name kw
  | AddGroup name d body =>
      HAddGroup name d body
        ((fix each (l : list decl) : forall c, In c l -> P c :=
            match l with
            | [] => fun _ H => match H with end
            | c0 :: l' =>
                fun c H =>
                  match H with
                  | or_introl E =>
                      match E in _ = c' return P c' with
                      | eq_refl => decl_induction P HAdd HAddGroup c0
                      end
                  | or_intror H' => each l' c H'
                  end
            end) body)
  end.

Fixpoint Element_induction (P : Element -> Prop)
    (H : forall t a x kids, (forall k, In k kids -> P k) -> P (mkElement t a x kids))
    (e : Element) {struct e} : P e :=
  match e with
  | mkElement t a x kids =>
      H t a x kids
        ((fix each (l : list Element) : forall k, In k l -> P k :=
            match l with
            | [] => fun _ F => match F with end
            | k0 :: l' =>
                fun k Hin =>
                  match Hin with
                  | or_introl E =>
                      match E in _ = k' return P k' with
                      | eq_refl => Element_induction P H k0
                      end
                  | or_intror Hin' => each l' k Hin'
                  end
            end) kids)
  end.

(** Data for concrete runs. *)

(** A flag declared as required. *)
Definition required_flag : kwargs :=
  {| kw_type := Some Tbool; kw_tags := None; kw_required := Some true;
     kw_description := None; kw_is_list := None; kw_default := None;
     kw_choices := None; kw_num_range := None; kw_file_formats := None |}.

(** A required integer parameter with both kinds of restriction. *)
Definition doubly_restricted : kwargs :=
  {| kw_type := Some Tint; kw_tags := None; kw_required := Some true;
     kw_description := None; kw_is_list := None; kw_default := None;
     kw_choices := None; kw_num_range := Some [Some (SInt 0); Some (SInt 10)];
     kw_file_formats := Some ["txt"] |}.

(** A value-only document: one number, one set flag, one empty list. *)
Definition small_document : Element :=
  mkElement "PARAMETERS" [] None
    [mkElement "NODE" [("name", "tool")] None
       [mkElement "ITEM" [("name", "version"); ("value", "1.0"); ("type", "string")] None [];
        mkElement "NODE" [("name", "1")] None
          [mkElement "ITEM" [("name", "n"); ("value", "7"); ("type", "int")] None [];
           mkElement "NODE" [("name", "g")] None
             [mkElement "ITEM" [("name", "flag"); ("value", "true"); ("type", "boolean")]
                None [];
              mkElement "ITEMLIST" [("name", "files"); ("type", "string")] None []]]]].

(** A tool whose tree was generated with a log record, about to write
    [out.ctd]. *)
Definition logging_tool : CTDopts :=
  {| tool_name := "tool"; version := "1.0"; optional_attribs := [];
     main_node := Group root_ref EmptyString [];
     tool_xml_node :=
       Some (mkElement "tool" [] None
               [mkElement "logs" [] None [mkElement "log" [("executionTimeStart", "09:00")] None []];
                mkElement "PARAMETERS" [] None []]);
     log_node := Some (mkElement "log" [("executionTimeStart", "09:00")] None []);
     log_path := Some [O; O];
     out_ctd_file := Some "out.ctd"; ini_params := None;
     stdout_stream := None; stderr_stream := None; already_finalized := false |}.

(** Whether [v] violates the lower, respectively upper, bound of a range;
    an absent bound is never violated. *)
Definition below_minimum (self : _NumericRange) (v : scalar) : bool :=
  match n_min self with Some lo => py_lt v lo | None => false end.

Definition above_maximum (self : _NumericRange) (v : scalar) : bool :=
  match n_max self with Some hi => py_gt v hi | None => false end.

(** A scalar is of the given parameter type. *)
Definition has_type (t : ptype) (v : scalar) : bool :=
  match t, v with
  | Tint, SInt _ | Tfloat, SFloat _ | Tstr, SStr _ | Tbool, SBool _ => true
  | _, _ => false
  end.

(** A default is absent, one value of the type for a scalar parameter, or
    values of the type for a list parameter. *)
Definition default_conforms (t : ptype) (is_list : bool) (d : pyval) : bool :=
  match d with
  | PNone => true
  | PScalar v => negb is_list && has_type t v
  | PList l => is_list && forallb (has_type t) l
  end.

(** The option string an item is registered under. *)
Definition flag_of (i : ArgumentItem) : string := "-" ++ param_commandline_name i.

(** The action the parser holds for an item once it is registered. *)
Definition registered_action (i : ArgumentItem) : action :=
  {| option_string := flag_of i;
     dest := dest_of (flag_of i);
     kind := if ptype_eqb (type i) Tbool then StoreTrue
             else Store (if is_list i then Some "+" else None);
     a_type := kws_type (argparse_call i);
     a_choices := choices i;
     a_default := default i;
     a_required := required i |}.

(** The loop of [ArgumentGroup.append_argument], named. *)
Fixpoint append_children (args : dict node) (argparse_current : ArgumentParser)
  : result ArgumentParser :=
  match args with
  | [] => Ok argparse_current
  | (_, arg) :: args' =>
      argparse_current <- append_argument arg argparse_current ;;
      append_children args' argparse_current
  end.

(** The name a node was declared with. *)
Definition node_name (n : node) : string :=
  match n with
  | Item i => name i
  | Group (GroupRef g _) _ _ => g
  end.

(** In every group of the tree the child names are pairwise different and
    each child is stored under its own name. *)
Inductive well_keyed : node -> Prop :=
| wk_item (i : ArgumentItem) : well_keyed (Item i)
| wk_group (self : group_ref) (d : string) (arguments : dict node) :
    NoDup (map fst arguments) ->
    (forall k n, In (k, n) arguments -> node_name n = k /\ well_keyed n) ->
    well_keyed (Group self d arguments).

(** The stored children have different names and sit under their own
    names. *)
Definition keyed (args : dict node) : Prop :=
  NoDup (map fst args) /\
  forall k n, In (k, n) args -> node_name n = k /\ well_keyed n.

(** The name a call declares. *)
Definition call_name (c : decl) : string :=
  match c with
  | Add nm _ => nm
  | AddGroup nm _ _ => nm
  end.

(** No group is asked to declare the same name twice: not in [calls], nor
    in the calls made on any group that [calls] adds. *)
Inductive distinctly_named : list decl -> Prop :=
| distinct_names (calls : list decl) :
    NoDup (map call_name calls) ->
    (forall nm d body, In (AddGroup nm d body) calls -> distinctly_named body) ->
    distinctly_named calls.

Definition body_distinct (c : decl) : Prop :=
  match c with
  | Add _ _ => True
  | AddGroup _ _ body => distinctly_named body
  end.

(** What one call does to the warnings and to the set of stored names. *)
Definition call_effect (c : decl) : Prop :=
  forall self args args1 w1,
    declare1 self c args = Ok (args1, w1) ->
    (w1 = [] <-> ~ In (call_name c) (map fst args) /\ body_distinct c) /\
    (forall x, In x (map fst args1) <-> In x (map fst args) \/ x = call_name c).

Definition is_str (v : scalar) : bool :=
  match v with SStr _ => true | _ => false end.

(** The declared choices cannot be joined into the [restrictions]
    attribute: one of them is not a string. *)
Definition choices_unjoinable (i : ArgumentItem) : bool :=
  match choices i with
  | Some cs => negb (forallb is_str cs)
  | None => false
  end.

(** The value of a list item cannot be iterated over. *)
Definition value_not_iterable (i : ArgumentItem) : bool :=
  match value_of i with
  | PNone => false
  | v => raises (py_iter v)
  end.

(** The element found by following child indices, if there is one. *)
Fixpoint subtree (e : Element) (path : list nat) : option Element :=
  match path with
  | [] => Some e
  | i :: path' =>
      match nth_error (children e) i with
      | Some c => subtree c path'
      | None => None
      end
  end.

(** The text a [stdout] or [stderr] argument of [finalize_log] stands
    for; an absent argument falls back on the captured stream, and on the
    empty text when nothing was captured. *)
Definition logged_text (given : option stream_arg) (captured : option string) : string :=
  match given, captured with
  | Some a, _ => stream_data a
  | None, Some buf => buf
  | None, None => EmptyString
  end.

(** The log record as [finalize_log] completes it. *)
Definition finished_log (log : Element) (now : string) (exit_status : pyval)
    (stdout_data stderr_data : string) : Element :=
  let log := set_attrib log "executionTimeStop" now in
  let log :=
    match exit_status with
    | PNone => log
    | _ => set_attrib log "executionStatus" (py_str exit_status)
    end in
  append_child
    (append_child log (mkElement "executionErrors" [] (Some stderr_data) []))
    (mkElement "executionMessage" [] (Some stdout_data) []).

Definition has_attr (e : Element) (k : string) : bool := dict_in k (attrib e).

(** A node of a parameter document carries the attributes that loading
    reads: a name always; a type and a value on an item; a value on every
    element of a list; and so on below a group.  Nodes with other tags
    only need the name. *)
Fixpoint loadable (e : Element) : bool :=
  match e with
  | mkElement t _ _ kids =>
      has_attr e "name" &&
      (if (t =? "ITEM")%string then has_attr e "type" && has_attr e "value"
       else if (t =? "ITEMLIST")%string then forallb (fun k => has_attr k "value") kids
       else if (t =? "NODE")%string then
         (fix each (kids : list Element) : bool :=
            match kids with
            | [] => true
            | k :: kids' => loadable k && each kids'
            end) kids
       else true)
  end.

(** While the directives are read and [--write_tool_ctd] has been met:
    the option is still collecting its values, or its attribute holds
    the list collected, and no option waiting for its single value could
    replace that list. *)
Definition tool_ctd_asked (st : parse_state) : Prop :=
  match pend st with
  | Idle => exists l, dict_get (namespace st) "write_tool_ctd" = Some (PList l)
  | One a =>
      dest a <> "write_tool_ctd" /\
      exists l, dict_get (namespace st) "write_tool_ctd" = Some (PList l)
  | Many a _ =>
      dest a = "write_tool_ctd" \/
      exists l, dict_get (namespace st) "write_tool_ctd" = Some (PList l)
  end.

(** Only an option that collects a list of values is stored under
    [write_tool_ctd]. *)
Definition lists_tool_ctd (a : action) : Prop :=
  match kind a with
  | Store None | StoreTrue => dest a <> "write_tool_ctd"
  | _ => True
  end.

Definition no_string_default (a : action) : Prop :=
  match a_default a with
  | PScalar (SStr _) => False
  | _ => True
  end.

(** The line printed after the tool description was written. *)
Definition tool_ctd_written (f : string) : string :=
  "Tool-describing " ++ f ++ " written to current directory successfully. Exiting.".

(** A small declaration: the parameter [x] on the root and the
    parameter [y] in the group [g]. *)
Definition two_level : list decl :=
  [Add "x" (int_param 1 None); AddGroup "g" "group" [Add "y" (int_param 2 None)]].

(** The tool [tool], version 1.0, with the parameters [arguments] on its
    root group and [out.ctd] as its output file. *)
Definition tool_over (arguments : dict node) : CTDopts :=
  with_out_ctd_file
    (with_main_node (CTDopts_init "tool" "1.0" []) (Group root_ref EmptyString arguments))
    "out.ctd".

(** * Properties *)

(** ** Restrictions *)

Lemma endswith_iff (s suffix : string) :
  endswith s suffix = true <-> exists pre, s = pre ++ suffix.
Proof.
  induction s as [|c s IH].
  - destruct suffix as [|d suffix]; simpl.
    + split; [now exists EmptyString | reflexivity].
    + split; [discriminate|]. intros [pre H]. destruct pre; discriminate.
  - change (endswith (String c s) suffix)
      with ((String c s =? suffix)%string || endswith s suffix).
    rewrite orb_true_iff, String.eqb_eq, IH. split.
    + intros [<- | [pre ->]].
      * now exists EmptyString.
      * now exists (String c pre).
    + intros [[|c' pre] H]; simpl in H.
      * now left.
      * injection H as -> ->. right. now exists pre.
Qed.

Lemma legal_formats_loop_returns (self : _FileFormat) (filename : string)
    (todo : list string) :
  fst (legal_formats_loop self filename todo) = filename.
Proof.
  induction todo as [|format todo IH]; simpl; [reflexivity|].
  now destruct (endswith filename (String "." format)).
Qed.

Lemma legal_formats_loop_quiet (self : _FileFormat) (filename : string)
    (todo : list string) :
  snd (legal_formats_loop self filename todo) = [] <->
  exists format, In format todo /\ endswith filename ("." ++ format) = true.
Proof.
  induction todo as [|format todo IH]; simpl.
  - split; [discriminate | intros (? & [] & _)].
  - destruct (endswith filename (String "." format)) eqn:E; simpl.
    + split; [|reflexivity]. intros _. exists format. auto.
    + rewrite IH. split.
      * intros (f & Hin & Hf). exists f. auto.
      * intros (f & [<- | Hin] & Hf); [simpl in Hf; congruence|].
        exists f. auto.
Qed.

Lemma legal_formats_loop_warning (self : _FileFormat) (filename : string)
    (todo : list string) :
  snd (legal_formats_loop self filename todo) = [] \/
  snd (legal_formats_loop self filename todo) =
    ["Parameter " ++ ff_param_name self
     ++ "'s file extension not in allowed list. Allowed: "
     ++ join "/" (formats self) ++ ". Actual: " ++ filename].
Proof.
  induction todo as [|format todo IH]; simpl.
  - now right.
  - destruct (endswith filename (String "." format)); [now left | exact IH].
Qed.

(** C5.  The checker made from a file-extension allow-list returns every
    file name unchanged.  It issues no warning exactly when the name is
    some text followed by a dot and one of the allowed extensions, compared
    character by character (so an extension with several parts matches as a
    whole); in every other case it issues one warning, which names the
    parameter, the allowed extensions and the file name. *)
Theorem C5_file_extension_advisory (self : _FileFormat) (filename : string) :
  fst (legal_formats self filename) = filename /\
  (snd (legal_formats self filename) = [] <->
   exists format pre, In format (formats self) /\ filename = pre ++ "." ++ format) /\
  (snd (legal_formats self filename) <> [] ->
   snd (legal_formats self filename) =
     ["Parameter " ++ ff_param_name self
      ++ "'s file extension not in allowed list. Allowed: "
      ++ join "/" (formats self) ++ ". Actual: " ++ filename]).
Proof.
  unfold legal_formats. split; [apply legal_formats_loop_returns|]. split.
  - rewrite legal_formats_loop_quiet. split.
    + intros (f & Hin & Hf). apply endswith_iff in Hf as [pre Hf]. now exists f, pre.
    + intros (f & pre & Hin & Hf). exists f. split; [easy|].
      apply endswith_iff. now exists pre.
  - intros Hne. now destruct (legal_formats_loop_warning self filename (formats self)).
Qed.

(** A compressed file name matches through its two-part extension, and
    the comparison distinguishes upper from lower case. *)
Example two_part_extension_matches :
  legal_formats {| ff_param_name := "in"; formats := ["fastq"; "fastq.gz"] |}
    "reads.fastq.gz"
  = ("reads.fastq.gz", []).
Proof. reflexivity. Qed.

Example upper_case_extension_warns :
  snd (legal_formats {| ff_param_name := "in"; formats := ["fastq"] |} "reads.FASTQ")
  <> [].
Proof. discriminate. Qed.

(** C4.  The checker made from a numeric range, given a value that its
    type converts to [v], returns [v] whatever the bounds say.  When [v] is
    below the minimum or above the maximum it issues at least one warning,
    and every warning it issues names the parameter, the value and a bound
    that the value violates.  In particular, for the range (0, 10)
    and the input -5 the checker returns -5 and issues exactly one warning,
    naming the parameter, -5 and 0. *)
Theorem C4_numeric_range_advisory :
  (forall (self : _NumericRange) (value : pyval) (v : scalar),
      call_type (n_type self) value = Ok v ->
      (exists lo, n_min self = Some lo /\ py_lt v lo = true) \/
      (exists hi, n_max self = Some hi /\ py_gt v hi = true) ->
      exists ws,
        is_in_range self value = Ok (v, ws) /\
        ws <> [] /\
        forall w, In w ws ->
          (exists lo, n_min self = Some lo /\ py_lt v lo = true /\
             w = "Parameter " ++ nr_param_name self ++ " value " ++ str_scalar v
                 ++ " is below minimum " ++ str_scalar lo) \/
          (exists hi, n_max self = Some hi /\ py_gt v hi = true /\
             w = "Parameter " ++ nr_param_name self ++ " value " ++ str_scalar v
                 ++ " is above maximum " ++ str_scalar hi)) /\
  (forall name : string,
      is_in_range (int_range name 0 10) (PScalar (SStr "-5")) =
      Ok (SInt (-5), ["Parameter " ++ name ++ " value -5 is below minimum 0"])).
Proof.
  split; [|reflexivity].
  intros self value v Hv Hout. unfold is_in_range. rewrite Hv. simpl.
  eexists. split; [reflexivity|]. split.
  - destruct Hout as [(lo & -> & ->) | (hi & -> & ->)].
    + discriminate.
    + destruct (n_min self) as [lo|]; [destruct (py_lt v lo)|]; discriminate.
  - intros w Hw. apply in_app_or in Hw as [Hw | Hw].
    + destruct (n_min self) as [lo|]; [|contradiction].
      destruct (py_lt v lo) eqn:E; [|contradiction].
      destruct Hw as [<- | []]. left. now exists lo.
    + destruct (n_max self) as [hi|]; [|contradiction].
      destruct (py_gt v hi) eqn:E; [|contradiction].
      destruct Hw as [<- | []]. right. now exists hi.
Qed.

(** ** Token synthesis *)

Lemma command_line_loop_app (command_line : list ini_value)
    (items : dict (list ini_value)) :
  command_line_loop command_line items = (command_line ++ flat_map tokens_of items)%list.
Proof.
  revert command_line. induction items as [|[arg_name values] items IH]; intros cl; simpl.
  - now rewrite app_nil_r.
  - rewrite IH. destruct values as [|v values]; simpl; [reflexivity|].
    destruct v as [x|]; simpl.
    + now rewrite <- !app_assoc.
    + destruct values; simpl; now rewrite <- !app_assoc.
Qed.

(** C7.  The command line that [read_ini] returns is made from the loaded
    table entry by entry, in the table's order: an entry with no recorded
    value gives no token at all, an entry recorded as the flag sentinel
    [[True]] gives the flag name only, and any other entry gives the flag
    name followed by its values in order.  Whether a parameter is declared
    required plays no part. *)
Theorem C7_token_synthesis (root : Element) (table : dict (list ini_value))
    (command_line : list ini_value) :
  read_ini root = Ok (table, command_line) ->
  command_line = flat_map tokens_of table /\
  (forall arg_name, tokens_of (arg_name, []) = []) /\
  (forall arg_name, tokens_of (arg_name, [ITrue]) = [IStr arg_name]) /\
  (forall arg_name values,
      values <> [] -> values <> [ITrue] ->
      tokens_of (arg_name, values) = IStr arg_name :: values).
Proof.
  intros H. split; [|split; [|split]]; try reflexivity.
  - unfold read_ini in H.
    destruct (if (tag root =? "PARAMETERS")%string then _ else _) as [param_root|];
      [simpl in H | discriminate].
    destruct (find param_root "NODE") as [top|]; [simpl in H | discriminate].
    destruct (find top "NODE") as [parameters|]; [simpl in H | discriminate].
    destruct (register_all [] (children parameters)) as [t|]; [simpl in H | discriminate].
    injection H as <- <-. apply (command_line_loop_app []).
  - intros arg_name values H1 H2.
    destruct values as [|[x|] [|v values]]; try reflexivity; congruence.
Qed.

(** ** Declarations *)

Lemma ArgumentItem_init_raises (name : string) (parent : group_ref) (kw : kwargs) :
  raises (ArgumentItem_init name parent kw) =
  conversion_fails kw || shape_rejected kw || too_many_bounds kw.
Proof.
  unfold ArgumentItem_init, conversion_fails, shape_rejected, too_many_bounds,
    default_given, declared_type, declared_required, declared_list.
  destruct kw as [t tg rq ds il df ch nr ff]; simpl.
  set (ty := kwargs_get t Tstr).
  destruct (kwargs_get df PNone) as [|d|dl] eqn:Edf;
    destruct (kwargs_get ch PNone) as [|c|cl] eqn:Ech;
    destruct (kwargs_get il false) eqn:Eil;
    simpl;
    repeat match goal with
      | |- context [map_type ?a ?b] => destruct (map_type a b); simpl
      | |- context [call_type ?a ?b] => destruct (call_type a b); simpl
      end;
    try reflexivity;
    destruct (ptype_eqb ty Tbool) eqn:Ety; simpl; try reflexivity;
    destruct (kwargs_get rq false); simpl; try reflexivity;
    destruct nr as [[|? [|? [|? ?]]]|]; destruct ff; reflexivity.
Qed.

Lemma ptype_eqb_eq (a b : ptype) : ptype_eqb a b = true <-> a = b.
Proof. destruct a, b; simpl; split; congruence. Qed.

(** C3 (amended).  Constructing an ArgumentItem aborts exactly when the
    conversion of [default] or [choices] to the declared type fails, or
    the parameter is not a flag and is required with a default, or it is
    not a flag and is optional without a default, or it is a flag declared
    as a list, or [num_range] has more than two bounds.  A flag declared
    as required is not rejected: when construction succeeds on a flag, the
    item is optional and defaults to false. *)
Theorem C3_declaration_failures (name : string) (parent : group_ref) (kw : kwargs) :
  (raises (ArgumentItem_init name parent kw) = true <->
   conversion_fails kw = true \/
   (declared_type kw <> Tbool /\ declared_required kw = true /\ default_given kw = true) \/
   (declared_type kw <> Tbool /\ declared_required kw = false /\ default_given kw = false) \/
   (declared_type kw = Tbool /\ declared_list kw = true) \/
   too_many_bounds kw = true) /\
  (forall i, declared_type kw = Tbool ->
             ArgumentItem_init name parent kw = Ok i ->
             required i = false /\ default i = PScalar (SBool false)).
Proof.
  split.
  - rewrite ArgumentItem_init_raises, !orb_true_iff. unfold shape_rejected.
    destruct (ptype_eqb (declared_type kw) Tbool) eqn:E.
    + apply ptype_eqb_eq in E. rewrite E. intuition congruence.
    + assert (declared_type kw <> Tbool)
        by (intros H; apply ptype_eqb_eq in H; congruence).
      destruct (declared_required kw), (default_given kw); simpl; intuition congruence.
  - intros i Hty. unfold declared_type in Hty. unfold ArgumentItem_init.
    rewrite Hty. simpl.
    destruct (match kwargs_get (kw_default kw) PNone with PNone => _ | _ => _ end);
      simpl; [|discriminate].
    destruct (match kwargs_get (kw_choices kw) PNone with PNone => _ | _ => _ end);
      simpl; [|discriminate].
    destruct (kwargs_get (kw_is_list kw) false); simpl; [discriminate|].
    destruct (match kw_num_range kw with Some _ => _ | None => _ end);
      simpl; [|discriminate].
    intros H. injection H as <-. simpl. auto.
Qed.

(** C10.  When both [num_range] and [file_formats] are given, the
    constructor behaves exactly as if [file_formats] had not been given:
    the pair of keywords is not rejected, and whenever construction
    succeeds the restriction installed is the numeric range made from
    [num_range]. *)
Theorem C10_restriction_precedence (name : string) (parent : group_ref) (kw : kwargs)
    (bounds : list (option scalar)) (fs : list string) :
  kw_num_range kw = Some bounds ->
  kw_file_formats kw = Some fs ->
  ArgumentItem_init name parent kw
    = ArgumentItem_init name parent (without_file_formats kw) /\
  (conversion_fails kw || shape_rejected kw || too_many_bounds kw = false ->
   exists i, ArgumentItem_init name parent kw = Ok i) /\
  (forall i, ArgumentItem_init name parent kw = Ok i ->
             exists r, new_NumericRange name (type i) bounds = Ok r /\
                       restrictions i = Some (NumericRange r)).
Proof.
  intros Hnr Hff. split; [|split].
  - unfold ArgumentItem_init, without_file_formats. simpl. now rewrite Hnr.
  - intros H. rewrite <- (ArgumentItem_init_raises name parent) in H.
    destruct (ArgumentItem_init name parent kw) as [i|]; [now exists i | discriminate].
  - intros i. unfold ArgumentItem_init. rewrite Hnr.
    destruct (match kwargs_get (kw_default kw) PNone with PNone => _ | _ => _ end);
      simpl; [|discriminate].
    destruct (match kwargs_get (kw_choices kw) PNone with PNone => _ | _ => _ end);
      simpl; [|discriminate].
    destruct (if ptype_eqb _ _ then _ else _) as [[rq df]|]; simpl; [|discriminate].
    destruct (if rq then _ else _); simpl; [|discriminate].
    destruct (new_NumericRange name (kwargs_get (kw_type kw) Tstr) bounds) as [r|] eqn:E;
      simpl; [|discriminate].
    intros H. injection H as <-. simpl. now exists r.
Qed.

(** ** Finalizing the log *)

(** C9.  Once a call of [finalize_log] has returned, every later call,
    whatever its arguments and whatever the clock says, returns at once:
    the object (and with it the log record) and the files are left exactly
    as they were. *)
Theorem C9_finalize_idempotent (self : CTDopts) (w : world) (now : string)
    (stdout stderr : option stream_arg) (exit_status : pyval)
    (self' : CTDopts) (w' : world) :
  finalize_log self w now stdout stderr exit_status = Ok (self', w') ->
  forall (w2 : world) (now2 : string) (stdout2 stderr2 : option stream_arg)
         (exit_status2 : pyval),
    finalize_log self' w2 now2 stdout2 stderr2 exit_status2 = Ok (self', w2).
Proof.
  intros H.
  assert (Hdone : already_finalized self' = true).
  { unfold finalize_log in H. destruct (already_finalized self) eqn:E.
    - injection H as <- <-. exact E.
    - destruct (log_node self) as [log|]; simpl in H; [|discriminate].
      destruct (write_ctd _ w now) as [[s1 w1]|]; simpl in H; [|discriminate].
      destruct (out_ctd_file s1) as [f|]; simpl in H; [|discriminate].
      injection H as <- <-. reflexivity. }
  intros. unfold finalize_log. now rewrite Hdone.
Qed.

(** ** Lineage names *)

Lemma In_dict_set {V : Type} (d : dict V) (k : string) (v : V) (k' : string) (v' : V) :
  In (k', v') (dict_set d k v) -> (k' = k /\ v' = v) \/ In (k', v') d.
Proof.
  induction d as [|[k0 v0] d IH]; simpl.
  - intros [E | []]. injection E as <- <-. now left.
  - destruct (k0 =? k)%string; simpl.
    + intros [E | H]; [injection E as <- <-; now left | right; now right].
    + intros [E | H]; [right; now left|].
      destruct (IH H) as [? | ?]; [now left | right; now right].
Qed.

Lemma ArgumentItem_init_fields (nm : string) (self : group_ref) (kw : kwargs)
    (i : ArgumentItem) :
  ArgumentItem_init nm self kw = Ok i ->
  name i = nm /\ parent i = self.
Proof.
  unfold ArgumentItem_init.
  destruct (match kwargs_get (kw_default kw) PNone with PNone => _ | _ => _ end);
    simpl; [|discriminate].
  destruct (match kwargs_get (kw_choices kw) PNone with PNone => _ | _ => _ end);
    simpl; [|discriminate].
  destruct (if ptype_eqb _ _ then _ else _) as [[rq df]|]; simpl; [|discriminate].
  destruct (if rq then _ else _); simpl; [|discriminate].
  destruct (match kw_num_range kw with Some _ => _ | None => _ end);
    simpl; [|discriminate].
  intros H. injection H as <-. simpl. auto.
Qed.

Lemma declare_all_children (self : group_ref)
    (step : decl -> dict node -> result (dict node * list string))
    (calls : list decl) :
  (forall c, In c calls ->
     forall args args' w,
       (forall k n, In (k, n) args -> child_of self n) ->
       step c args = Ok (args', w) ->
       forall k n, In (k, n) args' -> child_of self n) ->
  forall args args' w,
    (forall k n, In (k, n) args -> child_of self n) ->
    declare_all step calls args = Ok (args', w) ->
    forall k n, In (k, n) args' -> child_of self n.
Proof.
  induction calls as [|c calls IH]; intros Hstep args args' w Hargs H; simpl in H.
  - injection H as <- _. exact Hargs.
  - destruct (step c args) as [[a1 w1]|] eqn:E1; simpl in H; [|discriminate].
    destruct (declare_all step calls a1) as [[a2 w2]|] eqn:E2; simpl in H; [|discriminate].
    injection H as <- _.
    apply (IH (fun c' Hc' => Hstep c' (or_intror Hc')) a1 a2 w2); [|exact E2].
    apply (Hstep c (or_introl eq_refl) args a1 w1 Hargs E1).
Qed.

Lemma declare1_children (call : decl) :
  forall self args args' w,
    (forall k n, In (k, n) args -> child_of self n) ->
    declare1 self call args = Ok (args', w) ->
    forall k n, In (k, n) args' -> child_of self n.
Proof.
  induction call as [name kw | name d body IH] using decl_induction;
    intros self args args' w Hargs H k n Hin; simpl in H.
  - destruct (ArgumentItem_init name self kw) as [i|] eqn:E; simpl in H; [|discriminate].
    injection H as <- _. apply In_dict_set in Hin as [[_ ->] | Hin]; [|eauto].
    constructor. now apply ArgumentItem_init_fields in E.
  - destruct (declare_all _ body []) as [[sub w1]|] eqn:E; simpl in H; [|discriminate].
    injection H as <- _. apply In_dict_set in Hin as [[_ ->] | Hin]; [|eauto].
    constructor.
    apply (declare_all_children (GroupRef name (Some self))
             (declare1 (GroupRef name (Some self))) body) with (args := []) (w := w1).
    + intros c Hc. apply (IH c Hc).
    + intros ? ? [].
    + exact E.
Qed.

Lemma declare_children (self : group_ref) (calls : list decl) (args : dict node)
    (w : list string) :
  declare self calls [] = Ok (args, w) ->
  forall k n, In (k, n) args -> child_of self n.
Proof.
  unfold declare. intros H.
  apply (declare_all_children self (declare1 self) calls) with (args := []) (w := w);
    [| |exact H].
  - intros c _. apply declare1_children.
  - intros ? ? [].
Qed.

Lemma leaves_below_group (path : list string) (g : string) (p : option group_ref)
    (d : string) (arguments : dict node) :
  leaves_below path (Group (GroupRef g p) d arguments)
  = flat_map (fun kn => leaves_below (path ++ [g]) (snd kn)) arguments.
Proof.
  simpl. induction arguments as [|[k a] arguments IH]; simpl; [reflexivity|].
  now rewrite IH.
Qed.

Lemma lineage_below (n : node) :
  forall self path groups i,
    child_of self n ->
    In (groups, i) (leaves_below path n) ->
    exists suffix,
      groups = (path ++ suffix)%list /\
      get_group_lineage (parent i) = (get_group_lineage self ++ suffix)%list.
Proof.
  induction n as [i0 | self0 d arguments IH] using node_induction;
    intros self path groups i Hchild Hin.
  - simpl in Hin. destruct Hin as [E | []]. injection E as <- <-.
    inversion Hchild; subst. exists []. now rewrite !app_nil_r.
  - inversion Hchild as [| g d' args' Hall]; subst.
    rewrite leaves_below_group in Hin. apply in_flat_map in Hin as [[k a] [Hka Hin]].
    simpl in Hin.
    destruct (IH k a Hka _ _ _ _ (Hall k a Hka) Hin) as (suffix & -> & Hl).
    exists (g :: suffix). split.
    + now rewrite <- app_assoc.
    + rewrite Hl. simpl. now rewrite <- app_assoc.
Qed.

(** C6.  In a tree declared through [add] and [add_group] on the root
    group, the command-line name of every item is the colon-joined list of
    the names of its ancestor groups, from the one just below the root
    down to its parent, followed by the item's own name.  The root group's
    name is not part of it, and an item declared on the root itself is
    named by its own name alone. *)
Theorem C6_lineage_naming (calls : list decl) (arguments : dict node)
    (w : list string) (d : string) (groups : list string) (i : ArgumentItem) :
  declare root_ref calls [] = Ok (arguments, w) ->
  In (groups, i) (leaves (Group root_ref d arguments)) ->
  param_commandline_name i = join ":" (groups ++ [name i])%list /\
  (groups = [] -> param_commandline_name i = name i).
Proof.
  intros Hdecl Hin.
  assert (H : get_group_lineage (parent i) = groups).
  { simpl in Hin. apply in_flat_map in Hin as [[k n] [Hkn Hin]]. simpl in Hin.
    destruct (lineage_below n root_ref [] groups i
                (declare_children root_ref calls arguments w Hdecl k n Hkn) Hin)
      as (suffix & -> & Hl).
    exact Hl. }
  unfold param_commandline_name. rewrite H. split; [reflexivity|].
  now intros ->.
Qed.

(** ** Loading a document *)

Lemma append_assoc (a b c : string) : (a ++ b) ++ c = a ++ b ++ c.
Proof. induction a as [|x a IH]; simpl; [reflexivity | now rewrite IH]. Qed.

Lemma join_snoc (sep : string) (l : list string) (x : string) :
  l <> [] -> join sep (l ++ [x])%list = join sep l ++ sep ++ x.
Proof.
  unfold join. induction l as [|a l IH]; [easy|]. intros _.
  destruct l as [|b l].
  - reflexivity.
  - change (String.concat sep ((a :: b :: l) ++ [x])%list)
      with (a ++ sep ++ String.concat sep ((b :: l) ++ [x])%list).
    rewrite IH by discriminate.
    change (String.concat sep (a :: b :: l)) with (a ++ sep ++ String.concat sep (b :: l)).
    now rewrite !append_assoc.
Qed.

Lemma dict_item_attr (e : Element) (k v : string) :
  dict_item (attrib e) k = Ok v -> attr e k = v.
Proof.
  unfold dict_item, attr. destruct (dict_get (attrib e) k); simpl; congruence.
Qed.

Lemma full_name_flat (lineage : list string) (base_name : string) (is_root : bool)
    (leaf : string) :
  called_under lineage base_name is_root ->
  base_name ++ (if is_root then EmptyString else ":") ++ leaf = flat_name lineage leaf.
Proof.
  unfold flat_name.
  intros [(-> & -> & ->) | (Hne & -> & ->)]; [reflexivity|].
  rewrite join_snoc by assumption. reflexivity.
Qed.

Lemma mapM_values (kids : list Element) (values : list ini_value) :
  mapM (fun listitem => v <- dict_item (attrib listitem) "value" ;; Ok (IStr v)) kids
    = Ok values ->
  values = map (fun k => IStr (attr k "value")) kids.
Proof.
  revert values. induction kids as [|k kids IH]; intros values H; simpl in H.
  - now injection H as <-.
  - destruct (dict_item (attrib k) "value") as [v|] eqn:E; simpl in H; [|discriminate].
    destruct (mapM _ kids) as [vs|]; simpl in H; [|discriminate].
    injection H as <-. simpl. now rewrite (dict_item_attr _ _ _ E), (IH vs eq_refl).
Qed.

Lemma record_all_app (t : dict (list ini_value)) (l1 l2 : list (string * list ini_value)) :
  record_all t (l1 ++ l2) = record_all (record_all t l1) l2.
Proof. apply fold_left_app. Qed.

Lemma register_parameter_entries (e : Element) :
  forall lineage base_name is_root t t',
    called_under lineage base_name is_root ->
    _register_parameter t e base_name is_root = Ok t' ->
    t' = record_all t (entries lineage e).
Proof.
  induction e as [tg a x kids IH] using Element_induction.
  intros lineage base_name is_root t t' Hcall H.
  cbn [_register_parameter] in H.
  destruct (dict_item (attrib (mkElement tg a x kids)) "name") as [nm|] eqn:En;
    cbn [bind] in H; [|discriminate].
  apply dict_item_attr in En.
  rewrite (full_name_flat lineage base_name is_root nm Hcall) in H.
  cbn [entries tag] in *. rewrite En.
  destruct (tg =? "ITEM")%string.
  { destruct (dict_item _ "type") as [ty|] eqn:Et; cbn [bind] in H; [|discriminate].
    apply dict_item_attr in Et. rewrite Et.
    destruct (ty =? "boolean")%string.
    - destruct (dict_item _ "value") as [v|] eqn:Ev; cbn [bind] in H; [|discriminate].
      apply dict_item_attr in Ev. rewrite Ev.
      destruct (v =? "true")%string; now injection H as <-.
    - destruct (dict_item _ "value") as [v|] eqn:Ev; cbn [bind] in H; [|discriminate].
      apply dict_item_attr in Ev. rewrite Ev. now injection H as <-. }
  destruct (tg =? "ITEMLIST")%string.
  { cbn [children] in H.
    destruct (mapM _ kids) as [vs|] eqn:Em; cbn [bind] in H; [|discriminate].
    apply mapM_values in Em. subst vs. now injection H as <-. }
  destruct (tg =? "NODE")%string; [|now injection H as <-].
  assert (Hsub : called_under (lineage ++ [nm]) (flat_name lineage nm) false).
  { right. split; [now destruct lineage|]. now split. }
  clear Hcall En. revert t H.
  induction kids as [|k kids IHk]; intros t H.
  - now injection H as <-.
  - destruct (_register_parameter t k (flat_name lineage nm) false) as [t1|] eqn:E1;
      cbn [bind] in H; [|discriminate].
    rewrite record_all_app.
    rewrite <- (IH k (or_introl eq_refl) _ _ _ _ _ Hsub E1).
    apply IHk; [|exact H].
    intros k' Hk'. apply IH. now right.
Qed.

Lemma register_all_entries (kids : list Element) (t t' : dict (list ini_value)) :
  register_all t kids = Ok t' ->
  t' = record_all t (flat_map (entries []) kids).
Proof.
  revert t. induction kids as [|k kids IH]; intros t H; simpl in H.
  - now injection H as <-.
  - destruct (_register_parameter t k "-" true) as [t1|] eqn:E1; simpl in H; [|discriminate].
    simpl. rewrite record_all_app.
    rewrite <- (register_parameter_entries k [] "-" true t t1); auto.
    left. auto.
Qed.

Lemma find_skip (t : string) (before : list Element) (e : Element) (after : list Element) :
  (forall b, In b before -> tag b <> t) ->
  tag e = t ->
  List.find (fun c => (tag c =? t)%string) (before ++ e :: after) = Some e.
Proof.
  intros Hb He. induction before as [|b before IH]; simpl.
  - now rewrite He, String.eqb_refl.
  - destruct (tag b =? t)%string eqn:E.
    + apply String.eqb_eq in E. now destruct (Hb b (or_introl eq_refl)).
    + apply IH. intros b' Hb'. apply Hb. now right.
Qed.

Lemma read_ini_table (root : Element) (table : dict (list ini_value))
    (command_line : list ini_value) :
  read_ini root = Ok (table, command_line) ->
  exists parameters,
    value_tree root = Some parameters /\
    table = record_all [] (flat_map (entries []) (children parameters)).
Proof.
  unfold read_ini, value_tree. intros H.
  destruct (tag root =? "PARAMETERS")%string.
  - cbn [bind] in H.
    destruct (find root "NODE") as [top|]; cbn [bind of_option] in H; [|discriminate].
    destruct (find top "NODE") as [parameters|]; cbn [bind of_option] in H; [|discriminate].
    destruct (register_all [] (children parameters)) as [t|] eqn:E; cbn [bind] in H;
      [|discriminate].
    injection H as <- _. exists parameters. split; [reflexivity|].
    now apply register_all_entries.
  - destruct (find root "PARAMETERS") as [param_root|]; cbn [bind of_option] in H;
      [|discriminate].
    destruct (find param_root "NODE") as [top|]; cbn [bind of_option] in H; [|discriminate].
    destruct (find top "NODE") as [parameters|]; cbn [bind of_option] in H; [|discriminate].
    destruct (register_all [] (children parameters)) as [t|] eqn:E; cbn [bind] in H;
      [|discriminate].
    injection H as <- _. exists parameters. split; [reflexivity|].
    now apply register_all_entries.
Qed.

(** C8.  Loading a parameter document builds the flat table by recording,
    in document order, what each leaf of the value tree contributes under
    its flat name (a dash, then the colon-joined names of the enclosing
    groups and of the leaf): a boolean item contributes an entry, the flag
    sentinel, only when its [value] is the string [true]; a list item
    contributes the values of its elements in order; any other item
    contributes the one-element sequence of its value.  A document whose
    root is the [PARAMETERS] element and a document that wraps the same
    element in a tool element load alike. *)
Theorem C8_document_load :
  (forall root table command_line,
      read_ini root = Ok (table, command_line) ->
      exists parameters,
        value_tree root = Some parameters /\
        table = record_all [] (flat_map (entries []) (children parameters))) /\
  (forall lineage a x kids,
      let e := mkElement "ITEM" a x kids in
      attr e "type" = "boolean" ->
      (attr e "value" = "true" ->
       entries lineage e = [(flat_name lineage (attr e "name"), [ITrue])]) /\
      (attr e "value" <> "true" -> entries lineage e = [])) /\
  (forall lineage a x kids,
      let e := mkElement "ITEM" a x kids in
      attr e "type" <> "boolean" ->
      entries lineage e = [(flat_name lineage (attr e "name"), [IStr (attr e "value")])]) /\
  (forall lineage a x kids,
      let e := mkElement "ITEMLIST" a x kids in
      entries lineage e =
      [(flat_name lineage (attr e "name"), map (fun k => IStr (attr k "value")) kids)]) /\
  (forall wrapper a x before params after,
      wrapper <> "PARAMETERS" ->
      tag params = "PARAMETERS" ->
      (forall b, In b before -> tag b <> "PARAMETERS") ->
      read_ini (mkElement wrapper a x (before ++ params :: after)) = read_ini params).
Proof.
  split; [exact read_ini_table|]. split; [|split; [|split]].
  - intros lineage a x kids e Hty. subst e. simpl. unfold attr in *. simpl in *.
    rewrite Hty. simpl. split.
    + now intros ->.
    + intros Hv. apply String.eqb_neq in Hv. now rewrite Hv.
  - intros lineage a x kids e Hty. subst e. simpl. unfold attr in *. simpl in *.
    apply String.eqb_neq in Hty. now rewrite Hty.
  - reflexivity.
  - intros wrapper a x before params after Hw Hp Hb. unfold read_ini.
    cbn [tag]. apply String.eqb_neq in Hw. rewrite Hw.
    unfold find at 1. cbn [children]. rewrite (find_skip _ before params after Hb Hp).
    now rewrite Hp.
Qed.

(** ** Saving and loading *)



Lemma xml_node_group (g : string) (p : option group_ref) (d : string)
    (arguments : dict node) :
  xml_node (Group (GroupRef g p) d arguments)
  = xml_children arguments
      (mkElement "NODE" [("name", g); ("description", d)] None []).
Proof.
  cbn [xml_node]. generalize (mkElement "NODE" [("name", g); ("description", d)] None []).
  induction arguments as [|[k a] arguments IH]; intros top; [reflexivity|].
  cbn [xml_children]. destruct (xml_node a); cbn [bind]; [apply IH | reflexivity].
Qed.


Lemma xml_children_shape (args : dict node) :
  forall top r,
    xml_children args top = Ok r ->
    exists es,
      r = mkElement (tag top) (attrib top) (text top) (children top ++ es) /\
      Forall2 (fun kn e => xml_node (snd kn) = Ok e) args es.
Proof.
  induction args as [|[k a] args IH]; intros top r H; cbn [xml_children] in H.
  - injection H as <-. exists []. rewrite app_nil_r. split; [now destruct top | constructor].
  - destruct (xml_node a) as [e|] eqn:E; cbn [bind] in H; [|discriminate].
    destruct (IH _ _ H) as (es & -> & Hes). exists (e :: es). split.
    + destruct top; simpl. now rewrite <- app_assoc.
    + constructor; assumption.
Qed.

Lemma items_group (self : group_ref) (d : string) (arguments : dict node) :
  items (Group self d arguments) = flat_map (fun kn => items (snd kn)) arguments.
Proof.
  cbn [items]. induction arguments as [|[k a] arguments IH]; [reflexivity|].
  cbn [flat_map snd]. now rewrite IH.
Qed.


Lemma store_call_value_group (self : group_ref) (d : string) (arguments : dict node)
    (call_dict : dict pyval) :
  store_call_value (Group self d arguments) call_dict
  = Group self d (map (fun kn => (fst kn, store_call_value (snd kn) call_dict)) arguments).
Proof.
  cbn [store_call_value]. f_equal.
  induction arguments as [|[k a] arguments IH]; [reflexivity|].
  cbn [map fst snd]. now rewrite IH.
Qed.



Lemma add_text_elements_shape (names : list string) (optional : dict string) :
  forall tool,
    exists extra,
      add_text_elements names optional tool
      = mkElement (tag tool) (attrib tool) (text tool) (children tool ++ extra) /\
      forall c, In c extra -> In (tag c) names.
Proof.
  induction names as [|oo names IH]; intros tool; cbn [add_text_elements].
  - exists []. rewrite app_nil_r. split; [now destruct tool | intros ? []].
  - destruct (dict_get optional oo) as [v|].
    + destruct (IH (append_child tool (mkElement oo [] (Some v) []))) as (extra & -> & Hx).
      exists (mkElement oo [] (Some v) [] :: extra). split.
      * destruct tool; simpl. now rewrite <- app_assoc.
      * intros c [<- | Hc]; [now left | right; auto].
    + destruct (IH tool) as (extra & -> & Hx). exists extra. split; [reflexivity|].
      intros c Hc. right. auto.
Qed.


Lemma choices_that_do_not_join (i : ArgumentItem) (call_dict : dict pyval)
    (cs : list scalar) (e : exn) :
  choices i = Some cs ->
  join_scalars "," cs = Raise e ->
  item_xml_node (item_store_call_value i call_dict) = Raise e.
Proof.
  intros Hc Hj. unfold item_store_call_value.
  destruct (dict_get call_dict (param_commandline_name i));
    unfold item_xml_node; cbn [choices set_call_value]; rewrite Hc, Hj; reflexivity.
Qed.

(** C1.  A tool that declares the integer parameter [n] with the choices
    1 and 2 and the default 1 is accepted by the constructor, but its tree
    cannot be serialised, whatever call values are stored in it:
    [xml_node] raises [TypeError] when it joins the choices, which the
    constructor has converted to integers.  No document is produced, so
    nothing can be loaded back. *)
Theorem C1_typed_choices_cannot_be_saved :
  exists tool,
    declared_tool "tool" "1.0" [Add "n" (int_param 1 (Some [1; 2]))] = Some tool /\
    forall (call_dict : dict pyval) (with_logging : bool) (now : string),
      generate_ctd_tree (with_call_values tool call_dict) with_logging now
      = Raise TypeError.
Proof.
  eexists. split; [reflexivity|].
  intros call_dict with_logging now.
  unfold with_call_values, generate_ctd_tree. cbn.
  rewrite (choices_that_do_not_join _ call_dict [SInt 1; SInt 2] TypeError)
    by reflexivity.
  destruct with_logging; reflexivity.
Qed.

(** ** Precedence *)

Lemma dict_get_set {V : Type} (d : dict V) (k : string) (v : V) :
  dict_get (dict_set d k v) k = Some v.
Proof.
  induction d as [|[k0 v0] d IH]; simpl.
  - now rewrite String.eqb_refl.
  - destruct (k0 =? k)%string eqn:E; simpl.
    + now rewrite String.eqb_refl.
    + now rewrite E.
Qed.

Lemma scan_app (p : ArgumentParser) (st : parse_state) (a b : list string) :
  scan p st (a ++ b) = (st' <- scan p st a ;; scan p st' b).
Proof.
  revert st. induction a as [|tok a IH]; intros st; [reflexivity|].
  cbn [app scan]. destruct (step p st tok); cbn [bind]; [apply IH | reflexivity].
Qed.

(** The parser reads the token list left to right, and a store action
    replaces what is held under its destination: whatever tokens come
    first, an option followed by a value at the end of the list leaves
    that value in the namespace. *)
Lemma later_token_wins (p : ArgumentParser) (st st1 st1' : parse_state)
    (earlier : list string) (flag tok : string) (a : action) (v : scalar)
    (w : list string) :
  scan p st earlier = Ok st1 ->
  close st1 = Ok st1' ->
  classify p flag = Option_ a ->
  kind a = Store None ->
  classify p tok = Argument ->
  get_value a tok = Ok (v, w) ->
  check_value a v = Ok tt ->
  exists st2,
    scan p st (earlier ++ [flag; tok]) = Ok st2 /\
    pend st2 = Idle /\
    dict_get (namespace st2) (dest a) = Some (PScalar v).
Proof.
  intros Hscan Hclose Hflag Hkind Htok Hval Hchk.
  rewrite scan_app, Hscan. cbn [bind scan]. unfold step at 1.
  rewrite Hflag, Hclose. cbn [bind]. rewrite Hkind. cbn [bind]. unfold step.
  rewrite Htok. cbn [pend with_pend]. rewrite Hval. cbn [bind]. rewrite Hchk. cbn [bind].
  eexists. split; [reflexivity|]. split; [reflexivity|].
  cbn [namespace take]. apply dict_get_set.
Qed.

(** The token list handed to the regular parser starts with the tokens
    made from the loaded document and ends with the literal ones. *)
Lemma final_args_order (from_ini : list ini_value) (rest : list string) :
  exists tail, final_args from_ini rest = (from_ini ++ tail)%list /\
               mapM token_string tail = Ok rest.
Proof.
  exists (map IStr rest). split; [reflexivity|].
  induction rest as [|r rest IH]; [reflexivity|].
  cbn [map mapM token_string bind]. now rewrite IH.
Qed.

(** C2.  A tool declares the integer parameter [a-b] with default 0.  A
    document saved from it with the value 1 loads as the tokens [-a-b 1].
    Calling [parse_args] with that document as [--input_ctd] and the
    literal tokens [-a-b 2] returns, and the parser has let the later
    token win, but it holds the value under the destination [a_b]; the
    item looks its value up under [a-b], so no call value is stored in
    it. *)
Theorem C2_dashed_name_is_not_stored :
  exists tool saved doc,
    declared_tool "tool" "1.0" [Add "a-b" (int_param 0 None)] = Some tool /\
    generate_ctd_tree (with_call_values tool [("a-b", PScalar (SInt 1))]) false "t0"
      = Ok saved /\
    tool_xml_node saved = Some doc /\
    option_map snd (match read_ini doc with Ok r => Some r | Raise _ => None end)
      = Some [IStr "-a-b"; IStr "1"] /\
    exists self' w',
      parse_args tool (world_with_file "in.ctd" doc) "t1"
        ["--input_ctd"; "in.ctd"; "-a-b"; "2"]
      = Ok (Returned self' w' [("a_b", PScalar (SInt 2))] []) /\
      map call_value (items (main_node self')) = [None].
Proof.
  eexists. eexists. eexists.
  split; [vm_compute; reflexivity|].
  split; [vm_compute; reflexivity|].
  split; [vm_compute; reflexivity|].
  split; [vm_compute; reflexivity|].
  eexists. eexists.
  split; vm_compute; reflexivity.
Qed.

(** The same run with a parameter named [p]: the literal token wins over
    the loaded document and the value 2 is stored in the item. *)
Example precedence_on_plain_name :
  exists tool saved doc,
    declared_tool "tool" "1.0" [Add "p" (int_param 0 None)] = Some tool /\
    generate_ctd_tree (with_call_values tool [("p", PScalar (SInt 1))]) false "t0"
      = Ok saved /\
    tool_xml_node saved = Some doc /\
    option_map snd (match read_ini doc with Ok r => Some r | Raise _ => None end)
      = Some [IStr "-p"; IStr "1"] /\
    exists self' w',
      parse_args tool (world_with_file "in.ctd" doc) "t1"
        ["--input_ctd"; "in.ctd"; "-p"; "2"]
      = Ok (Returned self' w' [("p", PScalar (SInt 2))] []) /\
      map call_value (items (main_node self')) = [Some (PScalar (SInt 2))].
Proof.
  eexists. eexists. eexists.
  split; [vm_compute; reflexivity|].
  split; [vm_compute; reflexivity|].
  split; [vm_compute; reflexivity|].
  split; [vm_compute; reflexivity|].
  eexists. eexists.
  split; vm_compute; reflexivity.
Qed.

(** ** More on restrictions *)

(** X1.  The numeric-range checker fails exactly when the conversion of
    the value fails.  When it returns, it returns the converted value and
    issues one warning for each bound the value violates: none for a value
    inside the range, and none on account of a bound that is absent. *)
Theorem is_in_range_exact (self : _NumericRange) (value : pyval) :
  raises (is_in_range self value) = raises (call_type (n_type self) value) /\
  forall v ws,
    is_in_range self value = Ok (v, ws) ->
    call_type (n_type self) value = Ok v /\
    length ws
    = ((if below_minimum self v then 1 else 0) + (if above_maximum self v then 1 else 0))%nat /\
    (ws = [] <-> below_minimum self v = false /\ above_maximum self v = false).
Proof.
  unfold is_in_range, below_minimum, above_maximum.
  destruct (call_type (n_type self) value) as [x|e]; cbn [bind raises];
    [|split; [reflexivity | discriminate]].
  split; [reflexivity|]. intros v ws H. injection H as <- <-.
  split; [reflexivity|].
  destruct (n_min self) as [lo|]; [destruct (py_lt x lo)|];
    (destruct (n_max self) as [hi|]; [destruct (py_gt x hi)|]);
    cbn; (split; [reflexivity|]); split; intros H; try reflexivity; try discriminate;
    try (split; reflexivity); destruct H; discriminate.
Qed.

(** ** More on declarations *)

Lemma call_type_has_type (t : ptype) (v : pyval) (x : scalar) :
  call_type t v = Ok x -> has_type t x = true.
Proof.
  destruct t; simpl.
  - destruct v as [|[n|f|s|b]|l]; try discriminate; simpl.
    + now intros [= <-].
    + destruct (int_of_float f); simpl; [now intros [= <-] | discriminate].
    + destruct (int_of_str s); simpl; [now intros [= <-] | discriminate].
    + now intros [= <-].
  - destruct v as [|[n|f|s|b]|l]; try discriminate; simpl.
    + destruct (float_of_int n); simpl; [now intros [= <-] | discriminate].
    + now intros [= <-].
    + destruct (float_of_str s); simpl; [now intros [= <-] | discriminate].
    + destruct (float_of_int (Z.b2z b)); simpl; [now intros [= <-] | discriminate].
  - now intros [= <-].
  - now intros [= <-].
Qed.

Lemma map_type_has_type (t : ptype) (v : pyval) (l : list scalar) :
  map_type t v = Ok l -> forallb (has_type t) l = true.
Proof.
  unfold map_type. destruct (py_iter v) as [ds|]; cbn [bind]; [|discriminate].
  revert l. induction ds as [|d ds IH]; intros l H; cbn [mapM] in H.
  - now injection H as <-.
  - destruct (call_type t (PScalar d)) as [x|] eqn:E; cbn [bind] in H; [|discriminate].
    destruct (mapM _ ds) as [xs|]; cbn [bind] in H; [|discriminate].
    injection H as <-. simpl. now rewrite (call_type_has_type _ _ _ E), (IH xs eq_refl).
Qed.

(** What the constructor returns, read off its body: the item as it is
    before the restriction is attached. *)
Lemma ArgumentItem_init_inv (nm : string) (self : group_ref) (kw : kwargs)
    (i : ArgumentItem) :
  ArgumentItem_init nm self kw = Ok i ->
  name i = nm /\ parent i = self /\ call_value i = None /\
  type i = declared_type kw /\ is_list i = declared_list kw /\
  default_conforms (type i) (is_list i) (default i) = true /\
  match choices i with Some l => forallb (has_type (type i)) l = true | None => True end /\
  (if ptype_eqb (type i) Tbool
   then is_list i = false /\ required i = false /\ default i = PScalar (SBool false)
   else required i = declared_required kw /\
        (required i = true <-> default i = PNone)).
Proof.
  unfold ArgumentItem_init, declared_type, declared_list, declared_required.
  set (ty := kwargs_get (kw_type kw) Tstr).
  set (il := kwargs_get (kw_is_list kw) false).
  destruct (match kwargs_get (kw_default kw) PNone with PNone => _ | _ => _ end)
    as [df|] eqn:Ed; cbn [bind]; [|discriminate].
  assert (Hdf : default_conforms ty il df = true).
  { destruct (kwargs_get (kw_default kw) PNone) as [|v|l] eqn:Ek.
    - now injection Ed as <-.
    - destruct il.
      + destruct (map_type ty (PScalar v)) as [xs|] eqn:Em; cbn [bind] in Ed; [|discriminate].
        injection Ed as <-. simpl. now apply map_type_has_type in Em.
      + destruct (call_type ty (PScalar v)) as [x|] eqn:Ec; cbn [bind] in Ed; [|discriminate].
        injection Ed as <-. simpl. now apply call_type_has_type in Ec.
    - destruct il.
      + destruct (map_type ty (PList l)) as [xs|] eqn:Em; cbn [bind] in Ed; [|discriminate].
        injection Ed as <-. simpl. now apply map_type_has_type in Em.
      + destruct (call_type ty (PList l)) as [x|] eqn:Ec; cbn [bind] in Ed; [|discriminate].
        injection Ed as <-. simpl. now apply call_type_has_type in Ec. }
  destruct (match kwargs_get (kw_choices kw) PNone with PNone => _ | _ => _ end)
    as [ch|] eqn:Ech; cbn [bind]; [|discriminate].
  assert (Hch : match ch with Some l => forallb (has_type ty) l = true | None => True end).
  { destruct (kwargs_get (kw_choices kw) PNone) as [|v|l].
    - now injection Ech as <-.
    - destruct (map_type ty (PScalar v)) as [xs|] eqn:Em; cbn [bind] in Ech; [|discriminate].
      injection Ech as <-. now apply map_type_has_type in Em.
    - destruct (map_type ty (PList l)) as [xs|] eqn:Em; cbn [bind] in Ech; [|discriminate].
      injection Ech as <-. now apply map_type_has_type in Em. }
  destruct (ptype_eqb ty Tbool) eqn:Ety.
  - destruct il eqn:Eil; cbn [Bool.eqb py_assert bind]; [discriminate|].
    destruct (match kw_num_range kw with Some _ => _ | None => _ end);
      cbn [bind]; [|discriminate].
    intros H. injection H as <-. cbn. rewrite Ety.
    apply ptype_eqb_eq in Ety. rewrite Ety. repeat split; auto.
    rewrite <- Ety. exact Hch.
  - cbn [bind].
    destruct (kwargs_get (kw_required kw) false) eqn:Erq;
      (destruct df as [|v|l]; cbn [py_assert bind]; try discriminate);
      (destruct (match kw_num_range kw with Some _ => _ | None => _ end);
       cbn [bind]; [|discriminate]);
      intros H; injection H as <-; cbn; rewrite Ety;
      repeat split; auto; try discriminate; try (intros; discriminate).
Qed.

(** X2.  An item that the constructor returns keeps the invariant its
    comment states: a default exists if and only if the parameter is not
    required.  A flag is always optional, never a list, and defaults to
    false, whatever was declared.  The item carries the given name and
    parent and has no call value yet. *)
Theorem ArgumentItem_init_invariant (nm : string) (self : group_ref) (kw : kwargs)
    (i : ArgumentItem) :
  ArgumentItem_init nm self kw = Ok i ->
  name i = nm /\ parent i = self /\ call_value i = None /\
  (required i = true <-> default i = PNone) /\
  (type i = Tbool ->
   is_list i = false /\ required i = false /\ default i = PScalar (SBool false)).
Proof.
  intros H. destruct (ArgumentItem_init_inv nm self kw i H)
    as (Hn & Hp & Hc & _ & _ & _ & _ & Hshape).
  split; [exact Hn|]. split; [exact Hp|]. split; [exact Hc|].
  destruct (ptype_eqb (type i) Tbool) eqn:E.
  - destruct Hshape as (Hl & Hr & Hd). split.
    + rewrite Hr, Hd. split; discriminate.
    + auto.
  - destruct Hshape as (_ & Hiff). split; [exact Hiff|].
    intros Ht. apply ptype_eqb_eq in Ht. congruence.
Qed.

(** X3.  The constructor returns only well-typed items: the default is a
    single value of the declared type for a scalar parameter and a list of
    such values for a list parameter, and every choice is a value of the
    declared type. *)
Theorem ArgumentItem_init_typed (nm : string) (self : group_ref) (kw : kwargs)
    (i : ArgumentItem) :
  ArgumentItem_init nm self kw = Ok i ->
  type i = declared_type kw /\
  match default i with
  | PNone => True
  | PScalar v => is_list i = false /\ has_type (type i) v = true
  | PList l => is_list i = true /\ forall v, In v l -> has_type (type i) v = true
  end /\
  forall l, choices i = Some l -> forall v, In v l -> has_type (type i) v = true.
Proof.
  intros H. destruct (ArgumentItem_init_inv nm self kw i H)
    as (_ & _ & _ & Ht & _ & Hd & Hc & _).
  split; [exact Ht|]. split.
  - unfold default_conforms in Hd. destruct (default i) as [|v|l]; [exact I| |].
    + apply andb_true_iff in Hd as [Hl Hv]. apply negb_true_iff in Hl. now split.
    + apply andb_true_iff in Hd as [Hl Hv]. split; [exact Hl|].
      now apply forallb_forall.
  - intros l Hl. rewrite Hl in Hc. now apply forallb_forall.
Qed.

(** ** Registering arguments *)

(** X4.  Registering a constructed item with a parser has exactly three
    ways to fail, tried in this order: the option string consists of
    dashes only ([ValueError]); the item is a flag that declares choices,
    which a [store_true] action does not take ([TypeError]); the option
    string is already registered ([ArgumentError]).  Otherwise the
    parser gains one action, last in its list, that stores under the
    destination derived from the option string, with the item's choices,
    default and required mark; a list takes one or more values, a flag
    none. *)
Theorem item_append_argument_exact (nm : string) (self : group_ref) (kw : kwargs)
    (i : ArgumentItem) (p : ArgumentParser) :
  ArgumentItem_init nm self kw = Ok i ->
  item_append_argument i p =
  if (lstrip_dashes (flag_of i) =? EmptyString)%string then Raise ValueError
  else if ptype_eqb (type i) Tbool && is_some (choices i) then Raise TypeError
  else if existsb (fun a => (option_string a =? flag_of i)%string) (actions p)
  then Raise (ArgumentError ("conflicting option string: " ++ flag_of i))
  else Ok {| actions := (actions p ++ [registered_action i])%list; titles := titles p |}.
Proof.
  intros H. destruct (ArgumentItem_init_inv nm self kw i H)
    as (_ & _ & _ & _ & _ & _ & _ & Hshape).
  unfold item_append_argument, add_argument, registered_action. fold (flag_of i).
  destruct (lstrip_dashes (flag_of i) =? EmptyString)%string; cbn [bind]; [reflexivity|].
  unfold argparse_call.
  cbn [kws_action kws_nargs kws_type kws_choices kws_metavar kws_default kws_required].
  destruct (ptype_eqb (type i) Tbool) eqn:Ety.
  - destruct Hshape as (Hl & Hr & Hd). rewrite Hl, Hd.
    simpl String.eqb. cbn [is_some orb andb bind].
    destruct (choices i) as [cs|]; cbn [is_some orb bind]; [reflexivity|].
    destruct (existsb _ (actions p)); reflexivity.
  - cbn [andb bind].
    destruct (existsb _ (actions p)); [reflexivity|].
    destruct (default i); reflexivity.
Qed.

Lemma append_argument_group (g : string) (q : option group_ref) (d : string)
    (arguments : dict node) (p : ArgumentParser) :
  append_argument (Group (GroupRef g q) d arguments) p
  = append_children arguments (add_argument_group p g d).
Proof.
  cbn [append_argument]. generalize (add_argument_group p g d).
  induction arguments as [|[k a] arguments IH]; intros p0; [reflexivity|].
  cbn [append_children]. destruct (append_argument a p0); cbn [bind];
    [apply IH | reflexivity].
Qed.

Lemma add_argument_flags (p p' : ArgumentParser) (flag : string) (kws : argparse_kws) :
  add_argument p flag kws = Ok p' ->
  map option_string (actions p') = (map option_string (actions p) ++ [flag])%list /\
  ~ In flag (map option_string (actions p)).
Proof.
  unfold add_argument.
  destruct (if (lstrip_dashes flag =? EmptyString)%string then _ else _);
    cbn [bind]; [|discriminate].
  destruct (match kws_action kws with Some _ => _ | None => _ end) as [k|];
    cbn [bind]; [|discriminate].
  destruct (existsb _ (actions p)) eqn:E; [discriminate|].
  intros H. injection H as <-. cbn [actions]. split.
  - now rewrite map_app.
  - intros Hin. apply in_map_iff in Hin as (a0 & Ha & Hin).
    assert (existsb (fun a => (option_string a =? flag)%string) (actions p) = true).
    { apply existsb_exists. exists a0. split; [exact Hin|]. now apply String.eqb_eq. }
    congruence.
Qed.

Lemma append_argument_flags (n : node) :
  forall p p',
    append_argument n p = Ok p' ->
    map option_string (actions p')
    = (map option_string (actions p) ++ map flag_of (items n))%list /\
    (NoDup (map option_string (actions p)) -> NoDup (map option_string (actions p'))).
Proof.
  induction n as [i | [g q] d arguments IH] using node_induction; intros p p' H.
  - cbn [append_argument] in H. unfold item_append_argument in H.
    apply add_argument_flags in H as [Hf Hn]. cbn [items map]. split; [exact Hf|].
    intros Hnd. rewrite Hf. apply NoDup_app; [exact Hnd | repeat constructor; easy |].
    intros x Hx [<- | []]. contradiction.
  - rewrite append_argument_group in H. rewrite items_group.
    assert (Ha : map option_string (actions (add_argument_group p g d))
                 = map option_string (actions p)) by reflexivity.
    rewrite <- Ha. clear Ha. revert H. generalize (add_argument_group p g d). clear p.
    induction arguments as [|[k a] arguments IHa]; intros p H; cbn [append_children] in H.
    + injection H as <-. cbn [flat_map map]. rewrite app_nil_r. auto.
    + destruct (append_argument a p) as [p1|] eqn:E1; cbn [bind] in H; [|discriminate].
      destruct (IH k a (or_introl eq_refl) p p1 E1) as [Hf1 Hn1].
      destruct (IHa (fun k' n' Hin => IH k' n' (or_intror Hin)) p1 H) as [Hf2 Hn2].
      cbn [flat_map snd]. split.
      * now rewrite Hf2, Hf1, map_app, app_assoc.
      * auto.
Qed.

(** X5.  When a parameter tree registers with a fresh parser, the parser
    holds, after its two help options, one option string per item, in
    declaration order: a dash followed by the item's command-line name.
    All option strings are different, so no two items of a registered
    tree share a command-line name and none is called [-h] or [--help]. *)
Theorem append_argument_registers (n : node) (p : ArgumentParser) :
  append_argument n new_parser = Ok p ->
  map option_string (actions p) = ("-h" :: "--help" :: map flag_of (items n))%list /\
  NoDup (map flag_of (items n)) /\
  ~ In "-h" (map flag_of (items n)) /\
  ~ In "--help" (map flag_of (items n)).
Proof.
  intros H. destruct (append_argument_flags n new_parser p H) as [Hf Hn].
  split; [exact Hf|].
  assert (Hnd : NoDup ("-h" :: "--help" :: map flag_of (items n))%list).
  { change ("-h" :: "--help" :: map flag_of (items n))%list
      with (map option_string (actions new_parser) ++ map flag_of (items n))%list.
    rewrite <- Hf. apply Hn. cbn. repeat constructor; simpl; intuition discriminate. }
  inversion Hnd as [|x l Hh Hnd']; subst. inversion Hnd' as [|x l Hhelp Hnd'']; subst.
  split; [exact Hnd''|]. split.
  - intros Hin. apply Hh. now right.
  - exact Hhelp.
Qed.

(** ** Declaring a tree *)

Lemma keys_dict_set {V : Type} (d : dict V) (k : string) (v : V) :
  map fst (dict_set d k v)
  = if dict_in k d then map fst d else (map fst d ++ [k])%list.
Proof.
  unfold dict_in. induction d as [|[k0 v0] d IH]; simpl; [reflexivity|].
  destruct (k0 =? k)%string eqn:E; simpl.
  - apply String.eqb_eq in E. now subst.
  - rewrite IH. now destruct (dict_get d k).
Qed.

Lemma dict_in_keys {V : Type} (d : dict V) (k : string) :
  dict_in k d = true <-> In k (map fst d).
Proof.
  unfold dict_in. induction d as [|[k0 v0] d IH]; simpl.
  - split; [discriminate | intros []].
  - destruct (k0 =? k)%string eqn:E.
    + apply String.eqb_eq in E. split; auto.
    + apply String.eqb_neq in E. rewrite IH. split; [auto | intros [? | ?]; congruence].
Qed.

Lemma NoDup_dict_set {V : Type} (d : dict V) (k : string) (v : V) :
  NoDup (map fst d) -> NoDup (map fst (dict_set d k v)).
Proof.
  intros H. rewrite keys_dict_set. destruct (dict_in k d) eqn:E; [exact H|].
  apply NoDup_app; [exact H | repeat constructor; easy |].
  intros x Hx [<- | []]. apply dict_in_keys in Hx. congruence.
Qed.

(** A property of the stored children that [add] and [add_group]
    establish for the child they store is kept by every sequence of
    calls. *)
Lemma declare_all_keeps (Q : dict node -> Prop) (self : group_ref)
    (step : decl -> dict node -> result (dict node * list string))
    (calls : list decl) :
  (forall c, In c calls ->
     forall args args' w, Q args -> step c args = Ok (args', w) -> Q args') ->
  forall args args' w,
    Q args -> declare_all step calls args = Ok (args', w) -> Q args'.
Proof.
  induction calls as [|c calls IH]; intros Hstep args args' w Hargs H; simpl in H.
  - now injection H as <- _.
  - destruct (step c args) as [[a1 w1]|] eqn:E1; simpl in H; [|discriminate].
    destruct (declare_all step calls a1) as [[a2 w2]|] eqn:E2; simpl in H; [|discriminate].
    injection H as <- _.
    apply (IH (fun c' Hc' => Hstep c' (or_intror Hc')) a1 a2 w2); [|exact E2].
    apply (Hstep c (or_introl eq_refl) args a1 w1 Hargs E1).
Qed.

Lemma keyed_nil : keyed [].
Proof. split; [constructor | intros ? ? []]. Qed.

Lemma keyed_dict_set (args : dict node) (k : string) (n : node) :
  keyed args -> node_name n = k -> well_keyed n -> keyed (dict_set args k n).
Proof.
  intros [Hnd Hall] Hn Hw. split; [now apply NoDup_dict_set|].
  intros k' n' Hin. apply In_dict_set in Hin as [[-> ->] | Hin]; auto.
Qed.

Lemma declare1_keyed (call : decl) :
  forall self args args' w,
    keyed args -> declare1 self call args = Ok (args', w) -> keyed args'.
Proof.
  induction call as [nm kw | nm d body IH] using decl_induction;
    intros self args args' w Hargs H; simpl in H.
  - destruct (ArgumentItem_init nm self kw) as [i|] eqn:E; simpl in H; [|discriminate].
    injection H as <- _. apply keyed_dict_set; [exact Hargs | | constructor].
    now apply ArgumentItem_init_fields in E.
  - destruct (declare_all _ body []) as [[sub w1]|] eqn:E; simpl in H; [|discriminate].
    injection H as <- _. apply keyed_dict_set; [exact Hargs | reflexivity |].
    assert (Hsub : keyed sub).
    { apply (declare_all_keeps keyed (GroupRef nm (Some self))
               (declare1 (GroupRef nm (Some self))) body) with (args := []) (w := w1);
        [| exact keyed_nil | exact E].
      intros c Hc a a' w' Ha Hs. exact (IH c Hc _ _ _ _ Ha Hs). }
    destruct Hsub as [Hnd Hall]. now constructor.
Qed.

(** X6.  Whatever sequence of [add] and [add_group] calls declares a
    tree, every group of the tree holds at most one child per name, and
    each child sits under the name it was declared with: a second
    declaration of a name replaces the first instead of adding to it. *)
Theorem declare_well_keyed (self : group_ref) (calls : list decl) (arguments : dict node)
    (w : list string) (d : string) :
  declare self calls [] = Ok (arguments, w) ->
  well_keyed (Group self d arguments).
Proof.
  unfold declare. intros H.
  assert (Hk : keyed arguments).
  { apply (declare_all_keeps keyed self (declare1 self) calls) with (args := []) (w := w);
      [| exact keyed_nil | exact H].
    intros c _ a a' w' Ha Hs. exact (declare1_keyed c _ _ _ _ Ha Hs). }
  destruct Hk as [Hnd Hall]. now constructor.
Qed.

Lemma distinctly_named_iff (calls : list decl) :
  distinctly_named calls <->
  NoDup (map call_name calls) /\ forall c, In c calls -> body_distinct c.
Proof.
  split.
  - intros [calls' Hnd Hb]. split; [exact Hnd|].
    intros [nm kw | nm d body] Hc; simpl; [exact I | eauto].
  - intros [Hnd Hb]. constructor; [exact Hnd|].
    intros nm d body Hin. exact (Hb _ Hin).
Qed.

Lemma In_keys_dict_set {V : Type} (d : dict V) (k : string) (v : V) (x : string) :
  In x (map fst (dict_set d k v)) <-> In x (map fst d) \/ x = k.
Proof.
  rewrite keys_dict_set. destruct (dict_in k d) eqn:E.
  - apply dict_in_keys in E. split; [auto | intros [? | ->]; auto].
  - rewrite in_app_iff. simpl. intuition.
Qed.

Lemma declare_all_effect (calls : list decl) :
  (forall c, In c calls -> call_effect c) ->
  forall self args args' w,
    declare_all (declare1 self) calls args = Ok (args', w) ->
    (w = [] <->
     NoDup (map call_name calls) /\
     (forall c, In c calls -> ~ In (call_name c) (map fst args)) /\
     (forall c, In c calls -> body_distinct c)).
Proof.
  induction calls as [|c calls IH]; intros Hall self args args' w H; simpl in H.
  - injection H as _ <-. split; [|reflexivity]. intros _.
    split; [constructor|]. split; intros ? [].
  - destruct (declare1 self c args) as [[a1 w1]|] eqn:E1; simpl in H; [|discriminate].
    destruct (declare_all _ calls a1) as [[a2 w2]|] eqn:E2; simpl in H; [|discriminate].
    injection H as _ <-.
    destruct (Hall c (or_introl eq_refl) self args a1 w1 E1) as [Hw1 Hk1].
    pose proof (IH (fun c' Hc' => Hall c' (or_intror Hc')) self a1 a2 w2 E2) as Hw2.
    split.
    + intros Hw. apply app_eq_nil in Hw as [-> ->].
      destruct (proj1 Hw1 eq_refl) as [Hc Hb].
      destruct (proj1 Hw2 eq_refl) as (Hnd & Hfresh & Hbs).
      split; [|split].
      * simpl. constructor; [|exact Hnd]. intros Hin.
        apply in_map_iff in Hin as (c' & Hn & Hc').
        apply (Hfresh c' Hc'). apply Hk1. right. exact Hn.
      * intros c' [<- | Hc']; [exact Hc|]. intros Hin.
        apply (Hfresh c' Hc'). apply Hk1. now left.
      * intros c' [<- | Hc']; auto.
    + intros (Hnd & Hfresh & Hbs). simpl in Hnd. inversion Hnd as [|x l Hx Hnd']; subst.
      rewrite (proj2 Hw1 (conj (Hfresh c (or_introl eq_refl)) (Hbs c (or_introl eq_refl)))).
      rewrite (proj2 Hw2); [reflexivity|].
      split; [exact Hnd'|]. split.
      * intros c' Hc' Hin. apply Hk1 in Hin as [Hin | Hin].
        -- exact (Hfresh c' (or_intror Hc') Hin).
        -- apply Hx. rewrite <- Hin. now apply in_map.
      * intros c' Hc'. apply Hbs. now right.
Qed.

Lemma declare1_effect (c : decl) : call_effect c.
Proof.
  induction c as [nm kw | nm d body IH] using decl_induction;
    intros self args args1 w1 H; simpl in H.
  - destruct (ArgumentItem_init nm self kw) as [i|]; simpl in H; [|discriminate].
    injection H as <- <-. split.
    + simpl. destruct (dict_in nm args) eqn:E.
      * apply dict_in_keys in E. split; [discriminate | intros [? _]; contradiction].
      * split; [|reflexivity]. intros _. split; [|exact I].
        intros Hin. apply dict_in_keys in Hin. congruence.
    + intros x. apply In_keys_dict_set.
  - destruct (declare_all _ body []) as [[sub w0]|] eqn:E; simpl in H; [|discriminate].
    injection H as <- <-.
    pose proof (declare_all_effect body IH _ _ _ _ E) as Hbody.
    split.
    + simpl. rewrite distinctly_named_iff. destruct (dict_in nm args) eqn:Ei.
      * apply dict_in_keys in Ei. split; [discriminate | intros [? _]; contradiction].
      * simpl. rewrite Hbody. split.
        -- intros (Hnd & _ & Hbs). split; [|now split].
           intros Hin. apply dict_in_keys in Hin. congruence.
        -- intros (_ & Hnd & Hbs). split; [exact Hnd|]. split; [|exact Hbs].
           intros ? _ [].
    + intros x. apply In_keys_dict_set.
Qed.

(** X7.  A declaration that succeeds issues no warning exactly when no
    group is asked to declare a name twice, at any depth. *)
Theorem declare_warns_on_duplicates (self : group_ref) (calls : list decl)
    (arguments : dict node) (w : list string) :
  declare self calls [] = Ok (arguments, w) ->
  (w = [] <-> distinctly_named calls).
Proof.
  unfold declare. intros H.
  rewrite (declare_all_effect calls (fun c _ => declare1_effect c) _ _ _ _ H).
  rewrite distinctly_named_iff. split.
  - intros (Hnd & _ & Hbs). now split.
  - intros (Hnd & Hbs). split; [exact Hnd|]. split; [|exact Hbs]. intros ? _ [].
Qed.

Lemma declare_all_app (step : decl -> dict node -> result (dict node * list string))
    (a b : list decl) (args : dict node) :
  declare_all step (a ++ b) args
  = ('(args1, w1) <- declare_all step a args ;;
     '(args2, w2) <- declare_all step b args1 ;;
     Ok (args2, (w1 ++ w2)%list)).
Proof.
  revert args. induction a as [|c a IH]; intros args; cbn [app declare_all].
  - cbn [bind]. destruct (declare_all step b args) as [[a2 w2]|]; reflexivity.
  - destruct (step c args) as [[a1 w1]|]; cbn [bind]; [|reflexivity].
    rewrite IH. destruct (declare_all step a a1) as [[a2 w2]|]; cbn [bind]; [|reflexivity].
    destruct (declare_all step b a2) as [[a3 w3]|]; cbn [bind]; [|reflexivity].
    now rewrite app_assoc.
Qed.

(** X8.  Adding one more parameter to a declared group stores the new
    item under its name.  A name that is new goes last; a name that is
    taken keeps its place, the earlier child is replaced, and one warning
    is issued.  Afterwards the group has the new item under that name. *)
Theorem add_after_declare (self : group_ref) (calls : list decl) (arguments : dict node)
    (w : list string) (nm : string) (kw : kwargs) (i : ArgumentItem) :
  declare self calls [] = Ok (arguments, w) ->
  ArgumentItem_init nm self kw = Ok i ->
  declare self (calls ++ [Add nm kw]) []
  = Ok (dict_set arguments nm (Item i),
        (w ++ (if dict_in nm arguments then [defined_twice] else []))%list) /\
  dict_get (dict_set arguments nm (Item i)) nm = Some (Item i) /\
  map fst (dict_set arguments nm (Item i))
  = (if dict_in nm arguments then map fst arguments else map fst arguments ++ [nm])%list.
Proof.
  unfold declare. intros Hd Hi. split; [|split].
  - rewrite declare_all_app, Hd. cbn [bind declare_all declare1]. rewrite Hi.
    cbn [bind]. now rewrite app_nil_r.
  - apply dict_get_set.
  - apply keys_dict_set.
Qed.

(** ** Storing call values *)

Lemma dict_get_app {V : Type} (a b : dict V) (k : string) :
  dict_get (a ++ b)%list k
  = match dict_get a k with Some v => Some v | None => dict_get b k end.
Proof.
  induction a as [|[k0 v0] a IH]; simpl; [reflexivity|].
  now destruct (k0 =? k)%string.
Qed.

Lemma item_store_twice (i : ArgumentItem) (d1 d2 : dict pyval) :
  item_store_call_value (item_store_call_value i d1) d2
  = item_store_call_value i (d2 ++ d1)%list.
Proof.
  unfold item_store_call_value at 2 3. rewrite dict_get_app.
  destruct (dict_get d1 (param_commandline_name i)) as [v1|] eqn:E1.
  - unfold item_store_call_value.
    change (param_commandline_name (set_call_value i v1)) with (param_commandline_name i).
    destruct (dict_get d2 (param_commandline_name i)); reflexivity.
  - unfold item_store_call_value.
    destruct (dict_get d2 (param_commandline_name i)); reflexivity.
Qed.

Lemma store_call_value_twice (d1 d2 : dict pyval) (n : node) :
  store_call_value (store_call_value n d1) d2 = store_call_value n (d2 ++ d1)%list.
Proof.
  induction n as [i | self d arguments IH] using node_induction.
  - cbn [store_call_value]. now rewrite item_store_twice.
  - rewrite !store_call_value_group. f_equal. rewrite map_map.
    apply map_ext_in. intros [k a] Hin. cbn [fst snd]. f_equal. exact (IH k a Hin).
Qed.

Lemma store_call_value_ext (d1 d2 : dict pyval) (n : node) :
  (forall k, dict_get d1 k = dict_get d2 k) ->
  store_call_value n d1 = store_call_value n d2.
Proof.
  intros Hext. induction n as [i | self d arguments IH] using node_induction.
  - cbn [store_call_value]. unfold item_store_call_value. now rewrite Hext.
  - rewrite !store_call_value_group. f_equal.
    apply map_ext_in. intros [k a] Hin. cbn [fst snd]. f_equal. exact (IH k a Hin).
Qed.

(** X9.  Storing call values twice amounts to storing once the second
    dictionary completed by the first: a name in the second dictionary
    takes its value from there, any other name keeps what the first
    gave.  In particular storing the same dictionary again changes
    nothing, and so does storing an empty dictionary. *)
Theorem store_call_value_composes (n : node) (d1 d2 : dict pyval) :
  store_call_value (store_call_value n d1) d2 = store_call_value n (d2 ++ d1)%list /\
  store_call_value (store_call_value n d1) d1 = store_call_value n d1 /\
  store_call_value (store_call_value n d1) [] = store_call_value n d1.
Proof.
  split; [apply store_call_value_twice|]. split.
  - rewrite store_call_value_twice. apply store_call_value_ext.
    intros k. rewrite dict_get_app. now destruct (dict_get d1 k).
  - now rewrite store_call_value_twice.
Qed.

Lemma leaves_below_store (call_dict : dict pyval) (n : node) :
  forall path,
    leaves_below path (store_call_value n call_dict)
    = map (fun gi => (fst gi, item_store_call_value (snd gi) call_dict))
        (leaves_below path n).
Proof.
  induction n as [i | [g q] d arguments IH] using node_induction; intros path.
  - reflexivity.
  - rewrite store_call_value_group, !leaves_below_group.
    induction arguments as [|[k a] arguments IHa]; [reflexivity|].
    cbn [map flat_map fst snd]. rewrite map_app.
    rewrite (IH k a (or_introl eq_refl)).
    now rewrite (IHa (fun k' n' Hin => IH k' n' (or_intror Hin))).
Qed.

(** Every item of a freshly declared tree is without a call value. *)
Lemma declare1_fresh (call : decl) :
  forall self args args' w,
    (forall k n, In (k, n) args -> forall i, In i (items n) -> call_value i = None) ->
    declare1 self call args = Ok (args', w) ->
    forall k n, In (k, n) args' -> forall i, In i (items n) -> call_value i = None.
Proof.
  induction call as [nm kw | nm d body IH] using decl_induction;
    intros self args args' w Hargs H k n Hin; simpl in H.
  - destruct (ArgumentItem_init nm self kw) as [i|] eqn:E; simpl in H; [|discriminate].
    injection H as <- _. apply In_dict_set in Hin as [[_ ->] | Hin]; [|eauto].
    intros i' [<- | []]. now apply ArgumentItem_init_inv in E.
  - destruct (declare_all _ body []) as [[sub w1]|] eqn:E; simpl in H; [|discriminate].
    injection H as <- _. apply In_dict_set in Hin as [[_ ->] | Hin]; [|eauto].
    intros i Hi. rewrite items_group in Hi. apply in_flat_map in Hi as [[k' n'] [Hin' Hi]].
    refine (declare_all_keeps
              (fun a => forall k n, In (k, n) a -> forall i, In i (items n) -> call_value i = None)
              (GroupRef nm (Some self)) (declare1 (GroupRef nm (Some self))) body
              _ [] sub w1 _ E k' n' Hin' i Hi).
    + intros c Hc a a' w' Ha Hs. exact (IH c Hc _ _ _ _ Ha Hs).
    + intros ? ? [].
Qed.

(** X10.  After [store_call_value] on a declared tree, every item holds as
    its call value exactly what the dictionary has under the item's
    colon-joined path of group names and own name, and holds none when
    the dictionary has no such key.  Nothing else about the items
    changes. *)
Theorem store_call_value_by_path (calls : list decl) (arguments : dict node)
    (w : list string) (d : string) (call_dict : dict pyval) (groups : list string)
    (i : ArgumentItem) :
  declare root_ref calls [] = Ok (arguments, w) ->
  In (groups, i) (leaves (store_call_value (Group root_ref d arguments) call_dict)) ->
  call_value i = dict_get call_dict (join ":" (groups ++ [name i])%list) /\
  exists i0,
    In (groups, i0) (leaves (Group root_ref d arguments)) /\
    i = item_store_call_value i0 call_dict /\ call_value i0 = None.
Proof.
  intros Hdecl Hin.
  rewrite store_call_value_group in Hin. cbn [leaves] in Hin.
  apply in_flat_map in Hin as [[k n'] [Hk Hin]]. cbn [snd] in Hin.
  apply in_map_iff in Hk as [[k0 n0] [E Hk0]]. cbn [fst snd] in E. injection E as <- <-.
  rewrite leaves_below_store in Hin.
  apply in_map_iff in Hin as [[g0 i0] [E Hin0]]. cbn [fst snd] in E. injection E as <- <-.
  assert (Hleaf : In (g0, i0) (leaves (Group root_ref d arguments))).
  { cbn [leaves]. apply in_flat_map. exists (k0, n0). now split. }
  assert (Hfresh : call_value i0 = None).
  { refine (declare_all_keeps
              (fun a => forall k n, In (k, n) a -> forall i, In i (items n) -> call_value i = None)
              root_ref (declare1 root_ref) calls _ [] arguments w _ Hdecl k0 n0 Hk0 i0 _).
    - intros c _ a a' w' Ha Hs. exact (declare1_fresh c _ _ _ _ Ha Hs).
    - intros ? ? [].
    - clear - Hin0. revert g0 Hin0. generalize (@nil string).
      induction n0 as [j | [g q] d' args IH] using node_induction; intros path g0 Hin0.
      + destruct Hin0 as [E | []]. injection E as _ <-. now left.
      + rewrite leaves_below_group in Hin0. rewrite items_group.
        apply in_flat_map in Hin0 as [[k a] [Hka Hin0]].
        apply in_flat_map. exists (k, a). split; [exact Hka|].
        exact (IH k a Hka _ _ Hin0). }
  split; [|exists i0; auto].
  destruct (lineage_below n0 root_ref [] g0 i0
              (declare_children root_ref calls arguments w Hdecl k0 n0 Hk0) Hin0)
    as (suffix & -> & Hl).
  cbn [get_group_lineage root_ref] in Hl.
  unfold item_store_call_value, param_commandline_name. rewrite Hl.
  change ([] ++ suffix)%list with suffix.
  destruct (dict_get call_dict (join ":" (suffix ++ [name i0]))) eqn:Eg; cbn.
  - now rewrite Eg.
  - rewrite Eg. exact Hfresh.
Qed.

(** ** Serialising a tree *)

Lemma join_scalars_raises (sep : string) (cs : list scalar) :
  raises (join_scalars sep cs) = negb (forallb is_str cs).
Proof.
  unfold join_scalars.
  induction cs as [|[n|x|s|b] cs IH]; try reflexivity.
  cbn [mapM bind forallb is_str andb]. rewrite <- IH.
  destruct (mapM _ cs); reflexivity.
Qed.

Lemma item_xml_node_raises (i : ArgumentItem) :
  raises (item_xml_node i) = choices_unjoinable i || (is_list i && value_not_iterable i).
Proof.
  unfold item_xml_node, choices_unjoinable, value_not_iterable, value_of.
  destruct (choices i) as [cs|].
  - rewrite <- (join_scalars_raises "," cs).
    destruct (join_scalars "," cs); cbn [bind raises orb]; [|reflexivity].
    destruct (is_list i); cbn [andb]; [|reflexivity].
    destruct (match call_value i with Some v => v | None => default i end) as [|v|l];
      cbn [bind raises]; try reflexivity.
    destruct (py_iter (PScalar v)); reflexivity.
  - cbn [orb].
    destruct (restrictions i) as [[nr|ff]|]; cbn [bind];
      (destruct (is_list i); cbn [andb]; [|reflexivity]);
      (destruct (match call_value i with Some v => v | None => default i end) as [|v|l];
       cbn [bind raises]; try reflexivity;
       destruct (py_iter (PScalar v)); reflexivity).
Qed.

Lemma has_type_is_str (t : ptype) (v : scalar) :
  has_type t v = true -> (is_str v = true <-> t = Tstr).
Proof. destruct t, v; simpl; intros H; split; congruence. Qed.

(** X11.  An item fresh from the constructor fails to serialise exactly
    when it declares at least one choice and its type is not the string
    type: the choices were converted to the declared type, and only
    strings can be joined into the [restrictions] attribute. *)
Theorem fresh_item_serialises (nm : string) (self : group_ref) (kw : kwargs)
    (i : ArgumentItem) :
  ArgumentItem_init nm self kw = Ok i ->
  (raises (item_xml_node i) = true <->
   exists cs, choices i = Some cs /\ cs <> [] /\ type i <> Tstr).
Proof.
  intros H. destruct (ArgumentItem_init_inv nm self kw i H)
    as (_ & _ & Hcv & _ & _ & Hd & Hc & _).
  rewrite item_xml_node_raises.
  assert (Hiter : is_list i && value_not_iterable i = false).
  { unfold value_not_iterable, value_of. rewrite Hcv.
    unfold default_conforms in Hd. destruct (is_list i); [|reflexivity].
    destruct (default i) as [|v|l]; try reflexivity. discriminate. }
  rewrite Hiter, orb_false_r. unfold choices_unjoinable.
  destruct (choices i) as [cs|].
  - rewrite negb_true_iff. split.
    + intros Hf. exists cs. split; [reflexivity|]. split.
      * intros ->. discriminate.
      * intros Ht. assert (forallb is_str cs = true); [|congruence].
        apply forallb_forall. intros x Hx.
        rewrite forallb_forall in Hc. apply (has_type_is_str (type i)); auto.
    + intros (cs' & E & Hne & Ht). injection E as <-.
      destruct cs as [|c cs]; [congruence|]. simpl in Hc |- *.
      apply andb_true_iff in Hc as [Hc _].
      destruct (is_str c) eqn:Es; [|reflexivity].
      apply (has_type_is_str _ _ Hc) in Es. contradiction.
  - split; [discriminate|]. intros (cs & E & _). discriminate.
Qed.

Lemma xml_children_raises (args : dict node) :
  forall top,
    raises (xml_children args top) = existsb (fun kn => raises (xml_node (snd kn))) args.
Proof.
  induction args as [|[k a] args IH]; intros top; [reflexivity|].
  cbn [xml_children existsb snd]. destruct (xml_node a); cbn [bind raises orb];
    [apply IH | reflexivity].
Qed.

Lemma existsb_flat_map {A B : Type} (f : B -> bool) (g : A -> list B) (l : list A) :
  existsb f (flat_map g l) = existsb (fun a => existsb f (g a)) l.
Proof.
  induction l as [|a l IH]; [reflexivity|].
  cbn [flat_map existsb]. now rewrite existsb_app, IH.
Qed.

Lemma xml_node_raises (n : node) :
  raises (xml_node n) = existsb (fun i => raises (item_xml_node i)) (items n).
Proof.
  induction n as [i | [g q] d arguments IH] using node_induction.
  - cbn [xml_node items existsb]. now rewrite orb_false_r.
  - rewrite xml_node_group, xml_children_raises, items_group, existsb_flat_map.
    induction arguments as [|[k a] arguments IHa]; [reflexivity|].
    cbn [existsb snd]. rewrite (IH k a (or_introl eq_refl)).
    now rewrite (IHa (fun k' n' Hin => IH k' n' (or_intror Hin))).
Qed.

(** X12.  Serialising a tree fails exactly when serialising one of its
    items fails, however deep the item sits.  A group that serialises
    gives a [NODE] element carrying the group's name and description,
    with one child element per declared child, in declaration order, each
    the serialisation of that child. *)
Theorem xml_node_exact (n : node) :
  raises (xml_node n) = existsb (fun i => raises (item_xml_node i)) (items n) /\
  forall g q d arguments e,
    n = Group (GroupRef g q) d arguments ->
    xml_node n = Ok e ->
    exists kids,
      e = mkElement "NODE" [("name", g); ("description", d)] None kids /\
      Forall2 (fun kn c => xml_node (snd kn) = Ok c) arguments kids.
Proof.
  split; [apply xml_node_raises|].
  intros g q d arguments e -> H. rewrite xml_node_group in H.
  apply xml_children_shape in H as (es & -> & Hes). now exists es.
Qed.

(** ** The document of a tool *)

Lemma dict_get_set_other {V : Type} (d : dict V) (k k' : string) (v : V) :
  k' <> k -> dict_get (dict_set d k v) k' = dict_get d k'.
Proof.
  intros Hne. induction d as [|[k0 v0] d IH]; simpl.
  - apply String.eqb_neq in Hne. now rewrite String.eqb_sym, Hne.
  - destruct (k0 =? k)%string eqn:E; simpl.
    + apply String.eqb_eq in E. subst k0.
      apply String.eqb_neq in Hne. now rewrite String.eqb_sym, Hne.
    + now rewrite IH.
Qed.

Lemma generate_ctd_tree_frame (self self' : CTDopts) (with_logging : bool)
    (now : string) :
  generate_ctd_tree self with_logging now = Ok self' ->
  main_node self' = main_node self /\
  out_ctd_file self' = out_ctd_file self /\
  already_finalized self' = already_finalized self /\
  stdout_stream self' = stdout_stream self /\
  stderr_stream self' = stderr_stream self /\
  is_some (tool_xml_node self') = true.
Proof.
  unfold generate_ctd_tree.
  destruct (xml_node (main_node self)); destruct with_logging; cbn [bind];
    intros H; try discriminate; injection H as <-; repeat split.
Qed.

(** X13.  Generating the document of a tool fails exactly when the
    parameter tree does not serialise.  When it succeeds, the object keeps
    its parameter tree, its output file name and its finalize mark; the
    document is a [tool] element carrying the tool's name and version and,
    exactly when they were supplied, its [docurl] and [category]; a log
    record, stamped with the start time, exists afterwards when logging
    was asked for, and an earlier one is left alone when it was not. *)
Theorem generate_ctd_tree_exact (self : CTDopts) (with_logging : bool) (now : string) :
  raises (generate_ctd_tree self with_logging now) = raises (xml_node (main_node self)) /\
  forall self',
    generate_ctd_tree self with_logging now = Ok self' ->
    main_node self' = main_node self /\
    out_ctd_file self' = out_ctd_file self /\
    already_finalized self' = already_finalized self /\
    (exists doc,
        tool_xml_node self' = Some doc /\
        tag doc = "tool" /\
        dict_get (attrib doc) "name" = Some (tool_name self) /\
        dict_get (attrib doc) "version" = Some (version self) /\
        dict_get (attrib doc) "docurl" = dict_get (optional_attribs self) "docurl" /\
        dict_get (attrib doc) "category" = dict_get (optional_attribs self) "category") /\
    (if with_logging
     then log_node self' = Some (mkElement "log" [("executionTimeStart", now)] None [])
          /\ is_some (log_path self') = true
     else log_node self' = log_node self /\ log_path self' = None).
Proof.
  unfold generate_ctd_tree.
  destruct (add_text_elements_shape
              ["manual"; "description"; "executableName"; "executablePath"]
              (optional_attribs self)
              (mkElement "tool"
                 (copy_attribs ["docurl"; "category"] (optional_attribs self)
                    (dict_set
                       (dict_set
                          (dict_set (dict_set [] "version" (version self)) "name"
                             (tool_name self))
                          "xmlns:xsi" "http://www.w3.org/2001/XMLSchema-instance")
                       "xsi:schemaLocation"
                       "https://github.com/genericworkflownodes/CTDopts/raw/master/schemas/CTD_0_3.xsd"))
                 None []))
    as (extra & -> & _).
  cbn [tag attrib text children app].
  assert (Hattr : forall k,
             In k ["name"; "version"; "docurl"; "category"] ->
             dict_get (copy_attribs ["docurl"; "category"] (optional_attribs self)
                         (dict_set
                            (dict_set
                               (dict_set (dict_set [] "version" (version self)) "name"
                                  (tool_name self))
                               "xmlns:xsi" "http://www.w3.org/2001/XMLSchema-instance")
                            "xsi:schemaLocation"
                            "https://github.com/genericworkflownodes/CTDopts/raw/master/schemas/CTD_0_3.xsd"))
                      k
             = if (k =? "name")%string then Some (tool_name self)
               else if (k =? "version")%string then Some (version self)
               else dict_get (optional_attribs self) k).
  { intros k Hk. cbn [copy_attribs].
    destruct (dict_get (optional_attribs self) "docurl") as [u|] eqn:Eu;
      destruct (dict_get (optional_attribs self) "category") as [c|] eqn:Ec;
      repeat (destruct Hk as [<- | Hk]; [cbn; congruence|]); destruct Hk. }
  destruct (xml_node (main_node self)) as [args_top_node|];
    destruct with_logging; cbn [bind raises];
    (split; [reflexivity|]); intros self' H; try discriminate;
    injection H as <-; cbn;
    (split; [reflexivity|]); (split; [reflexivity|]); (split; [reflexivity|]);
    (split; [|split; reflexivity]);
    eexists; (split; [reflexivity|]); cbn [tag attrib append_child];
    (split; [reflexivity|]);
    rewrite !Hattr by (simpl; auto); cbn; auto.
Qed.

(** ** Writing the document *)

(** X14.  [write_ctd] needs an output file name: without one it raises.
    When it returns, the named file holds the current document, every
    other file and everything printed are as before, and an object that
    already had a document is unchanged: an existing document is written
    as it is, never generated again. *)
Theorem write_ctd_effect (self : CTDopts) (w : world) (now : string) :
  (out_ctd_file self = None -> raises (write_ctd self w now) = true) /\
  forall self' w',
    write_ctd self w now = Ok (self', w') ->
    (exists f doc,
        out_ctd_file self' = Some f /\
        current_tree self' = Some doc /\
        dict_get (files w') f = Some doc /\
        forall g, g <> f -> dict_get (files w') g = dict_get (files w) g) /\
    printed w' = printed w /\
    (is_some (tool_xml_node self) = true -> self' = self).
Proof.
  unfold write_ctd. split.
  - intros Hnone. destruct (tool_xml_node self).
    + cbn [bind]. now rewrite Hnone.
    + destruct (generate_ctd_tree self false now) as [s1|] eqn:E; cbn [bind]; [|reflexivity].
      destruct (generate_ctd_tree_frame self s1 false now E) as (_ & Ho & _).
      now rewrite Ho, Hnone.
  - intros self' w' H.
    destruct (match tool_xml_node self with None => _ | Some _ => _ end) as [s1|] eqn:E;
      cbn [bind] in H; [|discriminate].
    destruct (out_ctd_file s1) as [f|] eqn:Ef; cbn [bind of_option] in H; [|discriminate].
    destruct (current_tree s1) as [doc|] eqn:Ed; cbn [bind of_option] in H; [|discriminate].
    injection H as <- <-. cbn [files printed]. split; [|split; [reflexivity|]].
    + exists f, doc. split; [exact Ef|]. split; [exact Ed|]. split.
      * apply dict_get_set.
      * intros g Hg. now apply dict_get_set_other.
    + intros Hsome. destruct (tool_xml_node self); [now injection E as <- | discriminate].
Qed.

(** ** The log record *)

Lemma subtree_plug (path : list nat) :
  forall e sub,
    is_some (subtree e path) = true -> subtree (plug e path sub) path = Some sub.
Proof.
  induction path as [|i path IH]; intros e sub H; [now destruct e|].
  destruct e as [t a x c]. cbn [subtree children plug] in *.
  revert i H. induction c as [|k c IHc]; intros i H.
  - destruct i; discriminate.
  - destruct i as [|i]; cbn [nth_error] in *.
    + destruct (subtree k path) eqn:E; [|discriminate].
      apply IH. now rewrite E.
    + apply IHc. exact H.
Qed.

Lemma generate_ctd_tree_logging (self self' : CTDopts) (now : string) :
  generate_ctd_tree self true now = Ok self' ->
  exists tool path,
    tool_xml_node self' = Some tool /\
    log_path self' = Some path /\
    log_node self' = Some (mkElement "log" [("executionTimeStart", now)] None []) /\
    subtree tool path = Some (mkElement "log" [("executionTimeStart", now)] None []).
Proof.
  unfold generate_ctd_tree.
  destruct (add_text_elements_shape
              ["manual"; "description"; "executableName"; "executablePath"]
              (optional_attribs self)
              (mkElement "tool"
                 (copy_attribs ["docurl"; "category"] (optional_attribs self)
                    (dict_set
                       (dict_set
                          (dict_set (dict_set [] "version" (version self)) "name"
                             (tool_name self))
                          "xmlns:xsi" "http://www.w3.org/2001/XMLSchema-instance")
                       "xsi:schemaLocation"
                       "https://github.com/genericworkflownodes/CTDopts/raw/master/schemas/CTD_0_3.xsd"))
                 None []))
    as (extra & -> & _).
  cbn [tag attrib text children app].
  destruct (xml_node (main_node self)) as [args_top_node|]; cbn [bind]; [|discriminate].
  intros H. injection H as <-. eexists. eexists.
  split; [reflexivity|]. split; [reflexivity|]. split; [reflexivity|].
  cbn [subtree children append_child].
  rewrite <- app_assoc. rewrite nth_error_app2 by apply Nat.le_refl.
  now rewrite Nat.sub_diag.
Qed.

(** X15.  When a document was generated with logging and [finalize_log]
    then returns for the first time, the file it wrote holds, at the
    place of the log record, the completed record: the start time of the
    generation, the stop time of the call, the exit status if one was
    given, and two text children, errors first and messages second.  A
    text given as an argument is used as it is; otherwise the captured
    stream is used, and the empty text when nothing was captured.  The
    object is marked as finalized. *)
Theorem finalize_log_record (self s1 s2 : CTDopts) (w w2 : world) (t0 t1 : string)
    (stdout stderr : option stream_arg) (exit_status : pyval) :
  already_finalized self = false ->
  generate_ctd_tree self true t0 = Ok s1 ->
  finalize_log s1 w t1 stdout stderr exit_status = Ok (s2, w2) ->
  exists f doc path,
    out_ctd_file self = Some f /\
    dict_get (files w2) f = Some doc /\
    log_path s2 = Some path /\
    subtree doc path
    = Some (finished_log (mkElement "log" [("executionTimeStart", t0)] None []) t1
              exit_status
              (logged_text stdout (stdout_stream self))
              (logged_text stderr (stderr_stream self))) /\
    already_finalized s2 = true.
Proof.
  intros Hfresh Hgen Hfin.
  destruct (generate_ctd_tree_frame self s1 true t0 Hgen) as (_ & Hout & Hfl & Hso & Hse & _).
  destruct (generate_ctd_tree_logging self s1 t0 Hgen) as (tool & path & Ht & Hp & Hl & Hsub).
  unfold finalize_log in Hfin. rewrite Hfl, Hfresh, Hl in Hfin. cbn [of_option bind] in Hfin.
  unfold write_ctd in Hfin. cbn [tool_xml_node with_log_node] in Hfin. rewrite Ht in Hfin.
  cbn [bind out_ctd_file with_log_node] in Hfin. rewrite Hout in Hfin.
  destruct (out_ctd_file self) as [f|]; cbn [of_option bind] in Hfin; [|discriminate].
  unfold current_tree in Hfin. cbn [tool_xml_node log_path log_node with_log_node] in Hfin.
  rewrite Ht, Hp in Hfin. cbn [of_option bind out_ctd_file with_log_node] in Hfin.
  rewrite Hout in Hfin. cbn [of_option bind] in Hfin.
  injection Hfin as <- <-.
  exists f. eexists. exists path.
  split; [reflexivity|]. split.
  - cbn [py_print files snd fst]. apply dict_get_set.
  - split.
    + unfold py_print. cbn [tee_stdout fst]. destruct (tee_stdout w); cbn; exact Hp.
    + split.
      * rewrite subtree_plug by (now rewrite Hsub).
        unfold finished_log, logged_text. rewrite Hso, Hse.
        destruct stdout as [a|]; destruct stderr as [b|];
          destruct (stdout_stream self); destruct (stderr_stream self);
          destruct exit_status; reflexivity.
      * unfold py_print. destruct (tee_stdout w); reflexivity.
Qed.

(** ** More on loading *)

Lemma dict_item_raises (e : Element) (k : string) :
  raises (dict_item (attrib e) k) = negb (has_attr e k).
Proof.
  unfold dict_item, has_attr, dict_in. now destruct (dict_get (attrib e) k).
Qed.

Lemma mapM_values_raises (kids : list Element) :
  raises (mapM (fun listitem => v <- dict_item (attrib listitem) "value" ;; Ok (IStr v)) kids)
  = negb (forallb (fun k => has_attr k "value") kids).
Proof.
  induction kids as [|k kids IH]; [reflexivity|].
  cbn [mapM forallb]. pose proof (dict_item_raises k "value") as Hk.
  destruct (dict_item (attrib k) "value"); cbn [bind raises] in *.
  - apply (f_equal negb) in Hk. rewrite negb_involutive in Hk. rewrite <- Hk. cbn [negb andb].
    rewrite <- IH. now destruct (mapM _ kids).
  - apply (f_equal negb) in Hk. rewrite negb_involutive in Hk. now rewrite <- Hk.
Qed.

Lemma register_parameter_raises (e : Element) :
  forall t base_name is_root,
    raises (_register_parameter t e base_name is_root) = negb (loadable e).
Proof.
  induction e as [tg a x kids IH] using Element_induction.
  intros t base_name is_root. cbn [_register_parameter loadable tag].
  pose proof (dict_item_raises (mkElement tg a x kids) "name") as Hn.
  destruct (dict_item (attrib (mkElement tg a x kids)) "name") as [nm|];
    cbn [bind raises] in *;
    apply (f_equal negb) in Hn; rewrite negb_involutive in Hn; rewrite <- Hn;
    cbn [negb andb]; [|reflexivity].
  destruct (tg =? "ITEM")%string.
  { pose proof (dict_item_raises (mkElement tg a x kids) "type") as Ht.
    pose proof (dict_item_raises (mkElement tg a x kids) "value") as Hv.
    destruct (dict_item (attrib (mkElement tg a x kids)) "type") as [ty|];
      cbn [bind raises] in *;
      apply (f_equal negb) in Ht; rewrite negb_involutive in Ht; rewrite <- Ht;
      cbn [negb andb]; [|reflexivity].
    destruct (dict_item (attrib (mkElement tg a x kids)) "value") as [v|];
      cbn [bind raises] in *;
      apply (f_equal negb) in Hv; rewrite negb_involutive in Hv; rewrite <- Hv;
      cbn [negb andb].
    - destruct (ty =? "boolean")%string; [destruct (v =? "true")%string|]; reflexivity.
    - destruct (ty =? "boolean")%string; reflexivity. }
  destruct (tg =? "ITEMLIST")%string.
  { cbn [children]. rewrite <- mapM_values_raises.
    destruct (mapM _ kids); reflexivity. }
  destruct (tg =? "NODE")%string; [|reflexivity].
  generalize (base_name ++ (if is_root then EmptyString else ":") ++ nm). intros full.
  clear Hn. revert t. induction kids as [|k kids IHk]; intros t; [reflexivity|].
  pose proof (IH k (or_introl eq_refl) t full false) as Hk.
  destruct (_register_parameter t k full false) as [t1|]; cbn [bind raises] in *.
  - apply (f_equal negb) in Hk. rewrite negb_involutive in Hk. rewrite <- Hk. cbn [negb andb].
    apply IHk. intros k' Hk'. apply IH. now right.
  - apply (f_equal negb) in Hk. rewrite negb_involutive in Hk. now rewrite <- Hk.
Qed.

Lemma register_all_raises (kids : list Element) :
  forall t, raises (register_all t kids) = negb (forallb loadable kids).
Proof.
  induction kids as [|k kids IH]; intros t; [reflexivity|].
  cbn [register_all forallb]. pose proof (register_parameter_raises k t "-" true) as Hk.
  destruct (_register_parameter t k "-" true) as [t1|]; cbn [bind raises] in *.
  - apply (f_equal negb) in Hk. rewrite negb_involutive in Hk. rewrite <- Hk. cbn [negb andb].
    apply IH.
  - apply (f_equal negb) in Hk. rewrite negb_involutive in Hk. now rewrite <- Hk.
Qed.

(** X16.  Loading a document fails in exactly two cases: the value tree
    cannot be found (no [PARAMETERS] element at or just below the root,
    or no two nested [NODE] elements below it), or some node of the value
    tree lacks an attribute that loading reads.  A name is read on every
    node, whatever its tag, so a node with an unknown tag and no name
    fails the load, while one with a name is skipped.  There is no
    partial load. *)
Theorem read_ini_fails_exactly (root : Element) :
  raises (read_ini root)
  = match value_tree root with
    | None => true
    | Some parameters => negb (forallb loadable (children parameters))
    end.
Proof.
  unfold read_ini, value_tree.
  assert (Hrest : forall param_root,
             raises (top <- of_option (AttributeError "find") (find param_root "NODE") ;;
                     parameters <- of_option TypeError (find top "NODE") ;;
                     ini_params <- register_all [] (children parameters) ;;
                     Ok (ini_params, command_line_loop [] ini_params))
             = match find param_root "NODE" with
               | Some top =>
                   match find top "NODE" with
                   | Some parameters => negb (forallb loadable (children parameters))
                   | None => true
                   end
               | None => true
               end).
  { intros param_root.
    destruct (find param_root "NODE") as [top|]; cbn [bind of_option]; [|reflexivity].
    destruct (find top "NODE") as [parameters|]; cbn [bind of_option]; [|reflexivity].
    rewrite <- (register_all_raises (children parameters) []).
    destruct (register_all [] (children parameters)); reflexivity. }
  destruct (tag root =? "PARAMETERS")%string; cbn [bind].
  - rewrite Hrest. now destruct (find root "NODE") as [top|]; [destruct (find top "NODE")|].
  - destruct (find root "PARAMETERS") as [param_root|]; cbn [bind of_option]; [|reflexivity].
    rewrite Hrest.
    now destruct (find param_root "NODE") as [top|]; [destruct (find top "NODE")|].
Qed.

Lemma record_all_keys (l : list (string * list ini_value)) :
  forall t,
    NoDup (map fst t) ->
    NoDup (map fst (record_all t l)) /\
    forall k, In k (map fst (record_all t l)) -> In k (map fst t) \/ In k (map fst l).
Proof.
  induction l as [|[k v] l IH]; intros t Hnd; cbn [record_all fold_left].
  - split; [exact Hnd | auto].
  - destruct (IH (dict_set t k v) (NoDup_dict_set t k v Hnd)) as [H1 H2].
    split; [exact H1|]. intros x Hx. destruct (H2 x Hx) as [Hin | Hin].
    + apply In_keys_dict_set in Hin as [Hin | ->]; [now left | right; now left].
    + right. now right.
Qed.

Lemma entries_dashed (e : Element) :
  forall lineage k, In k (map fst (entries lineage e)) -> exists rest, k = "-" ++ rest.
Proof.
  induction e as [tg a x kids IH] using Element_induction.
  intros lineage k. cbn [entries].
  destruct (tg =? "ITEM")%string.
  { destruct (_ =? "boolean")%string; [destruct (_ =? "true")%string|];
      simpl; intros Hk; try contradiction; destruct Hk as [<- | []]; eexists; reflexivity. }
  destruct (tg =? "ITEMLIST")%string.
  { simpl. intros [<- | []]. eexists. reflexivity. }
  destruct (tg =? "NODE")%string; [|intros []].
  generalize (lineage ++ [attr (mkElement tg a x kids) "name"])%list. intros l.
  induction kids as [|c kids IHk]; [intros []|].
  rewrite map_app, in_app_iff. intros [Hk | Hk].
  - exact (IH c (or_introl eq_refl) l k Hk).
  - apply IHk; [|exact Hk]. intros c' Hc'. apply IH. now right.
Qed.

(** X17.  The table that loading builds never holds two entries for one
    name, whatever the document repeats, and every name in the table
    begins with a dash. *)
Theorem read_ini_table_keys (root : Element) (table : dict (list ini_value))
    (command_line : list ini_value) :
  read_ini root = Ok (table, command_line) ->
  NoDup (map fst table) /\
  forall k, In k (map fst table) -> exists rest, k = "-" ++ rest.
Proof.
  intros H. destruct (read_ini_table root table command_line H) as (parameters & _ & ->).
  destruct (record_all_keys (flat_map (entries []) (children parameters)) []) as [H1 H2];
    [constructor|].
  split; [exact H1|]. intros k Hk. destruct (H2 k Hk) as [[] | Hin].
  apply in_map_iff in Hin as ([k' v] & <- & Hin).
  apply in_flat_map in Hin as (c & _ & Hin).
  apply (entries_dashed c [] k'). apply in_map_iff. now exists (k', v).
Qed.

(** ** More on parsing *)

Lemma dict_in_set_keeps {V : Type} (d : dict V) (k k' : string) (v : V) :
  dict_in k' d = true -> dict_in k' (dict_set d k v) = true.
Proof.
  rewrite !dict_in_keys. intros H. apply In_keys_dict_set. now left.
Qed.

Lemma dict_in_set {V : Type} (d : dict V) (k : string) (v : V) :
  dict_in k (dict_set d k v) = true.
Proof. unfold dict_in. now rewrite dict_get_set. Qed.

Lemma defaults_total (acts : list action) :
  forall ns,
    (forall k, dict_in k ns = true -> dict_in k (defaults acts ns) = true) /\
    (forall a, In a acts -> kind a <> Help -> dict_in (dest a) (defaults acts ns) = true).
Proof.
  induction acts as [|a acts IH]; intros ns; cbn [defaults].
  - split; [auto | intros ? []].
  - set (ns1 := match kind a with Help => ns | _ => _ end).
    destruct (IH ns1) as [Hkeep Hall]. split.
    + intros k Hk. apply Hkeep. subst ns1.
      destruct (kind a); try exact Hk;
        (destruct (dict_in (dest a) ns); [exact Hk | now apply dict_in_set_keeps]).
    + intros a' [<- | Hin] Hk; [|now apply Hall].
      apply Hkeep. subst ns1.
      destruct (kind a); try congruence;
        (destruct (dict_in (dest a) ns) eqn:E; [exact E | apply dict_in_set]).
Qed.

Lemma close_keeps (st st' : parse_state) (k : string) :
  close st = Ok st' -> dict_in k (namespace st) = true -> dict_in k (namespace st') = true.
Proof.
  unfold close. destruct (pend st) as [|a|a values].
  - now intros [= <-].
  - discriminate.
  - destruct values as [|v values]; [destruct (kind a) as [[s|]| |]|];
      try discriminate; try (intros [= <-] Hk; now apply dict_in_set_keeps).
    destruct s as [|c s]; [intros [= <-] Hk; now apply dict_in_set_keeps|].
    destruct c as [[] [] [] [] [] [] [] []]; destruct s;
      try discriminate; intros [= <-] Hk; now apply dict_in_set_keeps.
Qed.

Lemma step_keeps (p : ArgumentParser) (st st' : parse_state) (tok k : string) :
  step p st tok = Ok st' ->
  dict_in k (namespace st) = true -> dict_in k (namespace st') = true.
Proof.
  unfold step. destruct (classify p tok) as [|a| |].
  - destruct (pend st) as [|a|a values].
    + now intros [= <-].
    + destruct (get_value a tok) as [[v w]|]; cbn [bind]; [|discriminate].
      destruct (check_value a v); cbn [bind]; [|discriminate].
      intros [= <-] Hk. now apply dict_in_set_keeps.
    + destruct (get_value a tok) as [[v w]|]; cbn [bind]; [|discriminate].
      destruct (check_value a v); cbn [bind]; [|discriminate].
      now intros [= <-].
  - destruct (close st) as [st1|] eqn:E; cbn [bind]; [|discriminate].
    intros H Hk. apply (close_keeps _ _ k E) in Hk.
    destruct (kind a) as [[s|]| |]; try discriminate; injection H as <-;
      try exact Hk. now apply dict_in_set_keeps.
  - destruct (close st) as [st1|] eqn:E; cbn [bind]; [|discriminate].
    intros [= <-] Hk. now apply (close_keeps _ _ k E).
  - discriminate.
Qed.

Lemma scan_keeps (p : ArgumentParser) (tokens : list string) :
  forall st st' k,
    scan p st tokens = Ok st' ->
    dict_in k (namespace st) = true -> dict_in k (namespace st') = true.
Proof.
  induction tokens as [|tok tokens IH]; intros st st' k H Hk; cbn [scan] in H.
  - now injection H as <-.
  - destruct (step p st tok) as [st1|] eqn:E; cbn [bind] in H; [|discriminate].
    apply (IH st1 st' k H). now apply (step_keeps p st st1 tok k E).
Qed.

Lemma wrap_up_keeps (acts : list action) :
  forall st st' k,
    wrap_up acts st = Ok st' ->
    dict_in k (namespace st) = true -> dict_in k (namespace st') = true.
Proof.
  induction acts as [|a acts IH]; intros st st' k H Hk; cbn [wrap_up] in H.
  - now injection H as <-.
  - destruct (existsb _ (seen st)); [now apply (IH st st' k H)|].
    destruct (a_required a); [discriminate|].
    destruct (a_default a) as [|[n|x|s|b]|l]; try (now apply (IH st st' k H)).
    destruct (match dict_get (namespace st) (dest a) with Some v => _ | None => _ end);
      [|now apply (IH st st' k H)].
    destruct (get_value a s) as [[v w]|]; cbn [bind] in H; [|discriminate].
    apply (IH _ st' k H). cbn [namespace]. now apply dict_in_set_keeps.
Qed.

(** The namespace that the parser returns has an attribute for every
    registered action other than help. *)
Lemma parser_parse_args_total (p : ArgumentParser) (tokens : list string)
    (ns : dict pyval) (w : list string) (a : action) :
  parser_parse_args p tokens = Ok (ns, w) ->
  In a (actions p) -> kind a <> Help ->
  dict_in (dest a) ns = true.
Proof.
  unfold parser_parse_args, parse_known_args. intros H Hin Hk.
  destruct (scan p _ tokens) as [st1|] eqn:E1; cbn [bind] in H; [|discriminate].
  destruct (close st1) as [st2|] eqn:E2; cbn [bind] in H; [|discriminate].
  destruct (wrap_up (actions p) st2) as [st3|] eqn:E3; cbn [bind] in H; [|discriminate].
  destruct (extras st3); [|discriminate]. injection H as <- _.
  apply (wrap_up_keeps _ _ _ _ E3). apply (close_keeps _ _ _ E2).
  apply (scan_keeps _ _ _ _ _ E1). cbn [namespace].
  now apply (proj2 (defaults_total (actions p) [])).
Qed.

Lemma add_argument_action (p p' : ArgumentParser) (flag : string) (kws : argparse_kws) :
  add_argument p flag kws = Ok p' ->
  exists a, actions p' = (actions p ++ [a])%list /\
            dest a = dest_of flag /\ kind a <> Help.
Proof.
  unfold add_argument.
  destruct (if (lstrip_dashes flag =? EmptyString)%string then _ else _);
    cbn [bind]; [|discriminate].
  destruct (match kws_action kws with Some _ => _ | None => _ end) as [k|] eqn:Ek;
    cbn [bind]; [|discriminate].
  destruct (existsb _ (actions p)); [discriminate|].
  intros H. injection H as <-. eexists. split; [reflexivity|]. split; [reflexivity|].
  cbn [kind]. destruct (kws_action kws) as [s|].
  - destruct (s =? "store_true")%string; [|discriminate].
    destruct (is_some _ || _ || _ || _); [discriminate|]. injection Ek as <-. discriminate.
  - injection Ek as <-. discriminate.
Qed.

Lemma append_argument_dests (n : node) :
  forall p p',
    append_argument n p = Ok p' ->
    (forall a, In a (actions p) -> In a (actions p')) /\
    forall i, In i (items n) ->
              exists a, In a (actions p') /\ dest a = dest_of (flag_of i) /\ kind a <> Help.
Proof.
  induction n as [i | [g q] d arguments IH] using node_induction; intros p p' H.
  - cbn [append_argument] in H. unfold item_append_argument in H.
    apply add_argument_action in H as (a & Ha & Hd & Hk). split.
    + intros a' Hin. rewrite Ha. apply in_or_app. now left.
    + intros i' [<- | []]. exists a. split; [|now split].
      rewrite Ha. apply in_or_app. right. now left.
  - rewrite append_argument_group in H. rewrite items_group.
    assert (Ha : actions (add_argument_group p g d) = actions p) by reflexivity.
    rewrite <- Ha. clear Ha. revert H. generalize (add_argument_group p g d). clear p.
    induction arguments as [|[k a] arguments IHa]; intros p H; cbn [append_children] in H.
    + injection H as <-. split; [auto | intros ? []].
    + destruct (append_argument a p) as [p1|] eqn:E1; cbn [bind] in H; [|discriminate].
      destruct (IH k a (or_introl eq_refl) p p1 E1) as [Hk1 Hd1].
      destruct (IHa (fun k' n' Hin => IH k' n' (or_intror Hin)) p1 H) as [Hk2 Hd2].
      split; [auto|]. intros i Hi. cbn [flat_map snd] in Hi.
      apply in_app_or in Hi as [Hi | Hi].
      * destruct (Hd1 i Hi) as (a0 & Hin & Hrest). exists a0. split; [auto | exact Hrest].
      * exact (Hd2 i Hi).
Qed.

Lemma lstrip_dashes_plain (s : string) :
  contains_char "-" s = false -> lstrip_dashes s = s.
Proof.
  destruct s as [|c s]; [reflexivity|]. cbn [contains_char].
  destruct c as [[] [] [] [] [] [] [] []]; try reflexivity. discriminate.
Qed.

Lemma dashes_to_underscores_plain (s : string) :
  contains_char "-" s = false -> dashes_to_underscores s = s.
Proof.
  induction s as [|c s IH]; [reflexivity|]. cbn [contains_char dashes_to_underscores].
  intros H. apply Bool.orb_false_iff in H as [Hc Hs]. now rewrite Hc, IH.
Qed.

(** An option string made of one dash and a name without dashes is stored
    under that name. *)
Lemma dest_of_plain (s : string) :
  contains_char "-" s = false -> dest_of ("-" ++ s) = s.
Proof.
  intros H. unfold dest_of. change (lstrip_dashes ("-" ++ s)) with (lstrip_dashes s).
  now rewrite lstrip_dashes_plain, dashes_to_underscores_plain.
Qed.

Lemma leaves_below_items (n : node) :
  forall path groups i, In (groups, i) (leaves_below path n) -> In i (items n).
Proof.
  induction n as [j | [g q] d args IH] using node_induction; intros path groups i Hin.
  - destruct Hin as [E | []]. injection E as _ <-. now left.
  - rewrite leaves_below_group in Hin. rewrite items_group.
    apply in_flat_map in Hin as [[k a] [Hka Hin]].
    apply in_flat_map. exists (k, a). split; [exact Hka|].
    exact (IH k a Hka _ _ _ Hin).
Qed.

(** A leaf of a declared tree is one of its items, and is named on the
    command line after the groups above it. *)
Lemma leaf_of_declared (calls : list decl) (arguments : dict node) (w : list string)
    (d : string) (groups : list string) (i : ArgumentItem) :
  declare root_ref calls [] = Ok (arguments, w) ->
  In (groups, i) (leaves (Group root_ref d arguments)) ->
  In i (items (Group root_ref d arguments)) /\
  param_commandline_name i = join ":" (groups ++ [name i])%list.
Proof.
  intros Hdecl Hin. cbn [leaves] in Hin.
  apply in_flat_map in Hin as [[k n] [Hkn Hin]]. cbn [snd] in Hin. split.
  - rewrite items_group. apply in_flat_map. exists (k, n). split; [exact Hkn|].
    exact (leaves_below_items n _ _ _ Hin).
  - destruct (lineage_below n root_ref [] groups i
                (declare_children root_ref calls arguments w Hdecl k n Hkn) Hin)
      as (suffix & -> & Hl).
    unfold param_commandline_name. now rewrite Hl.
Qed.

Lemma leaves_store (call_dict : dict pyval) (self : group_ref) (d : string)
    (arguments : dict node) (groups : list string) (i : ArgumentItem) :
  In (groups, i) (leaves (store_call_value (Group self d arguments) call_dict)) ->
  exists i0, In (groups, i0) (leaves (Group self d arguments)) /\
             i = item_store_call_value i0 call_dict.
Proof.
  rewrite store_call_value_group. cbn [leaves]. intros Hin.
  apply in_flat_map in Hin as [[k n'] [Hk Hin]]. cbn [snd] in Hin.
  apply in_map_iff in Hk as [[k0 n0] [E Hk0]]. cbn [fst snd] in E. injection E as <- <-.
  rewrite leaves_below_store in Hin.
  apply in_map_iff in Hin as [[g0 i0] [E Hin0]]. cbn [fst snd] in E. injection E as <- <-.
  exists i0. split; [|reflexivity].
  apply in_flat_map. exists (k0, n0). now split.
Qed.

Lemma write_ctd_frame (self self' : CTDopts) (w w' : world) (now : string) :
  write_ctd self w now = Ok (self', w') ->
  main_node self' = main_node self /\ out_ctd_file self' = out_ctd_file self.
Proof.
  unfold write_ctd.
  destruct (tool_xml_node self).
  - cbn [bind]. destruct (out_ctd_file self) eqn:Eo; cbn [of_option bind]; [|discriminate].
    destruct (current_tree self); cbn [of_option bind]; [|discriminate].
    intros H. injection H as <- _. now split.
  - destruct (generate_ctd_tree self false now) as [s1|] eqn:E; cbn [bind]; [|discriminate].
    apply generate_ctd_tree_frame in E as (Hm & Ho & _).
    destruct (out_ctd_file s1) eqn:Eo; cbn [of_option bind]; [|discriminate].
    destruct (current_tree s1); cbn [of_option bind]; [|discriminate].
    intros H. injection H as <- _. split; congruence.
Qed.

Lemma py_print_main_node (self : CTDopts) (w : world) (line : string) :
  main_node (fst (py_print self w line)) = main_node self.
Proof. unfold py_print. now destruct (tee_stdout w). Qed.

(** What a call of [parse_args] that returns went through: the tree
    registered with a fresh parser, the parser accepted some token list,
    and the attributes it returned were stored in the tree. *)
Lemma parse_args_returned (self self' : CTDopts) (w w' : world) (now : string)
    (argv : list string) (parsed_args : dict pyval) (warned : list string) :
  parse_args self w now argv = Ok (Returned self' w' parsed_args warned) ->
  exists regular_parser tokens,
    append_argument (main_node self) new_parser = Ok regular_parser /\
    parser_parse_args regular_parser tokens = Ok (parsed_args, warned) /\
    main_node self' = store_call_value (main_node self) parsed_args.
Proof.
  unfold parse_args.
  destruct preparser as [p0|]; cbn [bind]; [|discriminate].
  destruct (parse_known_args p0 argv) as [[[directives rest] ws]|]; cbn [bind];
    [|discriminate].
  assert (Hexit : forall l,
    (let self0 :=
        with_out_ctd_file self
          (match l with [] => tool_name self ++ ".ctd" | f :: _ => str_scalar f end) in
      ' (self1, w1) <- write_ctd self0 w now ;;
      f <- of_option (AttributeError "out_ctd_file") (out_ctd_file self1) ;;
      (let '(self2, w2) :=
         py_print self1 w1
           ("Tool-describing " ++ f ++ " written to current directory successfully. Exiting.") in
       Ok (Exited self2 w2)))
    <> Ok (Returned self' w' parsed_args warned)).
  { intros l. cbv zeta.
    destruct (write_ctd _ w now) as [[s1 w1]|]; cbn [bind]; [|discriminate].
    destruct (out_ctd_file s1); cbn [of_option bind]; [|discriminate].
    destruct (py_print _ _ _). discriminate. }
  match goal with
  | |- context [bind ?m _] =>
      assert (Hini : forall s1 from_ini, m = Ok (s1, from_ini) -> main_node s1 = main_node self)
  end.
  { intros s1 from_ini.
    destruct (kwargs_get (dict_get directives "input_ctd") PNone) as [|v|l];
      try (intros H; now injection H as <- _);
      (destruct (dict_get (files w) _); cbn [of_option bind]; [|discriminate];
       destruct (read_ini _) as [[t c]|]; cbn [bind]; [|discriminate];
       intros H; now injection H as <- _). }
  destruct (kwargs_get (dict_get directives "write_tool_ctd") PNone) as [|v|l];
    [| |intros H; now apply Hexit in H].
  all: clear Hexit.
  all: match goal with
       | |- context [bind ?m _] => destruct m as [[s1 from_ini]|] eqn:Ein
       end; cbn [bind]; [|discriminate].
  all: specialize (Hini _ _ eq_refl); clear Ein; rewrite Hini.
  all: destruct (append_argument (main_node self) new_parser) as [rp|] eqn:Ea;
         cbn [bind]; [|discriminate].
  all: destruct (mapM token_string _) as [tokens|]; cbn [bind]; [|discriminate].
  all: destruct (parser_parse_args rp tokens) as [[pa wn]|] eqn:Ep; cbn [bind];
         [|discriminate].
  all: intros H; exists rp, tokens; split; [reflexivity|].
  all: destruct (truth _) in H;
         [destruct (truth _) in H;
          [destruct (generate_ctd_tree _ true now) as [s2|] eqn:Eg; cbn [bind] in H;
           [|discriminate];
           apply generate_ctd_tree_frame in Eg as (Hm & _);
           destruct (truth _) in H; injection H as <- _ <- <-; (split; [exact Ep|]);
           exact Hm
          |destruct (generate_ctd_tree _ false now) as [s2|] eqn:Eg; cbn [bind] in H;
           [|discriminate];
           apply generate_ctd_tree_frame in Eg as (Hm & _);
           destruct (write_ctd s2 w now) as [[s3 w3]|] eqn:Ew; cbn [bind] in H;
           [|discriminate];
           apply write_ctd_frame in Ew as (Hm3 & _);
           destruct (out_ctd_file s3); cbn [of_option bind] in H; [|discriminate];
           match type of H with
           | context [py_print ?a ?b ?c] =>
               pose proof (py_print_main_node a b c) as Hp; destruct (py_print a b c)
           end;
           injection H as <- _ <- <-; (split; [exact Ep|]);
           cbn [fst] in Hp; rewrite Hp, Hm3; exact Hm]
         |injection H as <- _ <- <-; split; [exact Ep | reflexivity]].
Qed.

(** X18.  When [parse_args] returns, the attributes the parser produced
    have been stored in the tree, and every parameter whose command-line
    name (groups and own name joined by colons) holds no dash has its
    call value set, to the attribute the parser returned under that very
    name, whether or not the command line mentioned the parameter. *)
Theorem parse_args_sets_call_values (self self' : CTDopts) (w w' : world)
    (now : string) (argv : list string) (parsed_args : dict pyval)
    (warned : list string) (calls : list decl) (arguments : dict node)
    (ws : list string) (d : string) :
  declare root_ref calls [] = Ok (arguments, ws) ->
  main_node self = Group root_ref d arguments ->
  parse_args self w now argv = Ok (Returned self' w' parsed_args warned) ->
  main_node self' = store_call_value (main_node self) parsed_args /\
  forall groups i,
    In (groups, i) (leaves (main_node self')) ->
    contains_char "-" (join ":" (groups ++ [name i])%list) = false ->
    exists v,
      dict_get parsed_args (join ":" (groups ++ [name i])%list) = Some v /\
      call_value i = Some v.
Proof.
  intros Hdecl Hmain Hrun.
  apply parse_args_returned in Hrun as (rp & tokens & Ha & Hp & Hstore).
  split; [exact Hstore|]. intros groups i Hin Hplain.
  rewrite Hstore, Hmain in Hin. apply leaves_store in Hin as (i0 & Hin0 & ->).
  destruct (leaf_of_declared calls arguments ws d groups i0 Hdecl Hin0) as [Hitem Hname].
  assert (En : name (item_store_call_value i0 parsed_args) = name i0).
  { unfold item_store_call_value. now destruct (dict_get parsed_args _). }
  rewrite En in *. rewrite Hmain in Ha.
  destruct (proj2 (append_argument_dests _ _ _ Ha) i0 Hitem) as (a & Hact & Hdest & Hkind).
  pose proof (parser_parse_args_total rp tokens parsed_args warned a Hp Hact Hkind) as Hkey.
  unfold flag_of in Hdest. rewrite Hname, (dest_of_plain _ Hplain) in Hdest.
  rewrite Hdest in Hkey. unfold dict_in in Hkey.
  destruct (dict_get parsed_args (join ":" (groups ++ [name i0]))) as [v|] eqn:Ev;
    [|discriminate].
  exists v. split; [reflexivity|].
  unfold item_store_call_value. now rewrite Hname, Ev.
Qed.

(** ** The tool description directive *)

Lemma classify_option (p : ArgumentParser) (tok : string) (a : action) :
  classify p tok = Option_ a -> In a (actions p).
Proof.
  unfold classify. destruct tok as [|c rest]; [discriminate|].
  destruct c as [[] [] [] [] [] [] [] []]; try discriminate.
  destruct (find_action p _) as [a0|] eqn:Ef.
  - intros [= <-]. unfold find_action in Ef. now apply find_some in Ef.
  - destruct rest as [|c rest]; [discriminate|].
    destruct (c =? "-")%char.
    + destruct (existsb _ _); [discriminate|]. destruct (contains_char _ _); discriminate.
    + destruct (find_action p (first_two _)) as [a1|] eqn:Ef1.
      * destruct (kind a1); try discriminate. intros [= <-].
        unfold find_action in Ef1. now apply find_some in Ef1.
      * destruct (existsb _ _); [discriminate|].
        destruct (_ && _); [discriminate|]. destruct (contains_char _ _); discriminate.
Qed.

Lemma close_asked (st st1 : parse_state) :
  tool_ctd_asked st -> close st = Ok st1 ->
  pend st1 = Idle /\
  exists l, dict_get (namespace st1) "write_tool_ctd" = Some (PList l).
Proof.
  unfold tool_ctd_asked, close. destruct (pend st) as [|a|a values] eqn:Ep.
  - intros H [= <-]. now split.
  - discriminate.
  - intros H Hc.
    assert (E : st1 = take st a (PList values) []).
    { revert Hc.
      destruct values as [|v values]; [destruct (kind a) as [[s|]| |]|];
        try discriminate; try (now intros [= <-]).
      destruct s as [|c s]; [now intros [= <-]|].
      destruct c as [[] [] [] [] [] [] [] []]; destruct s;
        try discriminate; now intros [= <-]. }
    subst st1. split; [reflexivity|]. cbn [take namespace].
    destruct (string_dec (dest a) "write_tool_ctd") as [-> | Hne].
    + exists values. apply dict_get_set.
    + destruct H as [H | H]; [contradiction|].
      rewrite dict_get_set_other by congruence. exact H.
Qed.

Lemma step_asked (p : ArgumentParser) (st st' : parse_state) (tok : string) :
  Forall lists_tool_ctd (actions p) ->
  tool_ctd_asked st -> step p st tok = Ok st' -> tool_ctd_asked st'.
Proof.
  intros Hp H. unfold step. destruct (classify p tok) as [|a| |] eqn:Ec.
  - unfold tool_ctd_asked in *. destruct (pend st) as [|a|a values] eqn:Ep.
    + intros [= <-]. cbn [with_extra pend namespace]. now rewrite Ep.
    + destruct (get_value a tok) as [[v w]|]; cbn [bind]; [|discriminate].
      destruct (check_value a v); cbn [bind]; [|discriminate].
      intros [= <-]. cbn [take pend namespace]. destruct H as [Hne H].
      rewrite dict_get_set_other by congruence. exact H.
    + destruct (get_value a tok) as [[v w]|]; cbn [bind]; [|discriminate].
      destruct (check_value a v); cbn [bind]; [|discriminate].
      intros [= <-]. exact H.
  - destruct (close st) as [st1|] eqn:E; cbn [bind]; [|discriminate].
    destruct (close_asked st st1 H E) as [Hidle Hl].
    apply classify_option in Ec. rewrite Forall_forall in Hp. specialize (Hp a Ec).
    unfold lists_tool_ctd in Hp. unfold tool_ctd_asked.
    destruct (kind a) as [[s|]| |]; try discriminate; intros [= <-];
      cbn [take with_pend pend namespace].
    + now right.
    + now split.
    + rewrite dict_get_set_other by congruence. exact Hl.
  - destruct (close st) as [st1|] eqn:E; cbn [bind]; [|discriminate].
    destruct (close_asked st st1 H E) as [Hidle Hl].
    intros [= <-]. unfold tool_ctd_asked. cbn [with_extra pend namespace].
    now rewrite Hidle.
  - discriminate.
Qed.

Lemma scan_asked (p : ArgumentParser) (tokens : list string) :
  Forall lists_tool_ctd (actions p) ->
  forall st st',
    tool_ctd_asked st -> scan p st tokens = Ok st' -> tool_ctd_asked st'.
Proof.
  intros Hp. induction tokens as [|tok tokens IH]; intros st st' H Hs; cbn [scan] in Hs.
  - now injection Hs as <-.
  - destruct (step p st tok) as [st1|] eqn:E; cbn [bind] in Hs; [|discriminate].
    exact (IH st1 st' (step_asked p st st1 tok Hp H E) Hs).
Qed.

Lemma wrap_up_unconverted (acts : list action) :
  Forall no_string_default acts ->
  forall st st', wrap_up acts st = Ok st' -> st' = st.
Proof.
  induction 1 as [|a acts Ha _ IH]; intros st st' H; cbn [wrap_up] in H.
  - now injection H as <-.
  - destruct (existsb _ (seen st)); [now apply IH|].
    destruct (a_required a); [discriminate|].
    unfold no_string_default in Ha.
    destruct (a_default a) as [|[n|x|s|b]|l]; try contradiction; now apply IH.
Qed.

(** The parser of the directives: it is built without an error, only
    [--write_tool_ctd] is stored under [write_tool_ctd], no default is a
    string, and the token [--write_tool_ctd] met while no option waits
    for a value starts the collection of its values. *)
Lemma preparser_directives :
  exists p,
    preparser = Ok p /\
    Forall lists_tool_ctd (actions p) /\
    Forall no_string_default (actions p) /\
    (forall st, pend st = Idle ->
       exists a, step p st "--write_tool_ctd" = Ok (with_pend st (Many a []) []) /\
                 dest a = "write_tool_ctd") /\
    exists ns,
      parse_known_args p ["--write_tool_ctd"] = Ok (ns, [], []) /\
      dict_get ns "write_tool_ctd" = Some (PList []).
Proof.
  eexists. split; [reflexivity|]. cbn [actions]. split; [|split; [|split]].
  - repeat constructor; unfold lists_tool_ctd; cbn; try exact I; discriminate.
  - repeat constructor.
  - intros st Hidle. eexists. unfold step, close. rewrite Hidle. split; reflexivity.
  - eexists. split; reflexivity.
Qed.

(** With the list [l] under [write_tool_ctd], [parse_args] writes the
    tool description and leaves. *)
Lemma parse_args_describes (self : CTDopts) (w : world) (now : string)
    (argv : list string) (p : ArgumentParser) (directives : dict pyval)
    (rest ws : list string) (l : list scalar) (o : outcome) :
  preparser = Ok p ->
  parse_known_args p argv = Ok (directives, rest, ws) ->
  dict_get directives "write_tool_ctd" = Some (PList l) ->
  parse_args self w now argv = Ok o ->
  exists self' w' doc,
    let f := match l with [] => tool_name self ++ ".ctd" | f :: _ => str_scalar f end in
    o = Exited self' w' /\
    out_ctd_file self' = Some f /\
    current_tree self' = Some doc /\
    files w' = dict_set (files w) f doc /\
    printed w' = (printed w ++ [tool_ctd_written f])%list /\
    main_node self' = main_node self.
Proof.
  intros Hp Hk Hl. unfold parse_args. rewrite Hp. cbn [bind]. rewrite Hk. cbn [bind].
  rewrite Hl. cbn [kwargs_get]. unfold write_ctd.
  set (f := match l with [] => _ | f :: _ => _ end).
  set (self0 := with_out_ctd_file self f).
  destruct (match tool_xml_node self0 with None => _ | Some _ => _ end) as [s1|] eqn:E;
    cbn [bind]; [|discriminate].
  assert (Hs1 : out_ctd_file s1 = Some f /\ main_node s1 = main_node self).
  { destruct (tool_xml_node self0).
    - injection E as <-. now split.
    - apply generate_ctd_tree_frame in E as (Hm & Ho & _). now split. }
  destruct Hs1 as [Ho Hm]. rewrite Ho. cbn [of_option bind].
  destruct (current_tree s1) as [doc|] eqn:Ed; cbn [of_option bind]; [|discriminate].
  rewrite Ho. cbn [of_option bind]. unfold py_print. cbn [tee_stdout printed files].
  intros [= <-]. eexists. eexists. exists doc.
  split; [reflexivity|].
  destruct (tee_stdout w); cbn; rewrite ?Ho, ?Hm; repeat split; try reflexivity;
    unfold current_tree in *; cbn; exact Ed.
Qed.

(** X19.  A command line that starts with [--write_tool_ctd] never makes
    [parse_args] return to its caller, whatever follows: when the call
    does not raise, it has written the current document to the output
    file and to no other, printed the line that says so and left through
    [sys.exit()], with the parameter tree as it was.  With nothing after
    the option the file is named after the tool, with the extension
    [.ctd]. *)
Theorem write_tool_ctd_exits (self : CTDopts) (w : world) (now : string)
    (tail : list string) (o : outcome) :
  parse_args self w now ("--write_tool_ctd" :: tail) = Ok o ->
  exists self' w' f doc,
    o = Exited self' w' /\
    out_ctd_file self' = Some f /\
    current_tree self' = Some doc /\
    files w' = dict_set (files w) f doc /\
    printed w' = (printed w ++ [tool_ctd_written f])%list /\
    main_node self' = main_node self /\
    (tail = [] -> f = tool_name self ++ ".ctd").
Proof.
  intros Hrun.
  destruct preparser_directives as (p & Hp & Hlists & Hdef & Hfirst & ns0 & Halone & Hns0).
  destruct tail as [|t tail].
  - destruct (parse_args_describes self w now _ p ns0 [] [] [] o Hp Halone Hns0 Hrun)
      as (self' & w' & doc & H). cbv zeta in H.
    exists self', w', (tool_name self ++ ".ctd"), doc.
    destruct H as (H1 & H2 & H3 & H4 & H5 & H6). repeat split; assumption.
  - assert (Hne : t :: tail <> []) by discriminate.
    revert Hrun Hne. generalize (t :: tail). clear t tail. intros tail Hrun Hne.
    assert (Hk : exists directives rest ws l,
               parse_known_args p ("--write_tool_ctd" :: tail)
               = Ok (directives, rest, ws) /\
               dict_get directives "write_tool_ctd" = Some (PList l)).
    { unfold parse_args in Hrun. rewrite Hp in Hrun. cbn [bind] in Hrun.
      destruct (parse_known_args p ("--write_tool_ctd" :: tail))
        as [[[directives rest] ws]|] eqn:Ek; [|discriminate].
      clear Hrun. exists directives, rest, ws.
      unfold parse_known_args in Ek. cbn [scan] in Ek.
      destruct (Hfirst {| namespace := defaults (actions p) []; seen := []; pend := Idle;
                          extras := []; issued := [] |} eq_refl) as (a & Hstep & Hdest).
      rewrite Hstep in Ek. cbn [bind] in Ek.
      destruct (scan p _ tail) as [st1|] eqn:Es; cbn [bind] in Ek; [|discriminate].
      destruct (close st1) as [st2|] eqn:Ec; cbn [bind] in Ek; [|discriminate].
      destruct (wrap_up (actions p) st2) as [st3|] eqn:Ew; cbn [bind] in Ek;
        [|discriminate].
      injection Ek as <- _ _.
      apply (wrap_up_unconverted _ Hdef) in Ew. subst st3.
      apply scan_asked in Es; [| exact Hlists | now left].
      destruct (close_asked st1 st2 Es Ec) as [_ [l Hl]]. now exists l. }
    destruct Hk as (directives & rest & ws & l & Hk & Hl).
    destruct (parse_args_describes self w now _ p directives rest ws l o Hp Hk Hl Hrun)
      as (self' & w' & doc & H). cbv zeta in H.
    destruct H as (H1 & H2 & H3 & H4 & H5 & H6).
    exists self', w', (match l with [] => tool_name self ++ ".ctd" | f :: _ => str_scalar f end),
      doc.
    repeat split; try assumption. intros E. contradiction.
Qed.

(** ** Writing and loading *)



(** ** Failures of [finalize_log] *)




(** ** The finalize call registered at exit *)




End Program.

(** * Concrete runs

    The statements above hold for every interpreter.  The runs below use
    the stand-in one. *)

#[local] Existing Instance integral_floats.

(** C3 as stated fails on a flag declared as required: the declaration is
    one that the claim says must abort, and the constructor accepts it. *)
Lemma C3_required_flag_is_accepted :
  declared_type required_flag = Tbool /\
  declared_required required_flag = true /\
  raises (ArgumentItem_init "flag" root_ref required_flag) = false.
Proof. repeat split. Qed.

Lemma C3_witness :
  declared_type required_flag = Tbool /\
  exists i, ArgumentItem_init "flag" root_ref required_flag = Ok i /\
            required i = false /\ default i = PScalar (SBool false).
Proof.
  split; [reflexivity|]. eexists.
  match goal with |- ?A /\ _ => assert (HA : A) by reflexivity end.
  split; [exact HA|].
  exact (proj2 (C3_declaration_failures "flag" root_ref required_flag) _ eq_refl HA).
Defined.

Lemma C4_witness :
  call_type Tint (PScalar (SStr "-5")) = Ok (SInt (-5)) /\
  py_lt (SInt (-5)) (SInt 0) = true /\
  exists ws, is_in_range (int_range "p" 0 10) (PScalar (SStr "-5")) = Ok (SInt (-5), ws) /\
             ws <> [].
Proof.
  split; [reflexivity|]. split; [reflexivity|].
  destruct (proj1 C4_numeric_range_advisory (int_range "p" 0 10) (PScalar (SStr "-5"))
              (SInt (-5)) eq_refl
              (or_introl (ex_intro _ (SInt 0) (conj eq_refl eq_refl))))
    as (ws & H1 & H2 & _).
  exists ws. split; assumption.
Defined.

Lemma C5_witness :
  snd (legal_formats {| ff_param_name := "in"; formats := ["fastq"; "fastq.gz"] |} "reads.txt")
  = ["Parameter in's file extension not in allowed list. Allowed: fastq/fastq.gz. "
     ++ "Actual: reads.txt"].
Proof.
  apply (proj2 (proj2 (C5_file_extension_advisory
                         {| ff_param_name := "in"; formats := ["fastq"; "fastq.gz"] |}
                         "reads.txt"))).
  discriminate.
Defined.

Lemma C6_witness :
  exists arguments w i,
    declare root_ref
      [Add "x" (int_param 1 None); AddGroup "g" "group" [Add "y" (int_param 2 None)]] []
    = Ok (arguments, w) /\
    In (["g"], i) (leaves (Group root_ref EmptyString arguments)) /\
    param_commandline_name i = "g:y".
Proof.
  eexists. eexists. eexists.
  match goal with |- ?A /\ _ => assert (HA : A) by reflexivity end.
  split; [exact HA|].
  match goal with |- ?B /\ _ => assert (HB : B) by (right; left; reflexivity) end.
  split; [exact HB|].
  exact (proj1 (C6_lineage_naming _ _ _ _ _ _ HA HB)).
Defined.

Lemma C7_witness :
  exists table command_line,
    read_ini small_document = Ok (table, command_line) /\
    command_line = flat_map tokens_of table /\
    command_line = [IStr "-n"; IStr "7"; IStr "-g:flag"].
Proof.
  eexists. eexists.
  match goal with |- ?A /\ _ => assert (HA : A) by reflexivity end.
  split; [exact HA|].
  split; [exact (proj1 (C7_token_synthesis _ _ _ HA)) | reflexivity].
Defined.

Lemma C8_witness :
  exists table command_line parameters,
    read_ini small_document = Ok (table, command_line) /\
    value_tree small_document = Some parameters /\
    table = record_all [] (flat_map (entries []) (children parameters)) /\
    table = [("-n", [IStr "7"]); ("-g:flag", [ITrue]); ("-g:files", [])] /\
    read_ini (mkElement "tool" [("name", "tool")] None
                [mkElement "description" [] (Some "a tool") []; small_document])
    = read_ini small_document.
Proof.
  eexists. eexists.
  match goal with
  | |- exists p, ?A /\ _ => assert (HA : A) by reflexivity
  end.
  destruct (proj1 C8_document_load _ _ _ HA) as (parameters & Hv & Ht).
  exists parameters. split; [exact HA|]. split; [exact Hv|]. split; [exact Ht|].
  split; [reflexivity|].
  apply (proj2 (proj2 (proj2 (proj2 C8_document_load)))
           "tool" [("name", "tool")] None
           [mkElement "description" [] (Some "a tool") []] small_document []).
  - discriminate.
  - reflexivity.
  - intros b [<- | []]. discriminate.
Defined.

Lemma C9_witness :
  exists self2 w2,
    finalize_log logging_tool empty_world "09:05" None None PNone = Ok (self2, w2) /\
    finalize_log self2 w2 "09:06" (Some (AsString "again")) None (PScalar (SInt 1))
    = Ok (self2, w2).
Proof.
  eexists. eexists.
  match goal with |- ?B /\ _ => assert (HB : B) by reflexivity end.
  split; [exact HB|].
  exact (C9_finalize_idempotent _ _ _ _ _ _ _ _ HB _ _ _ _ _).
Defined.

Lemma C10_witness :
  kw_num_range doubly_restricted = Some [Some (SInt 0); Some (SInt 10)] /\
  kw_file_formats doubly_restricted = Some ["txt"] /\
  exists i r,
    ArgumentItem_init "n" root_ref doubly_restricted = Ok i /\
    restrictions i = Some (NumericRange r) /\
    n_min r = Some (SInt 0) /\ n_max r = Some (SInt 10).
Proof.
  split; [reflexivity|]. split; [reflexivity|].
  destruct (C10_restriction_precedence "n" root_ref doubly_restricted
              [Some (SInt 0); Some (SInt 10)] ["txt"] eq_refl eq_refl)
    as (_ & Hok & Hr).
  destruct (Hok eq_refl) as [i Hi]. destruct (Hr i Hi) as (r & Hnew & Hres).
  exists i, r. split; [exact Hi|]. split; [exact Hres|].
  simpl in Hnew. injection Hnew as <-. split; reflexivity.
Defined.


(** ** Runs of the further properties *)

Lemma is_in_range_exact_witness :
  exists ws,
    is_in_range (int_range "p" 0 10) (PScalar (SStr "12")) = Ok (SInt 12, ws) /\
    call_type Tint (PScalar (SStr "12")) = Ok (SInt 12) /\
    length ws = 1%nat.
Proof.
  eexists.
  match goal with |- ?A /\ _ => assert (HA : A) by reflexivity end.
  split; [exact HA|].
  destruct (proj2 (is_in_range_exact (int_range "p" 0 10) (PScalar (SStr "12"))) _ _ HA)
    as (H1 & H2 & _).
  split; [exact H1 | exact H2].
Defined.

Lemma ArgumentItem_init_invariant_witness :
  exists i,
    ArgumentItem_init "n" root_ref (int_param 3 None) = Ok i /\
    name i = "n" /\ parent i = root_ref /\ call_value i = None /\
    (required i = true <-> default i = PNone).
Proof.
  eexists.
  match goal with |- ?A /\ _ => assert (HA : A) by reflexivity end.
  split; [exact HA|].
  destruct (ArgumentItem_init_invariant _ _ _ _ HA) as (H1 & H2 & H3 & H4 & _).
  repeat split; try assumption; apply H4.
Defined.

Lemma ArgumentItem_init_typed_witness :
  exists i,
    ArgumentItem_init "n" root_ref (int_param 3 (Some [1; 2; 3]%Z)) = Ok i /\
    type i = Tint /\
    forall l, choices i = Some l -> forall v, In v l -> has_type (type i) v = true.
Proof.
  eexists.
  match goal with |- ?A /\ _ => assert (HA : A) by reflexivity end.
  split; [exact HA|].
  destruct (ArgumentItem_init_typed _ _ _ _ HA) as (H1 & _ & H3).
  split; [exact H1 | exact H3].
Defined.

Lemma item_append_argument_exact_witness :
  exists i,
    ArgumentItem_init "n" root_ref (int_param 3 None) = Ok i /\
    item_append_argument i new_parser
    = Ok {| actions := (actions new_parser ++ [registered_action i])%list; titles := [] |}.
Proof.
  eexists.
  match goal with |- ?A /\ _ => assert (HA : A) by reflexivity end.
  split; [exact HA|].
  exact (item_append_argument_exact _ _ _ _ new_parser HA).
Defined.

Lemma append_argument_registers_witness :
  exists arguments ws p,
    declare root_ref two_level [] = Ok (arguments, ws) /\
    append_argument (Group root_ref EmptyString arguments) new_parser = Ok p /\
    map option_string (actions p) = ["-h"; "--help"; "-x"; "-g:y"].
Proof.
  eexists. eexists. eexists.
  match goal with |- ?A /\ _ => assert (HA : A) by reflexivity end.
  split; [exact HA|].
  match goal with |- ?B /\ _ => assert (HB : B) by reflexivity end.
  split; [exact HB|].
  exact (proj1 (append_argument_registers _ _ HB)).
Defined.

Lemma declare_well_keyed_witness :
  exists arguments ws,
    declare root_ref two_level [] = Ok (arguments, ws) /\
    well_keyed (Group root_ref EmptyString arguments).
Proof.
  eexists. eexists.
  match goal with |- ?A /\ _ => assert (HA : A) by reflexivity end.
  split; [exact HA|].
  exact (declare_well_keyed _ _ _ _ _ HA).
Defined.

Lemma declare_warns_on_duplicates_witness :
  exists arguments,
    declare root_ref two_level [] = Ok (arguments, []) /\
    distinctly_named two_level.
Proof.
  eexists.
  match goal with |- ?A /\ _ => assert (HA : A) by reflexivity end.
  split; [exact HA|].
  exact (proj1 (declare_warns_on_duplicates _ _ _ _ HA) eq_refl).
Defined.

Lemma add_after_declare_witness :
  exists arguments ws i,
    declare root_ref two_level [] = Ok (arguments, ws) /\
    ArgumentItem_init "x" root_ref (int_param 9 None) = Ok i /\
    declare root_ref (two_level ++ [Add "x" (int_param 9 None)])%list []
    = Ok (dict_set arguments "x" (Item i), (ws ++ [defined_twice])%list) /\
    map fst (dict_set arguments "x" (Item i)) = map fst arguments.
Proof.
  eexists. eexists. eexists.
  match goal with |- ?A /\ _ => assert (HA : A) by reflexivity end.
  split; [exact HA|].
  match goal with |- ?B /\ _ => assert (HB : B) by reflexivity end.
  split; [exact HB|].
  destruct (add_after_declare _ _ _ _ _ _ _ HA HB) as (H1 & _ & H3).
  split; [exact H1 | exact H3].
Defined.

Lemma store_call_value_by_path_witness :
  exists arguments ws i,
    declare root_ref two_level [] = Ok (arguments, ws) /\
    In (["g"], i)
      (leaves (store_call_value (Group root_ref EmptyString arguments)
                 [("g:y", PScalar (SInt 5))])) /\
    call_value i = Some (PScalar (SInt 5)).
Proof.
  eexists. eexists. eexists.
  match goal with |- ?A /\ _ => assert (HA : A) by reflexivity end.
  split; [exact HA|].
  match goal with |- ?B /\ _ => assert (HB : B) by (right; left; reflexivity) end.
  split; [exact HB|].
  exact (proj1 (store_call_value_by_path _ _ _ _ _ _ _ HA HB)).
Defined.

Lemma fresh_item_serialises_witness :
  exists i,
    ArgumentItem_init "n" root_ref (int_param 1 (Some [1; 2]%Z)) = Ok i /\
    raises (item_xml_node i) = true.
Proof.
  eexists.
  match goal with |- ?A /\ _ => assert (HA : A) by reflexivity end.
  split; [exact HA|].
  apply (proj2 (fresh_item_serialises _ _ _ _ HA)).
  eexists. split; [reflexivity|]. split; discriminate.
Defined.

Lemma xml_node_exact_witness :
  exists arguments ws e kids,
    declare root_ref two_level [] = Ok (arguments, ws) /\
    xml_node (Group root_ref "top" arguments) = Ok e /\
    e = mkElement "NODE" [("name", "1"); ("description", "top")] None kids /\
    Forall2 (fun kn c => xml_node (snd kn) = Ok c) arguments kids.
Proof.
  eexists. eexists. eexists.
  match goal with |- exists k, ?A /\ _ => assert (HA : A) by reflexivity end.
  match goal with |- exists k, _ /\ ?B /\ _ => assert (HB : B) by reflexivity end.
  destruct (proj2 (xml_node_exact _) _ _ _ _ _ eq_refl HB) as (kids & H1 & H2).
  exists kids. split; [exact HA|]. split; [exact HB|]. split; [exact H1 | exact H2].
Defined.

Lemma generate_ctd_tree_exact_witness :
  exists s1 doc,
    generate_ctd_tree (CTDopts_init "tool" "1.0" [("category", "demo")]) true "09:00" = Ok s1 /\
    tool_xml_node s1 = Some doc /\
    dict_get (attrib doc) "name" = Some "tool" /\
    dict_get (attrib doc) "category" = Some "demo" /\
    dict_get (attrib doc) "docurl" = None.
Proof.
  eexists.
  match goal with |- exists d, ?A /\ _ => assert (HA : A) by reflexivity end.
  destruct (proj2 (generate_ctd_tree_exact _ _ _) _ HA)
    as (_ & _ & _ & (doc & H1 & _ & H3 & _ & H5 & H6) & _).
  exists doc. split; [exact HA|]. split; [exact H1|]. split; [exact H3|].
  split; [exact H6 | exact H5].
Defined.

Lemma write_ctd_effect_witness :
  exists s w',
    write_ctd (tool_over []) empty_world "09:00" = Ok (s, w') /\
    printed w' = [] /\
    exists f doc, out_ctd_file s = Some f /\ dict_get (files w') f = Some doc.
Proof.
  eexists. eexists.
  match goal with |- ?A /\ _ => assert (HA : A) by reflexivity end.
  split; [exact HA|].
  destruct (proj2 (write_ctd_effect _ _ _) _ _ HA) as ((f & doc & H1 & _ & H3 & _) & H4 & _).
  split; [exact H4|]. exists f, doc. split; [exact H1 | exact H3].
Defined.

Lemma finalize_log_record_witness :
  exists s1 s2 w2,
    generate_ctd_tree (tool_over []) true "09:00" = Ok s1 /\
    finalize_log s1 empty_world "09:05" None None (PScalar (SInt 0)) = Ok (s2, w2) /\
    already_finalized s2 = true /\
    exists doc, dict_get (files w2) "out.ctd" = Some doc.
Proof.
  eexists. eexists. eexists.
  match goal with |- ?A /\ _ => assert (HA : A) by reflexivity end.
  split; [exact HA|].
  match goal with |- ?B /\ _ => assert (HB : B) by reflexivity end.
  split; [exact HB|].
  destruct (finalize_log_record (tool_over []) _ _ _ _ _ _ _ _ _ eq_refl HA HB)
    as (f & doc & path & H1 & H2 & _ & _ & H5).
  split; [exact H5|]. exists doc. injection H1 as <-. exact H2.
Defined.

Lemma read_ini_table_keys_witness :
  exists table command_line,
    read_ini small_document = Ok (table, command_line) /\
    NoDup (map fst table).
Proof.
  eexists. eexists.
  match goal with |- ?A /\ _ => assert (HA : A) by reflexivity end.
  split; [exact HA|].
  exact (proj1 (read_ini_table_keys _ _ _ HA)).
Defined.

Lemma parse_args_sets_call_values_witness :
  exists arguments ws self' w' parsed_args warned,
    declare root_ref two_level [] = Ok (arguments, ws) /\
    parse_args (tool_over arguments) empty_world "09:00" ["-g:y"; "5"]
    = Ok (Returned self' w' parsed_args warned) /\
    main_node self' = store_call_value (main_node (tool_over arguments)) parsed_args.
Proof.
  eexists. eexists. eexists. eexists. eexists. eexists.
  match goal with |- ?A /\ _ => assert (HA : A) by reflexivity end.
  split; [exact HA|].
  match goal with |- ?B /\ _ => assert (HB : B) by reflexivity end.
  split; [exact HB|].
  exact (proj1 (parse_args_sets_call_values (tool_over _) _ _ _ _ _ _ _ _ _ _ _
                  HA eq_refl HB)).
Defined.

Lemma write_tool_ctd_exits_witness :
  exists o self' w',
    parse_args (tool_over []) empty_world "09:00" ["--write_tool_ctd"] = Ok o /\
    o = Exited self' w' /\
    out_ctd_file self' = Some "tool.ctd".
Proof.
  eexists.
  match goal with |- exists s w, ?A /\ _ => assert (HA : A) by reflexivity end.
  destruct (write_tool_ctd_exits _ _ _ _ _ HA) as (self' & w' & f & doc & H1 & H2 & _ & _ & _ & _ & H7).
  exists self', w'. split; [exact HA|]. split; [exact H1|].
  rewrite H2. f_equal. exact (H7 eq_refl).
Defined.



